(** * PictureStorage: the RGB 24-bit streaming codec

    A shallow embedding of [src/PictureStorage.py]: the header codec
    ([create_header_pixels] and the header parse of [decrypt_single_file]),
    the byte/pixel packer, the image partitioner and the raster layout of
    [encrypt_file], the nested reconstruction loops of
    [decrypt_single_file], the file names of a series and the grouping of
    the directory mode of [decrypt_file].

    Conventions of the embedding.
    - Python integers are [Z]; [//] and [%] with a positive divisor are
      [Z.div] and [Z.modulo]; [&], [|], [<<], [>>] are [Z.land], [Z.lor],
      [Z.shiftl], [Z.shiftr].
    - A file is the list of its bytes, each an integer in [0, 256).  The open
      input file is the list of bytes not read yet.
    - A numpy array of shape (height, width, 3) and dtype uint8 is an
      [ndarray]: its shape and a cell function on (row, col).  Reads and
      writes outside the shape raise IndexError ([getitem] and [setitem]
      return [None]); a write casts each channel to uint8.
    - The channel values that [decrypt_single_file] reads from an array are
      uint8 scalars of NumPy, and its arithmetic on the header is arithmetic
      of NumPy scalars.  The type of the result depends on the version of
      NumPy, which the source does not fix: [numpy] names the two
      behaviours (int64 under NumPy 1.x where the C long has 64 bits, uint8
      under NumPy 2 and later), [wrap] is the wrap-around of that type, and
      the decoder takes the version as a parameter.  A comparison between a
      Python integer and a scalar compares the two numbers.
    - The progress display writes to the console only, but under NumPy 2
      its call after a complete pixel raises OverflowError when
      [40 * bytes_written] does not fit a uint8
      ([print_bytes_progress_raises]); the decoder keeps this exception and
      leaves the rest of the display out.  The user answers 'y' to the
      confirmation prompt of the encoder.
    - [math.ceil(a / b)] is the ceiling of the quotient rounded to a double
      ([ceil_quotient]).  [math.ceil(np.sqrt(n))] is the exact integer
      ceiling [ceil_sqrt]: a raster holds at most 10^8 pixels, where the
      floating point root is exact.
    - A series is the list of its images in the order of [sorted(glob(..))],
      which is the order of generation for at most 999 images and not
      beyond: the name of image 1000 sorts between those of images 099 and
      100.  PNG storage is lossless, so an image read back is the array
      that was saved.
    - [Exact] holds the reconstruction loops on mathematical integers.  It
      is not the program but the reference that [Decrypt] is compared with:
      the two agree where no scalar wraps and the display does not raise
      ([decrypt_exact]).
    - A string is the list of its code points.  The regular expression of
      the file names is the backtracking search that [re.match] runs for
      it: the lazy first group grows one character at a time, the greedy
      third group gives characters back; [\d] is a class that contains the
      ASCII digits.  Paths are POSIX paths.  [fnmatch] is modelled for
      patterns without ['['], which the theorems on [glob] assume of the
      base name and the extension.  [sorted] is a merge sort by the order
      of [str]; every sort gives the same list. *)

From Stdlib Require Import ZArith List Lia Bool.
From stdpp Require Import base list sorting.
Import ListNotations.
Open Scope Z_scope.

(** ** Data model *)

(** One pixel: the list [[r, g, b]] of the source. *)
Record pixel := RGB { red : Z; green : Z; blue : Z }.

Definition channels (p : pixel) : list Z := [red p; green p; blue p].

(** The white padding value of [np.full((size, size, 3), 255)]. *)
Definition white : pixel := RGB 255 255 255.

(** Cast to dtype uint8. *)
Definition uint8 (c : Z) : Z := c mod 256.

Definition uint8_pixel (p : pixel) : pixel :=
  RGB (uint8 (red p)) (uint8 (green p)) (uint8 (blue p)).

(** [len(l)] as a Python integer. *)
Definition len {A} (l : list A) : Z := Z.of_nat (length l).

(** [range(start, start + n)]. *)
Fixpoint zrange (start : Z) (n : nat) : list Z :=
  match n with
  | O => []
  | S n' => start :: zrange (start + 1) n'
  end.

(** [range(n)]. *)
Definition range (n : Z) : list Z := zrange 0 (Z.to_nat n).

(** [math.ceil(a / b)] for [b > 0]. *)
Definition ceil_div (a b : Z) : Z :=
  if a mod b =? 0 then a / b else a / b + 1.

(** [math.ceil(np.sqrt(n))]. *)
Definition ceil_sqrt (n : Z) : Z :=
  let s := Z.sqrt n in if s * s =? n then s else s + 1.

(** [a / b] rounded to the nearest integer, a tie to the even one, for
    [b > 0]. *)
Definition div_nearest_even (a b : Z) : Z :=
  let q := a / b in
  let r := a mod b in
  if 2 * r <? b then q
  else if b <? 2 * r then q + 1
  else if Z.even q then q else q + 1.

(** The binary exponent of the quotient of two positive integers: the [e]
    with [2^e <= a / b < 2^(e+1)]. *)
Definition quotient_exponent (a b : Z) : Z :=
  if b <=? a then Z.log2 (a / b) else - Z.log2_up (ceil_div b a).

(** [math.ceil(a / b)] for Python integers [a > 0] and [b > 0].  The true
    division of two integers gives the double nearest to the quotient: a
    significand of 53 bits, a tie to the even one.  (The exponent range of a
    double is not modelled; only a quotient above 10^308 leaves it.)  The
    ceiling of a double is exact. *)
Definition ceil_quotient (a b : Z) : Z :=
  let s := 52 - quotient_exponent a b in
  if 0 <=? s then ceil_div (div_nearest_even (a * 2 ^ s) b) (2 ^ s)
  else div_nearest_even a (b * 2 ^ (- s)) * 2 ^ (- s).

(** A numpy array of shape (height, width, 3). *)
Record ndarray := NdArray {
  height : Z;
  width : Z;
  cells : Z -> Z -> pixel
}.

Definition in_shape (a : ndarray) (row col : Z) : bool :=
  (0 <=? row) && (row <? height a) && (0 <=? col) && (col <? width a).

(** [a[row, col, :3]]; [None] is IndexError. *)
Definition getitem (a : ndarray) (row col : Z) : option pixel :=
  if in_shape a row col then Some (cells a row col) else None.

(** [a[row, col] = p]; [None] is IndexError. *)
Definition setitem (a : ndarray) (row col : Z) (p : pixel) : option ndarray :=
  if in_shape a row col then
    Some (NdArray (height a) (width a)
            (fun r c => if (r =? row) && (c =? col) then uint8_pixel p
                        else cells a r c))
  else None.

(** [np.full((h, w, 3), 255, dtype=np.uint8)] *)
Definition full (h w : Z) (p : pixel) : ndarray := NdArray h w (fun _ _ => p).

(** The cell at raster position [pixel_idx] (row-major). *)
Definition cell (a : ndarray) (pixel_idx : Z) : pixel :=
  cells a (pixel_idx / width a) (pixel_idx mod width a).

(** ** Header codec *)

(** The loop [for _ in range(12): length_bytes.append(temp & 0xFF); temp >>= 8]. *)
Fixpoint low_bytes (n : nat) (temp : Z) : list Z :=
  match n with
  | O => []
  | S n' => Z.land temp 255 :: low_bytes n' (Z.shiftr temp 8)
  end.

(** [create_header_pixels(complete_pixels, extra_bits)].  [length_bytes] has
    12 entries, so the indexed reads never leave it. *)
Definition create_header_pixels (complete_pixels extra_bits : Z) : list pixel :=
  let length_bytes := rev (low_bytes 12 complete_pixels) in
  map (fun i : nat =>
         RGB (nth (i * 3) length_bytes 0)
             (nth (i * 3 + 1) length_bytes 0)
             (nth (i * 3 + 2) length_bytes 0))
      (seq 0 4)
  ++ [RGB 0 0 extra_bits].

(** The version of NumPy in use.  An operation between a Python integer and
    a uint8 scalar gives an int64 under NumPy 1.x (both operands are
    converted to the default integer) and a uint8 under NumPy 2 and later
    (the Python integer takes the type of the scalar). *)
Inductive numpy := NumPy1 | NumPy2.

(** The value of an integer scalar of that type: a result that does not fit
    wraps around (NumPy warns and goes on). *)
Definition wrap (np : numpy) (x : Z) : Z :=
  match np with
  | NumPy1 => (x + 2 ^ 63) mod 2 ^ 64 - 2 ^ 63
  | NumPy2 => x mod 2 ^ 8
  end.

(** [for byte_val in length_bytes: complete_pixels = (complete_pixels << 8) | byte_val],
    from the Python integer 0.  Every [byte_val] is a uint8 scalar read
    from the array, so from the first step on [complete_pixels] is a scalar
    too; the left shift wraps (by 8 bits it clears a uint8), and the
    bitwise or of two values of the type stays in the type. *)
Definition be_fold (np : numpy) (length_bytes : list Z) : Z :=
  fold_left
    (fun complete_pixels byte_val => Z.lor (wrap np (Z.shiftl complete_pixels 8)) byte_val)
    length_bytes 0.

(** The header parse of [decrypt_single_file], lines 353-363, on the five
    pixels read from the first image. *)
Definition decode_header (np : numpy) (header_pixels : list pixel) : Z * Z :=
  let length_bytes := flat_map channels (take 4 header_pixels) in
  let complete_pixels := be_fold np length_bytes in
  let extra_bits := blue (nth 4 header_pixels (RGB 0 0 0)) in
  (complete_pixels, extra_bits).

(** ** Progress bar *)



(** Whether the call [print_bytes_progress(bytes_processed, total_bytes, ..)]
    of line 443 raises OverflowError; there [bytes_processed] is a Python
    integer and [total_bytes] a NumPy scalar.  The function returns at once
    when [total_bytes == 0].  Line 67 divides the Python integer
    [length * bytes_processed], with [length = 40], by the scalar: NumPy 2
    converts the Python integer to the type of the scalar, uint8, and
    raises when it does not fit; NumPy 1.x converts both to int64.  The
    other lines work on floats and strings. *)
Definition print_bytes_progress_raises (np : numpy) (bytes_processed total_bytes : Z)
    : bool :=
  match np with
  | NumPy1 => false
  | NumPy2 => negb (total_bytes =? 0) && (255 <? 40 * bytes_processed)
  end.

(** ** Encoder: [encrypt_file] *)

Module Encrypt.

Definition max_pixels_per_image : Z := 10000 * 10000.
Definition header_pixels : Z := 5.

Section Metadata.
Variable file_size : Z.

Definition total_bits : Z := file_size * 8.
Definition complete_pixels : Z := total_bits / 24.
Definition extra_bits : Z := total_bits mod 24.
Definition data_pixels : Z := complete_pixels + (if 0 <? extra_bits then 1 else 0).
Definition total_pixels_needed : Z := header_pixels + data_pixels.
(** Line 166: [math.ceil(total_pixels_needed / max_pixels_per_image)]. *)
Definition num_images : Z := ceil_quotient total_pixels_needed max_pixels_per_image.

(** How many pixels image [image_num] (0-based) contains. *)
Definition pixels_in_image (image_num : Z) : Z :=
  if image_num =? 0 then Z.min max_pixels_per_image total_pixels_needed
  else
    let pixels_already_written :=
      header_pixels + (image_num - 1) * max_pixels_per_image
      + (Z.min max_pixels_per_image total_pixels_needed - header_pixels) in
    let pixels_remaining := total_pixels_needed - pixels_already_written in
    Z.min max_pixels_per_image pixels_remaining.

Definition data_pixels_in_image (image_num : Z) : Z :=
  if image_num =? 0 then pixels_in_image image_num - header_pixels
  else pixels_in_image image_num.

Definition bytes_to_read (image_num : Z) : Z :=
  if (image_num =? num_images - 1) && (0 <? extra_bits) then
    (data_pixels_in_image image_num - 1) * 3 + ceil_div extra_bits 8
  else data_pixels_in_image image_num * 3.
End Metadata.

(** The chunked read loop
    [while len(chunk_bytes) < bytes_to_read: data = f.read(read_size) ...].
    Every iteration that does not break appends at least one byte, so
    [bytes_to_read] iterations are enough fuel.  Returns [chunk_bytes] and
    the rest of the file. *)
Fixpoint read_loop (fuel : nat) (bytes_to_read chunk_size : Z)
    (chunk_bytes f : list Z) : list Z * list Z :=
  match fuel with
  | O => (chunk_bytes, f)
  | S fuel' =>
    if len chunk_bytes <? bytes_to_read then
      let remaining := bytes_to_read - len chunk_bytes in
      let read_size := Z.min chunk_size remaining in
      let data := take (Z.to_nat read_size) f in
      match data with
      | [] => (chunk_bytes, f)
      | _ :: _ =>
        read_loop fuel' bytes_to_read chunk_size (chunk_bytes ++ data)
          (drop (Z.to_nat read_size) f)
      end
    else (chunk_bytes, f)
  end.

Definition read_chunk (bytes_to_read : Z) (f : list Z) : list Z * list Z :=
  let chunk_size := Z.min bytes_to_read (10 * 1024 * 1024) in
  read_loop (Z.to_nat bytes_to_read) bytes_to_read chunk_size [] f.

(** [for i in range(0, len(chunk_bytes), 3)]: one pixel per group of three
    bytes, a trailing group of one or two bytes padded with 0. *)
Fixpoint bytes_to_pixels (chunk_bytes : list Z) : list pixel :=
  match chunk_bytes with
  | r :: g :: b :: rest => RGB r g b :: bytes_to_pixels rest
  | [r; g] => [RGB r g 0]
  | [r] => [RGB r 0 0]
  | [] => []
  end.

(** [for idx, pixel in enumerate(image_pixels): img_array[idx // size, idx % size] = pixel],
    from index [idx] on. *)
Fixpoint fill (size idx : Z) (image_pixels : list pixel) (img_array : ndarray)
    : option ndarray :=
  match image_pixels with
  | [] => Some img_array
  | pixel :: rest =>
    let row := idx / size in
    let col := idx mod size in
    match setitem img_array row col pixel with
    | Some img_array' => fill size (idx + 1) rest img_array'
    | None => None
    end
  end.

(** Lines 270-280: the square raster of one image. *)
Definition raster (image_pixels : list pixel) : option ndarray :=
  let size := ceil_sqrt (len image_pixels) in
  fill size 0 image_pixels (full size size white).

(** What one iteration of the image loop produces. *)
Record image_unit := ImageUnit {
  image_pixels : list pixel;
  img_array : ndarray
}.

(** The body of [for image_num in range(num_images)], up to the pixel list:
    returns [image_pixels] and the rest of the file. *)
Definition build_pixels (file_size image_num : Z) (f : list Z) : list pixel * list Z :=
  let '(chunk_bytes, f') := read_chunk (bytes_to_read file_size image_num) f in
  ((if image_num =? 0
    then create_header_pixels (complete_pixels file_size) (extra_bits file_size)
    else []) ++ bytes_to_pixels chunk_bytes, f').

Fixpoint image_loop (file_size : Z) (image_nums : list Z) (f : list Z)
    : option (list image_unit) :=
  match image_nums with
  | [] => Some []
  | image_num :: rest =>
    let '(pixels, f') := build_pixels file_size image_num f in
    match raster pixels with
    | None => None
    | Some arr =>
      match image_loop file_size rest f' with
      | None => None
      | Some units => Some (ImageUnit pixels arr :: units)
      end
    end
  end.

(** [encrypt_file] on a file with the given content: the generated images in
    order, or [None] if a raster write raised. *)
Definition encrypt_file (content : list Z) : option (list image_unit) :=
  let file_size := len content in
  image_loop file_size (range (num_images file_size)) content.

(** The saved series. *)
Definition series (units : list image_unit) : list ndarray := map img_array units.

End Encrypt.

(** ** Decoder: [decrypt_single_file] *)

Module Decrypt.

Inductive exn := IndexError | ZeroDivisionError | FileNotFoundError | OverflowError.

Inductive outcome :=
| Raised (e : exn)
| Returned (b : bool).

(** The state of the reconstruction loops: the counter, the bytes written
    to [out_file] so far, the counter of the progress display, the
    exception that ended the loops if one was raised, and (not in the
    source) the number of pixels read from the images as payload. *)
Record wstate := WState {
  bytes_written : Z;
  out_file : list Z;
  pixels_read : Z;
  last_update_bytes : Z;
  raised : option exn
}.

Definition write (st : wstate) (b : Z) : wstate :=
  WState (bytes_written st + 1) (out_file st ++ [b]) (pixels_read st)
         (last_update_bytes st) (raised st).

Definition read_pixel (st : wstate) : wstate :=
  WState (bytes_written st) (out_file st) (pixels_read st + 1)
         (last_update_bytes st) (raised st).

(** Lines 345-351: the first five raster positions of the first image. *)
Fixpoint read_header (first_array : ndarray) (idxs : list Z) : exn + list pixel :=
  match idxs with
  | [] => inr []
  | i :: rest =>
    if width first_array =? 0 then inl ZeroDivisionError
    else
      match getitem first_array (i / width first_array) (i mod width first_array) with
      | None => inl IndexError
      | Some p =>
        match read_header first_array rest with
        | inl e => inl e
        | inr ps => inr (p :: ps)
        end
      end
  end.

(** Lines 369-371: [total_bytes = complete_pixels * 3], plus
    [math.ceil(extra_bits / 8)] when [extra_bits > 0]; both are operations
    on scalars. *)
Definition total_bytes (np : numpy) (complete_pixels extra_bits : Z) : Z :=
  let total_bytes := wrap np (complete_pixels * 3) in
  if 0 <? extra_bits then wrap np (total_bytes + ceil_div extra_bits 8)
  else total_bytes.

(** Line 385: [bytes_target = complete_pixels * 3]. *)
Definition bytes_target (np : numpy) (complete_pixels : Z) : Z :=
  wrap np (complete_pixels * 3).

(** Line 389:
    [min(1024 * 1024, total_bytes // 100 if total_bytes > 0 else 1024 * 1024)]. *)
Definition update_interval (total_bytes : Z) : Z :=
  Z.min (1024 * 1024) (if 0 <? total_bytes then total_bytes / 100 else 1024 * 1024).

Section Reconstruct.
Variable np : numpy.
Variables bytes_target total_bytes extra_bits update_interval : Z.

(** Lines 441-444: the progress update after a complete pixel. *)
Definition update_progress (st : wstate) : wstate :=
  if (update_interval <=? bytes_written st - last_update_bytes st)
     || (bytes_written st =? total_bytes)
  then
    if print_bytes_progress_raises np (bytes_written st) total_bytes
    then WState (bytes_written st) (out_file st) (pixels_read st)
                (last_update_bytes st) (Some OverflowError)
    else WState (bytes_written st) (out_file st) (pixels_read st)
                (bytes_written st) (raised st)
  else st.

(** Lines 428-444: one complete pixel. *)
Definition write_complete (st : wstate) (p : pixel) : wstate :=
  let st := read_pixel st in
  let st := if bytes_written st <? bytes_target then write st (red p) else st in
  let st := if bytes_written st <? bytes_target then write st (green p) else st in
  let st := if bytes_written st <? bytes_target then write st (blue p) else st in
  update_progress st.

(** Lines 412-425: the residual pixel, on the path that ends in [break]. *)
Definition write_extra (st : wstate) (p : pixel) : wstate :=
  if (0 <? extra_bits) && (bytes_written st <? total_bytes) then
    let st := read_pixel st in
    let extra_bytes_needed := ceil_div extra_bits 8 in
    let st := if bytes_written st <? total_bytes then write st (red p) else st in
    let st :=
      if (bytes_written st <? total_bytes) && (1 <? extra_bytes_needed)
      then write st (green p) else st in
    if (bytes_written st <? total_bytes) && (2 <? extra_bytes_needed)
    then write st (blue p) else st
  else st.

(** The loops go on after a row or an image unless an exception was raised
    or the test [bytes_written >= total_bytes] breaks them. *)
Definition stops (st : wstate) : bool :=
  match raised st with
  | Some _ => true
  | None => total_bytes <=? bytes_written st
  end.

Section Image.
Variable img_array : ndarray.
Variable start_pixel : Z.

(** [for col in range(width)], over the columns still to visit. *)
Fixpoint col_loop (row : Z) (cols : list Z) (st : wstate) : wstate :=
  match cols with
  | [] => st
  | col :: rest =>
    let pixel_idx := row * width img_array + col in
    if pixel_idx <? start_pixel then col_loop row rest st
    else if bytes_target <=? bytes_written st then
      write_extra st (cells img_array row col)
    else
      let st := write_complete st (cells img_array row col) in
      match raised st with
      | Some _ => st
      | None => col_loop row rest st
      end
  end.

(** [for row in range(height)], with the [break] after each row. *)
Fixpoint row_loop (rows : list Z) (st : wstate) : wstate :=
  match rows with
  | [] => st
  | row :: rest =>
    let st := col_loop row (range (width img_array)) st in
    if stops st then st else row_loop rest st
  end.
End Image.

(** [for idx, image_path in enumerate(matching_files, 1)]. *)
Fixpoint file_loop (idx : Z) (matching_files : list ndarray) (st : wstate) : wstate :=
  match matching_files with
  | [] => st
  | img_array :: rest =>
    let start_pixel := if idx =? 1 then 5 else 0 in
    let st := row_loop img_array start_pixel (range (height img_array)) st in
    if stops st then st else file_loop (idx + 1) rest st
  end.
End Reconstruct.

(** What a run leaves behind: how the call ended, the destination file
    ([None] when it does not exist) and the number of payload pixels read. *)
Record run := Run {
  result : outcome;
  output_file : option (list Z);
  consumed : Z
}.

(** [decrypt_single_file] under the given NumPy, on the sorted series
    [matching_files], with the destination file [dest] as it is before the
    call.  An exception raised inside the loops leaves the destination with
    the bytes written so far. *)
Definition decrypt_single_file (np : numpy) (matching_files : list ndarray)
    (dest : option (list Z)) : run :=
  match matching_files with
  | [] => Run (Raised FileNotFoundError) dest 0
  | first_array :: _ =>
    match read_header first_array (range 5) with
    | inl e => Run (Raised e) dest 0
    | inr header_pixels =>
      let '(complete_pixels, extra_bits) := decode_header np header_pixels in
      let total_bytes := total_bytes np complete_pixels extra_bits in
      match dest with
      | Some _ => Run (Returned false) dest 0
      | None =>
        let bytes_target := bytes_target np complete_pixels in
        let update_interval := update_interval total_bytes in
        let st :=
          file_loop np bytes_target total_bytes extra_bits update_interval
            1 matching_files (WState 0 [] 0 0 None) in
        Run (match raised st with Some e => Raised e | None => Returned true end)
            (Some (out_file st)) (pixels_read st)
      end
    end
  end.

End Decrypt.

(** ** The loops on mathematical integers *)

(** The header parse and the reconstruction loops with every number a
    mathematical integer and no progress display: what the loops of
    [decrypt_single_file] do as long as no scalar wraps and no exception is
    raised.  This is the reference that [Decrypt] is compared with. *)
Module Exact.

(** The number that the bytes spell, the most significant one first. *)
Definition be_fold (length_bytes : list Z) : Z :=
  fold_left (fun complete_pixels byte_val => Z.lor (Z.shiftl complete_pixels 8) byte_val)
    length_bytes 0.

(** The two numbers that a header spells. *)
Definition decode_header (header_pixels : list pixel) : Z * Z :=
  let length_bytes := flat_map channels (take 4 header_pixels) in
  let complete_pixels := be_fold length_bytes in
  let extra_bits := blue (nth 4 header_pixels (RGB 0 0 0)) in
  (complete_pixels, extra_bits).

Record wstate := WState {
  bytes_written : Z;
  out_file : list Z;
  pixels_read : Z
}.

Definition write (st : wstate) (b : Z) : wstate :=
  WState (bytes_written st + 1) (out_file st ++ [b]) (pixels_read st).

Definition read_pixel (st : wstate) : wstate :=
  WState (bytes_written st) (out_file st) (pixels_read st + 1).

Section Reconstruct.
Variables complete_pixels extra_bits : Z.

Definition total_bytes : Z :=
  complete_pixels * 3 + (if 0 <? extra_bits then ceil_div extra_bits 8 else 0).
Definition bytes_target : Z := complete_pixels * 3.

Definition write_complete (st : wstate) (p : pixel) : wstate :=
  let st := read_pixel st in
  let st := if bytes_written st <? bytes_target then write st (red p) else st in
  let st := if bytes_written st <? bytes_target then write st (green p) else st in
  if bytes_written st <? bytes_target then write st (blue p) else st.

Definition write_extra (st : wstate) (p : pixel) : wstate :=
  if (0 <? extra_bits) && (bytes_written st <? total_bytes) then
    let st := read_pixel st in
    let extra_bytes_needed := ceil_div extra_bits 8 in
    let st := if bytes_written st <? total_bytes then write st (red p) else st in
    let st :=
      if (bytes_written st <? total_bytes) && (1 <? extra_bytes_needed)
      then write st (green p) else st in
    if (bytes_written st <? total_bytes) && (2 <? extra_bytes_needed)
    then write st (blue p) else st
  else st.

Section Image.
Variable img_array : ndarray.
Variable start_pixel : Z.

Fixpoint col_loop (row : Z) (cols : list Z) (st : wstate) : wstate :=
  match cols with
  | [] => st
  | col :: rest =>
    let pixel_idx := row * width img_array + col in
    if pixel_idx <? start_pixel then col_loop row rest st
    else if bytes_target <=? bytes_written st then
      write_extra st (cells img_array row col)
    else col_loop row rest (write_complete st (cells img_array row col))
  end.

Fixpoint row_loop (rows : list Z) (st : wstate) : wstate :=
  match rows with
  | [] => st
  | row :: rest =>
    let st := col_loop row (range (width img_array)) st in
    if total_bytes <=? bytes_written st then st else row_loop rest st
  end.
End Image.

Fixpoint file_loop (idx : Z) (matching_files : list ndarray) (st : wstate) : wstate :=
  match matching_files with
  | [] => st
  | img_array :: rest =>
    let start_pixel := if idx =? 1 then 5 else 0 in
    let st := row_loop img_array start_pixel (range (height img_array)) st in
    if total_bytes <=? bytes_written st then st else file_loop (idx + 1) rest st
  end.
End Reconstruct.

(** The run of the loops on the numbers that the header spells. *)
Definition decrypt_single_file (matching_files : list ndarray) (dest : option (list Z))
    : Decrypt.run :=
  match matching_files with
  | [] => Decrypt.Run (Decrypt.Raised Decrypt.FileNotFoundError) dest 0
  | first_array :: _ =>
    match Decrypt.read_header first_array (range 5) with
    | inl e => Decrypt.Run (Decrypt.Raised e) dest 0
    | inr header_pixels =>
      let '(complete_pixels, extra_bits) := decode_header header_pixels in
      match dest with
      | Some _ => Decrypt.Run (Decrypt.Returned false) dest 0
      | None =>
        let st := file_loop complete_pixels extra_bits 1 matching_files (WState 0 [] 0) in
        Decrypt.Run (Decrypt.Returned true) (Some (out_file st)) (pixels_read st)
      end
    end
  end.

End Exact.

(** ** Vocabulary of the specification *)

Definition is_uint8 (c : Z) : Prop := 0 <= c < 256.

Definition is_uint8_pixel (p : pixel) : Prop :=
  is_uint8 (red p) /\ is_uint8 (green p) /\ is_uint8 (blue p).

(** The pixel stream of the whole series: the header, then the packed file. *)
Definition pixel_stream (content : list Z) : list pixel :=
  create_header_pixels (Encrypt.complete_pixels (len content))
                       (Encrypt.extra_bits (len content))
  ++ Encrypt.bytes_to_pixels content.

(** The slice of the stream that image [k] holds. *)
Definition spec_pixels (content : list Z) (k : Z) : list pixel :=
  take (Z.to_nat Encrypt.max_pixels_per_image)
    (drop (Z.to_nat (k * Encrypt.max_pixels_per_image)) (pixel_stream content)).

(** The bytes read before image [k] starts. *)
Definition consumed_before (k : Z) : nat :=
  Z.to_nat (3 * (k * Encrypt.max_pixels_per_image - 5)).

(** Image [k] of the series of [content]: its pixel list is the [k]-th slice
    of the stream and its array is the raster of that slice. *)
Definition unit_spec (content : list Z) (k : Z) (u : Encrypt.image_unit) : Prop :=
  Encrypt.image_pixels u = spec_pixels content k /\
  Encrypt.raster (spec_pixels content k) = Some (Encrypt.img_array u).

(** What the loop body of [decrypt_single_file] does with one payload cell. *)
Definition step (cp eb : Z) (st : Exact.wstate) (p : pixel) : Exact.wstate :=
  if Exact.bytes_target cp <=? Exact.bytes_written st
  then Exact.write_extra cp eb st p
  else Exact.write_complete cp st p.

(** The same at raster position [k] of an image, skipping the header. *)
Definition stepi (cp eb : Z) (a : ndarray) (start_pixel : Z) (st : Exact.wstate) (k : Z)
    : Exact.wstate :=
  if k <? start_pixel then st else step cp eb st (cell a k).

(** The raster cells of one image that the loops visit as payload, in
    order: all cells from raster position [start] on. *)
Definition payload_cells (a : ndarray) (start : Z) : list pixel :=
  map (cell a)
    (drop (Z.to_nat start) (zrange 0 (Z.to_nat (height a) * Z.to_nat (width a)))).

(** The payload cells of a series, image [idx] (1-based) first. *)
Fixpoint series_cells (idx : Z) (files : list ndarray) : list pixel :=
  match files with
  | [] => []
  | a :: rest => payload_cells a (if idx =? 1 then 5 else 0) ++ series_cells (idx + 1) rest
  end.

(** How many raster cells of an image lie at or after [start]. *)
Definition capacity (a : ndarray) (start : Z) : Z :=
  Z.max 0 (Z.max 0 (height a) * Z.max 0 (width a) - start).

(** The payload cells a series supplies. *)
Fixpoint series_capacity (idx : Z) (files : list ndarray) : Z :=
  match files with
  | [] => 0
  | a :: rest => capacity a (if idx =? 1 then 5 else 0) + series_capacity (idx + 1) rest
  end.

(** The payload pixels a header declares. *)
Definition declared_pixels (cp eb : Z) : Z := cp + (if 0 <? eb then 1 else 0).

(** The loop invariant: the counter is the length of the output, never
    passes [total_bytes], and every pixel read so far gave three bytes
    unless it was the one that completed the file. *)
Definition counters_ok (cp eb : Z) (st : Exact.wstate) : Prop :=
  Exact.bytes_written st = len (Exact.out_file st) /\
  Exact.bytes_written st <= Exact.total_bytes cp eb /\
  Exact.bytes_written st <= 3 * Exact.pixels_read st /\
  3 * Exact.pixels_read st <= Exact.bytes_written st + 2 /\
  (Exact.bytes_written st < Exact.total_bytes cp eb ->
   Exact.bytes_written st = 3 * Exact.pixels_read st).

(** How many of the raster positions [i, i + n) lie at or after [start]. *)
Definition count (start i : Z) (n : nat) : Z :=
  Z.max 0 (i + Z.of_nat n - Z.max start i).

(** The array [a] holds the pixel list [pixels] in its first raster
    positions; the cells after them are not constrained. *)
Definition holds (a : ndarray) (pixels : list pixel) : Prop :=
  0 <= height a /\ 0 <= width a /\ len pixels <= height a * width a /\
  forall j, 0 <= j < len pixels -> cell a j = nth (Z.to_nat j) pixels white.

(** Image [k] of a series that carries [content]: it holds the [k]-th slice
    of the stream, and every image but the last has no other cell. *)
Definition carries (content : list Z) (k : Z) (a : ndarray) : Prop :=
  holds a (spec_pixels content k) /\
  (k < Encrypt.num_images (len content) - 1 ->
   len (spec_pixels content k) = height a * width a).

(** Byte contents that a file can have and a header can describe. *)
Definition valid_content (content : list Z) : Prop :=
  Forall is_uint8 content /\ len content / 3 < 2 ^ 96.

(** A series that differs from the written one only in padding cells: the
    same shapes, and the same cell at every raster position below the pixel
    count of the image. *)
Definition same_real_pixels (u : Encrypt.image_unit) (a : ndarray) : Prop :=
  height a = height (Encrypt.img_array u) /\
  width a = width (Encrypt.img_array u) /\
  forall j, 0 <= j < len (Encrypt.image_pixels u) ->
    cell a j = cell (Encrypt.img_array u) j.

Definition padding_variant (units : list Encrypt.image_unit) (files : list ndarray) : Prop :=
  Forall2 same_real_pixels units files.

(** An array as [np.array(img)] returns it: every channel is a uint8. *)
Definition uint8_array (a : ndarray) : Prop :=
  forall r c, is_uint8_pixel (cells a r c).

(** The header that [decrypt_single_file] parses from a series under the
    given NumPy, when reading the five pixels does not raise. *)
Definition parse_header (np : numpy) (files : list ndarray) : option (Z * Z) :=
  match files with
  | [] => None
  | first_array :: _ =>
    match Decrypt.read_header first_array (range 5) with
    | inl _ => None
    | inr header_pixels => Some (decode_header np header_pixels)
    end
  end.

(** The two numbers that the header of a series spells, when its five
    pixels can be read: the 96-bit number in pixels 0-3 and the blue channel
    of pixel 4. *)
Definition header_field (files : list ndarray) : option (Z * Z) :=
  match files with
  | [] => None
  | first_array :: _ =>
    match Decrypt.read_header first_array (range 5) with
    | inl _ => None
    | inr header_pixels => Some (Exact.decode_header header_pixels)
    end
  end.

(** The file sizes for which the floating point quotient of line 166 is the
    exact number of images. *)
Definition exact_count (n : Z) : Prop :=
  Encrypt.num_images n
  = ceil_div (Encrypt.total_pixels_needed n) Encrypt.max_pixels_per_image.

(** A file whose series has at most 999 images, so that the sequence number
    of every image has three digits. *)
Definition fits_999 (content : list Z) : Prop :=
  Encrypt.total_pixels_needed (len content) <= 999 * Encrypt.max_pixels_per_image.

(** The image that [encrypt_file] writes for the two bytes AB CD, and the
    same image with its three padding cells painted black. *)
Definition two_byte_units : list Encrypt.image_unit :=
  Eval vm_compute in
    match Encrypt.encrypt_file [171; 205] with
    | Some units => units
    | None => []
    end.

Definition repaint (n : Z) (a : ndarray) : ndarray :=
  NdArray (height a) (width a)
    (fun r c => if r * width a + c <? n then cells a r c else RGB 0 0 0).

(** The series of the counterexample to C2: one 3 x 3 image whose header
    declares 10 complete pixels (30 bytes) and no residual bits, followed by
    the 4 cells that remain in the raster. *)
Definition short_series : list ndarray :=
  [NdArray 3 3 (fun r c => if (r =? 1) && (c =? 0) then RGB 0 0 10 else RGB 0 0 0)].

(** A series that cannot supply what its header declares and stays below
    the reach of the progress display: one 2 x 3 image whose header declares
    2 complete pixels (6 bytes), followed by the single cell (7, 8, 9). *)
Definition starved_series : list ndarray :=
  [NdArray 2 3 (fun r c => if (r =? 1) && (c =? 0) then RGB 0 0 2
                           else if (r =? 1) && (c =? 2) then RGB 7 8 9
                           else RGB 0 0 0)].

(** The series of the counterexample to C8: one image of a single cell. *)
Definition tiny_series : list ndarray := [NdArray 1 1 (fun _ _ => white)].

(** Byte [k] of [x], counted from the least significant one. *)
Definition byte_of (x k : Z) : Z := (x / 2 ^ (8 * k)) mod 256.

(** ** File names *)

(** A string is the list of its code points: ['_'] is 95, ['.'] is 46,
    ['/'] is 47, ['0'] is 48, the newline is 10. *)
Definition png : list Z := [46; 112; 110; 103].
Definition bin : list Z := [98; 105; 110].

(** The decimal digits of [n >= 0], the least significant one first onto
    [acc]; [n] itself bounds the number of digits. *)
Fixpoint decimal_digits (fuel : nat) (n : Z) (acc : list Z) : list Z :=
  match fuel with
  | O => acc
  | S fuel' =>
    let acc' := (48 + n mod 10) :: acc in
    if n / 10 =? 0 then acc' else decimal_digits fuel' (n / 10) acc'
  end.

(** [str(n)] for [n >= 0]. *)
Definition decimal (n : Z) : list Z := decimal_digits (S (Z.to_nat n)) n [].

(** The format [{n:03d}] for [n >= 0]: zeros in front up to three digits. *)
Definition format_03d (n : Z) : list Z :=
  let digits := decimal n in
  repeat 48 (3 - length digits) ++ digits.

(** Lines 144-145: [if not file_extension: file_extension = "bin"]. *)
Definition default_extension (file_extension : list Z) : list Z :=
  match file_extension with
  | [] => bin
  | _ :: _ => file_extension
  end.

(** Line 283: [f"{base_name}_{image_num + 1:03d}_{file_extension}.png"]. *)
Definition image_filename (base_name : list Z) (image_num : Z) (file_extension : list Z)
    : list Z :=
  base_name ++ [95] ++ format_03d (image_num + 1) ++ [95] ++ file_extension ++ png.

(** [generated_files] after the image loop. *)
Definition generated_files (base_name : list Z) (num_images : Z) (file_extension : list Z)
    : list (list Z) :=
  map (fun image_num => image_filename base_name image_num file_extension)
      (range num_images).

(** Line 376: [f"{base_name}.{file_extension}"]. *)
Definition output_filename (base_name file_extension : list Z) : list Z :=
  base_name ++ [46] ++ file_extension.

(** The class [[a-zA-Z0-9]]. *)
Definition is_alnum (c : Z) : bool :=
  ((97 <=? c) && (c <=? 122)) || ((65 <=? c) && (c <=? 90)) || ((48 <=? c) && (c <=? 57)).

(** [$]: the end of the string, or the newline that ends it. *)
Definition at_end (s : list Z) : bool :=
  match s with
  | [] => true
  | [c] => c =? 10
  | _ :: _ :: _ => false
  end.

(** [\.png$] *)
Definition match_png (s : list Z) : bool :=
  match s with
  | c1 :: c2 :: c3 :: c4 :: rest =>
    (c1 =? 46) && (c2 =? 112) && (c3 =? 110) && (c4 =? 103) && at_end rest
  | _ => false
  end.

(** [([a-zA-Z0-9]+)\.png$], with the characters [g3] already in the group.
    The repetition is greedy: one more character is tried first, and the
    group is closed only when that fails. *)
Fixpoint match_extension (g3 s : list Z) : option (list Z) :=
  match s with
  | [] => None
  | c :: s' =>
    if is_alnum c then
      match match_extension (g3 ++ [c]) s' with
      | Some g => Some g
      | None => if match_png s' then Some (g3 ++ [c]) else None
      end
    else None
  end.

(** [_(\d{3})_([a-zA-Z0-9]+)\.png$].  In a [str] pattern [\d] is any Unicode
    decimal digit; the class is the parameter [is_decimal]. *)
Definition match_sequence (is_decimal : Z -> bool) (s : list Z) : option (list Z * list Z) :=
  match s with
  | u1 :: d1 :: d2 :: d3 :: u2 :: s' =>
    if (u1 =? 95) && is_decimal d1 && is_decimal d2 && is_decimal d3 && (u2 =? 95) then
      match match_extension [] s' with
      | Some g3 => Some ([d1; d2; d3], g3)
      | None => None
      end
    else None
  | _ => None
  end.

(** [(.+?)] followed by the rest of the pattern, with the characters [g1]
    already in the group.  The repetition is lazy: the group is closed as
    soon as the rest matches; [.] is any character but the newline. *)
Fixpoint match_base (is_decimal : Z -> bool) (g1 s : list Z)
    : option (list Z * list Z * list Z) :=
  match s with
  | [] => None
  | c :: s' =>
    if c =? 10 then None
    else
      match match_sequence is_decimal s' with
      | Some (g2, g3) => Some (g1 ++ [c], g2, g3)
      | None => match_base is_decimal (g1 ++ [c]) s'
      end
  end.

(** [re.match(r'^(.+?)_(\d{3})_([a-zA-Z0-9]+)\.png$', image_filename)]: the
    three groups, or [None]. *)
Definition filename_match (is_decimal : Z -> bool) (image_filename : list Z)
    : option (list Z * list Z * list Z) :=
  match_base is_decimal [] image_filename.

(** Lines 320-327 of [decrypt_single_file]: [base_name] and
    [file_extension]; [None] is ValueError. *)
Definition series_name (is_decimal : Z -> bool) (image_filename : list Z)
    : option (list Z * list Z) :=
  match filename_match is_decimal image_filename with
  | Some (base_name, _, file_extension) => Some (base_name, file_extension)
  | None => None
  end.

(** Lines 320-327 and 376: the name of the file that [decrypt_single_file]
    writes for an image with the given file name. *)
Definition restored_filename (is_decimal : Z -> bool) (image_filename : list Z)
    : option (list Z) :=
  match series_name is_decimal image_filename with
  | Some (base_name, file_extension) => Some (output_filename base_name file_extension)
  | None => None
  end.

(** [os.path.basename]: what follows the last ['/'], with [acc] the
    characters since the last one seen. *)
Fixpoint after_last_slash (acc p : list Z) : list Z :=
  match p with
  | [] => acc
  | c :: p' => if c =? 47 then after_last_slash [] p' else after_last_slash (acc ++ [c]) p'
  end.

Definition basename (p : list Z) : list Z := after_last_slash [] p.

(** [fnmatch] for a pattern without ['[']: ['*'] (42) stands for any run of
    characters, also the empty one, ['?'] (63) for any one character, every
    other character for itself. *)
Fixpoint fnmatch (pat : list Z) : list Z -> bool :=
  match pat with
  | [] => fun name => match name with [] => true | _ :: _ => false end
  | c :: pat' =>
    if c =? 42 then
      fix star (name : list Z) : bool :=
        fnmatch pat' name || match name with [] => false | _ :: name' => star name' end
    else
      fun name =>
        match name with
        | [] => false
        | x :: name' => ((c =? 63) || (c =? x)) && fnmatch pat' name'
        end
  end.

(** A name that starts with a dot. *)
Definition ishidden (name : list Z) : bool :=
  match name with
  | c :: _ => c =? 46
  | [] => false
  end.

(** [glob] with the pattern [pat] in a directory whose entries are
    [listing]: hidden entries are left out unless the pattern is hidden. *)
Definition glob (listing : list (list Z)) (pat : list Z) : list (list Z) :=
  List.filter (fun name => (ishidden pat || negb (ishidden name)) && fnmatch pat name) listing.

(** Line 330: [f"{base_name}_*_{file_extension}.png"]. *)
Definition series_pattern (base_name file_extension : list Z) : list Z :=
  base_name ++ [95; 42; 95] ++ file_extension ++ png.

(** [a < b] on strings: by code points, a proper prefix first. *)
Fixpoint str_lt (a b : list Z) : bool :=
  match a, b with
  | _, [] => false
  | [], _ :: _ => true
  | x :: a', y :: b' => (x <? y) || ((x =? y) && str_lt a' b')
  end.

(** The order that [sorted] leaves between neighbours: the second is not
    less than the first. *)
Definition in_order (a b : list Z) : Prop := Is_true (negb (str_lt b a)).

(** [sorted(l)] on a list of strings. *)
Definition sorted (l : list (list Z)) : list (list Z) := merge_sort in_order l.

(** Lines 330-331: [sorted(glob(pattern))] in a directory with the entries
    [listing]; [directory] is what [os.path.join] puts before a name. *)
Definition matching_files (directory : list Z) (listing : list (list Z))
    (base_name file_extension : list Z) : list (list Z) :=
  sorted (map (app directory) (glob listing (series_pattern base_name file_extension))).



(** What a name that the pattern accepts looks like: the three groups, the
    separators and the end. *)
Definition accepted (is_decimal : Z -> bool) (s g1 g2 g3 : list Z) : Prop :=
  exists t,
    s = g1 ++ [95] ++ g2 ++ [95] ++ g3 ++ t /\
    g1 <> [] /\ ~ In 10 g1 /\
    length g2 = 3%nat /\ forallb is_decimal g2 = true /\
    g3 <> [] /\ forallb is_alnum g3 = true /\
    (t = png \/ t = png ++ [10]).

(** The ASCII digits, which every reading of [\d] contains. *)
Definition ascii_digit (c : Z) : bool := (48 <=? c) && (c <=? 57).

(** ** Directory mode of [decrypt_file] *)


(** [file_groups[base_name].append(png_file)] on a [defaultdict(list)]; the
    dict is the list of its items in insertion order. *)
Fixpoint dict_append (file_groups : list (list Z * list (list Z)))
    (base_name png_file : list Z) : list (list Z * list (list Z)) :=
  match file_groups with
  | [] => [(base_name, [png_file])]
  | (key, files) :: rest =>
    if decide (key = base_name) then (key, files ++ [png_file]) :: rest
    else (key, files) :: dict_append rest base_name png_file
  end.

(** Lines 487-488 and 491: the first group of the match on the file name
    of a path. *)
Definition series_base (is_decimal : Z -> bool) (png_file : list Z) : option (list Z) :=
  match filename_match is_decimal (basename png_file) with
  | Some (base_name, _, _) => Some base_name
  | None => None
  end.

(** Lines 484-494: the loop that fills [file_groups]. *)
Definition group_files (is_decimal : Z -> bool) (png_files : list (list Z))
    : list (list Z * list (list Z)) :=
  fold_left
    (fun file_groups png_file =>
       match series_base is_decimal png_file with
       | Some base_name => dict_append file_groups base_name png_file
       | None => file_groups
       end)
    png_files [].

(** Lines 509-511: the first arguments of the calls of
    [decrypt_single_file], in the order of the loop over
    [sorted(file_groups.items())].  The keys of a dict differ from each
    other, so the order of the items is the order of their keys. *)
Definition batch_calls (is_decimal : Z -> bool) (png_files : list (list Z))
    : list (list Z) :=
  map (fun item => hd [] (snd item))
      (merge_sort (fun a b => in_order (fst a) (fst b)) (group_files is_decimal png_files)).

(** The paths of a directory listing whose file name has a given base. *)
Definition has_base (is_decimal : Z -> bool) (base_name png_file : list Z) : bool :=
  bool_decide (series_base is_decimal png_file = Some base_name).

(** The digits that [str] and the format [03d] produce. *)
Definition is_ascii_digit (c : Z) : Prop := 48 <= c <= 57.

(** ** Vocabulary of the comparison with [Exact] *)

(** The least value of the scalar type. *)
Definition lowest (np : numpy) : Z :=
  match np with
  | NumPy1 => - 2 ^ 63
  | NumPy2 => 0
  end.

(** The number of values of the scalar type. *)
Definition modulus (np : numpy) : Z :=
  match np with
  | NumPy1 => 2 ^ 64
  | NumPy2 => 2 ^ 8
  end.

(** The state of [Exact] inside a state of [Decrypt]. *)
Definition exact_state (st : Decrypt.wstate) : Exact.wstate :=
  Exact.WState (Decrypt.bytes_written st) (Decrypt.out_file st) (Decrypt.pixels_read st).

(** What every step of the loops keeps between the state before and the
    state after: the output only grows, the counter is its length, a pixel
    read gives at most three bytes, the counter passes neither target, and
    the only exception is the one of the progress display, under NumPy 2. *)
Definition advances (np : numpy) (bytes_target total_bytes : Z)
    (st st' : Decrypt.wstate) : Prop :=
  (exists w,
     Decrypt.out_file st' = Decrypt.out_file st ++ w /\
     Decrypt.bytes_written st' = Decrypt.bytes_written st + len w /\
     len w <= 3 * (Decrypt.pixels_read st' - Decrypt.pixels_read st)) /\
  Decrypt.pixels_read st <= Decrypt.pixels_read st' /\
  Decrypt.bytes_written st' <=
    Z.max (Decrypt.bytes_written st) (Z.max bytes_target total_bytes) /\
  (Decrypt.raised st' = Decrypt.raised st \/
   Decrypt.raised st' = Some Decrypt.OverflowError) /\
  (np = NumPy1 -> Decrypt.raised st' = Decrypt.raised st).

(** How many pixels the loops can still read from a state. *)
Definition pending (bytes_target total_bytes extra_bits : Z) (st : Decrypt.wstate) : Z :=
  match Decrypt.raised st with
  | Some _ => 0
  | None =>
    (if Decrypt.bytes_written st <? bytes_target
     then (bytes_target - Decrypt.bytes_written st + 2) / 3 else 0)
    + (if (0 <? extra_bits)
          && (Z.max (Decrypt.bytes_written st) bytes_target <? total_bytes)
       then 1 else 0)
  end.

(** Both targets are reached: nothing more is read or written. *)
Definition targets_reached (bytes_target total_bytes extra_bits : Z) (st : Decrypt.wstate) : Prop :=
  bytes_target <= Decrypt.bytes_written st /\
  (extra_bits <= 0 \/ total_bytes <= Decrypt.bytes_written st).

(** What holds between two rows and between two images: the loops have
    stopped, or no more pixels are pending than [bound]. *)
Definition stops_or_pending (bytes_target total_bytes extra_bits bound : Z)
    (st : Decrypt.wstate) : Prop :=
  Decrypt.stops total_bytes st = true \/
  (Decrypt.raised st = None /\
   pending bytes_target total_bytes extra_bits st <= bound).

(** The payload pixels of the stream of [content] from image [k] (0-based)
    on. *)
Definition payload_from (content : list Z) (k : Z) : Z :=
  Z.max 0 (Encrypt.total_pixels_needed (len content)
           - Z.max 5 (k * Encrypt.max_pixels_per_image)).

(** The file of the twelve bytes 00 to 0B and the image that [encrypt_file]
    writes for it. *)
Definition twelve_bytes : list Z := [0; 1; 2; 3; 4; 5; 6; 7; 8; 9; 10; 11].

Definition twelve_byte_units : list Encrypt.image_unit :=
  Eval vm_compute in
    match Encrypt.encrypt_file twelve_bytes with
    | Some units => units
    | None => []
    end.

(** ** A series of 1000 images *)

(** The size of a file whose pixels fill 999 images and leave two pixels
    for image 1000. *)
Definition thousand_images_size : Z := 3 * (999 * 100000000 - 3).

(** The image numbers (0-based) of a series of 1000 images in the order of
    [sorted(glob(pattern))]: the name of image 1000 sorts between the
    names of images 099 and 100. *)
Definition read_order_1000 : list Z := zrange 0 99 ++ [999] ++ zrange 99 900.

(** A series of 1000 images, given in the order of writing, in the order
    of reading. *)
Definition in_read_order (files : list ndarray) : list ndarray :=
  take 99 files ++ drop 999 files ++ take 900 (drop 99 files).

(** A series with the padding cells of image 1000 painted black. *)
Definition black_padding (files : list ndarray) : list ndarray :=
  take 999 files ++ map (repaint 2) (drop 999 files).

(** ** Arithmetic of the ceilings *)

Lemma ceil_div_bounds a b :
  0 < b -> (ceil_div a b - 1) * b < a <= ceil_div a b * b.
Proof.
  intros Hb. unfold ceil_div.
  pose proof (Z.div_mod a b ltac:(lia)) as Hdm.
  pose proof (Z.mod_pos_bound a b Hb) as Hm.
  destruct (Z.eqb_spec (a mod b) 0); nia.
Qed.

Lemma ceil_div_unique a b k :
  0 < b -> (k - 1) * b < a <= k * b -> ceil_div a b = k.
Proof.
  intros Hb Hk. pose proof (ceil_div_bounds a b Hb). nia.
Qed.

Lemma ceil_sqrt_bounds n :
  0 <= n ->
  0 <= ceil_sqrt n /\ n <= ceil_sqrt n * ceil_sqrt n /\
  (0 < n -> (ceil_sqrt n - 1) * (ceil_sqrt n - 1) < n).
Proof.
  intros Hn. unfold ceil_sqrt.
  pose proof (Z.sqrt_spec n Hn) as Hs. cbv zeta in Hs.
  pose proof (Z.sqrt_nonneg n).
  destruct (Z.eqb_spec (Z.sqrt n * Z.sqrt n) n); nia.
Qed.

Lemma ceil_sqrt_square s : 0 <= s -> ceil_sqrt (s * s) = s.
Proof.
  intros Hs. unfold ceil_sqrt. rewrite Z.sqrt_square by lia.
  now rewrite Z.eqb_refl.
Qed.

Lemma ceil_sqrt_pos n : 0 < n -> 0 < ceil_sqrt n.
Proof. intros Hn. pose proof (ceil_sqrt_bounds n ltac:(lia)). nia. Qed.

(** ** Ranges and lengths *)

Lemma len_nil {A} : len (@nil A) = 0.
Proof. reflexivity. Qed.

Lemma len_cons {A} (x : A) l : len (x :: l) = len l + 1.
Proof. unfold len. simpl length. lia. Qed.

Lemma len_app {A} (l1 l2 : list A) : len (l1 ++ l2) = len l1 + len l2.
Proof. unfold len. rewrite length_app. lia. Qed.

Lemma len_nonneg {A} (l : list A) : 0 <= len l.
Proof. unfold len. lia. Qed.

Lemma zrange_length start n : length (zrange start n) = n.
Proof. revert start. induction n; intros; simpl; auto. Qed.

Lemma zrange_app start n m :
  zrange start (n + m) = zrange start n ++ zrange (start + Z.of_nat n) m.
Proof.
  revert start. induction n as [|n IH]; intros start.
  - simpl. f_equal. lia.
  - cbn [Nat.add zrange app]. rewrite IH. do 3 f_equal. lia.
Qed.

Lemma zrange_in start n x : In x (zrange start n) <-> start <= x < start + Z.of_nat n.
Proof.
  revert start. induction n as [|n IH]; intros start; simpl.
  - lia.
  - rewrite IH. lia.
Qed.

(** ** Header codec *)

Lemma uint8_id c : is_uint8 c -> uint8 c = c.
Proof. intros H. unfold uint8. apply Z.mod_small. exact H. Qed.

Lemma uint8_pixel_id p : is_uint8_pixel p -> uint8_pixel p = p.
Proof.
  destruct p as [r g b]. intros (Hr & Hg & Hb). unfold uint8_pixel. cbn in *.
  now rewrite !uint8_id.
Qed.

Lemma land_255 x : Z.land x 255 = x mod 256.
Proof. change 255 with (Z.ones 8). now rewrite Z.land_ones by lia. Qed.

Lemma land_255_uint8 x : is_uint8 (Z.land x 255).
Proof. rewrite land_255. unfold is_uint8. apply Z.mod_pos_bound. lia. Qed.

Lemma shift_or_byte acc b :
  is_uint8 b -> Z.lor (Z.shiftl acc 8) b = acc * 256 + b.
Proof.
  intros Hb. rewrite <- Z.add_nocarry_lor.
  - rewrite Z.shiftl_mul_pow2 by lia. reflexivity.
  - apply Z.bits_inj'. intros i Hi. rewrite Z.land_spec, Z.bits_0.
    destruct (Z.ltb_spec i 8).
    + rewrite Z.shiftl_spec_low by lia. reflexivity.
    + rewrite andb_comm. replace b with (b mod 2 ^ 8).
      * rewrite Z.mod_pow2_bits_high by lia. reflexivity.
      * apply Z.mod_small. exact Hb.
Qed.

Lemma be_fold_low_bytes n x :
  0 <= x -> Exact.be_fold (rev (low_bytes n x)) = x mod 2 ^ (8 * Z.of_nat n).
Proof.
  unfold Exact.be_fold. revert x. induction n as [|n IH]; intros x Hx.
  - simpl. now rewrite Z.mod_1_r.
  - cbn [low_bytes rev]. rewrite fold_left_app. cbn [fold_left].
    rewrite IH by (rewrite Z.shiftr_div_pow2 by lia; apply Z.div_pos; lia).
    rewrite shift_or_byte by apply land_255_uint8.
    rewrite land_255, Z.shiftr_div_pow2 by lia.
    replace (8 * Z.of_nat (S n)) with (8 + 8 * Z.of_nat n) by lia.
    rewrite Z.pow_add_r by lia. change (2 ^ 8) with 256.
    rewrite (Z.rem_mul_r x 256 (2 ^ (8 * Z.of_nat n))) by lia. lia.
Qed.

Lemma header_length_bytes cp eb :
  flat_map channels (take 4 (create_header_pixels cp eb)) = rev (low_bytes 12 cp).
Proof.
  cbv [create_header_pixels low_bytes rev app seq map nth Nat.mul Nat.add
       take flat_map channels red green blue].
  reflexivity.
Qed.

Lemma decode_create_header cp eb :
  0 <= cp < 2 ^ 96 -> Exact.decode_header (create_header_pixels cp eb) = (cp, eb).
Proof.
  intros Hcp. unfold Exact.decode_header. rewrite header_length_bytes.
  rewrite be_fold_low_bytes by lia.
  change (8 * Z.of_nat 12) with 96. rewrite Z.mod_small by lia. reflexivity.
Qed.

Lemma create_header_length cp eb : length (create_header_pixels cp eb) = 5%nat.
Proof. reflexivity. Qed.

Lemma create_header_uint8 cp eb :
  is_uint8 eb -> Forall is_uint8_pixel (create_header_pixels cp eb).
Proof.
  intros Heb. unfold create_header_pixels.
  cbv [low_bytes rev app seq map nth Nat.mul Nat.add].
  repeat (apply List.Forall_cons; [unfold is_uint8_pixel; cbn [red green blue] |]);
    [.. | apply List.Forall_nil];
    (split; [|split]); try apply land_255_uint8; try apply Heb; unfold is_uint8; lia.
Qed.

(** ** Raster layout *)

Lemma divmod_cell idx size r c :
  0 < size -> 0 <= c < size ->
  (r =? idx / size) && (c =? idx mod size) = (r * size + c =? idx).
Proof.
  intros Hs Hc.
  pose proof (Z.div_mod idx size ltac:(lia)) as Hdm.
  pose proof (Z.mod_pos_bound idx size Hs) as Hm.
  destruct (Z.eqb_spec (r * size + c) idx) as [He|Hne].
  - assert (idx / size = r) as ->
      by (symmetry; apply (Z.div_unique idx size r c); lia).
    assert (idx mod size = c) as ->
      by (symmetry; apply (Z.mod_unique idx size r c); lia).
    now rewrite !Z.eqb_refl.
  - destruct (Z.eqb_spec r (idx / size)); [|reflexivity].
    destruct (Z.eqb_spec c (idx mod size)); [|reflexivity].
    subst. exfalso. apply Hne. lia.
Qed.

Lemma cell_cells a row col :
  0 <= col < width a -> cell a (row * width a + col) = cells a row col.
Proof.
  intros Hc. unfold cell.
  rewrite <- (Z.div_unique (row * width a + col) (width a) row col) by lia.
  rewrite <- (Z.mod_unique (row * width a + col) (width a) row col) by lia.
  reflexivity.
Qed.

Lemma fill_spec size :
  0 < size ->
  forall pixels idx a,
    0 <= idx -> idx + len pixels <= size * size ->
    height a = size -> width a = size ->
    exists a',
      Encrypt.fill size idx pixels a = Some a' /\
      height a' = size /\ width a' = size /\
      forall r c, 0 <= c < size ->
        cells a' r c =
          if (idx <=? r * size + c) && (r * size + c <? idx + len pixels)
          then uint8_pixel (nth (Z.to_nat (r * size + c - idx)) pixels white)
          else cells a r c.
Proof.
  intros Hs. induction pixels as [|p rest IH]; intros idx a Hidx Hfit Hh Hw.
  - exists a. cbn [Encrypt.fill]. repeat split; auto.
    intros r c Hc. rewrite len_nil.
    destruct (Z.leb_spec idx (r * size + c)), (Z.ltb_spec (r * size + c) (idx + 0));
      cbn; auto; lia.
  - rewrite len_cons in Hfit. pose proof (len_nonneg rest) as Hlen.
    cbn [Encrypt.fill]. unfold setitem, in_shape. rewrite Hh, Hw.
    pose proof (Z.mod_pos_bound idx size Hs) as Hm.
    assert (0 <= idx / size < size) as Hd.
    { split; [apply Z.div_pos; lia | apply Z.div_lt_upper_bound; lia]. }
    replace ((0 <=? idx / size) && (idx / size <? size) && (0 <=? idx mod size)
             && (idx mod size <? size)) with true
      by (symmetry; rewrite !andb_true_iff, !Z.leb_le, !Z.ltb_lt; lia).
    match goal with |- context [Encrypt.fill _ _ _ ?a1] =>
      destruct (IH (idx + 1) a1 ltac:(lia) ltac:(lia) eq_refl eq_refl)
        as (a' & Hfill & Hh' & Hw' & Hcells) end.
    exists a'. repeat split; auto.
    intros r c Hc. rewrite (Hcells r c Hc). cbn [cells].
    rewrite (divmod_cell idx size r c Hs Hc), len_cons.
    destruct (Z.eqb_spec (r * size + c) idx) as [He|Hne].
    + rewrite He, Z.sub_diag.
      destruct (Z.leb_spec (idx + 1) idx); [lia|].
      destruct (Z.leb_spec idx idx); [|lia].
      destruct (Z.ltb_spec idx (idx + (len rest + 1))); [|lia].
      reflexivity.
    + destruct (Z.leb_spec (idx + 1) (r * size + c)),
               (Z.leb_spec idx (r * size + c)); try lia;
        destruct (Z.ltb_spec (r * size + c) (idx + 1 + len rest)),
                 (Z.ltb_spec (r * size + c) (idx + (len rest + 1))); try lia;
        cbn [andb]; auto.
      replace (Z.to_nat (r * size + c - idx))
        with (S (Z.to_nat (r * size + c - (idx + 1)))) by lia.
      reflexivity.
Qed.

(** The raster never raises, is square of side [ceil_sqrt n], holds pixel
    [i] at raster position [i] and white everywhere else. *)
Lemma raster_spec pixels :
  let size := ceil_sqrt (len pixels) in
  exists arr,
    Encrypt.raster pixels = Some arr /\
    height arr = size /\ width arr = size /\
    forall r c, 0 <= c < size ->
      cells arr r c =
        if (0 <=? r * size + c) && (r * size + c <? len pixels)
        then uint8_pixel (nth (Z.to_nat (r * size + c)) pixels white)
        else white.
Proof.
  intros size. unfold Encrypt.raster. fold size.
  pose proof (len_nonneg pixels) as Hn.
  pose proof (ceil_sqrt_bounds (len pixels) Hn) as (Hs0 & Hfit & _). fold size in Hs0, Hfit.
  destruct (Z.eq_dec size 0) as [Hz|Hnz].
  - assert (len pixels = 0) as Hl by nia.
    destruct pixels; [|rewrite len_cons in Hl; pose proof (len_nonneg pixels); lia].
    exists (full size size white). cbn [Encrypt.fill]. repeat split; auto.
    intros r c Hc. lia.
  - destruct (fill_spec size ltac:(lia) pixels 0 (full size size white)
                ltac:(lia) ltac:(lia) eq_refl eq_refl)
      as (arr & Hfill & Hh & Hw & Hcells).
    exists arr. repeat split; auto.
    intros r c Hc. rewrite (Hcells r c Hc), Z.sub_0_r, Z.add_0_l. reflexivity.
Qed.

Lemma raster_cell pixels arr i :
  Encrypt.raster pixels = Some arr ->
  0 <= i < ceil_sqrt (len pixels) * ceil_sqrt (len pixels) ->
  cell arr i =
    if i <? len pixels then uint8_pixel (nth (Z.to_nat i) pixels white) else white.
Proof.
  intros Hr Hi. destruct (raster_spec pixels) as (arr' & Hr' & Hh & Hw & Hcells).
  rewrite Hr in Hr'. injection Hr' as <-.
  pose proof (ceil_sqrt_bounds (len pixels) (len_nonneg pixels)) as (Hs0 & _).
  set (size := ceil_sqrt (len pixels)) in *.
  assert (0 < size) as Hs by nia.
  unfold cell. rewrite Hw.
  pose proof (Z.mod_pos_bound i size Hs) as Hm.
  pose proof (Z.div_mod i size ltac:(lia)) as Hdm.
  rewrite (Hcells _ _ Hm).
  replace (i / size * size + i mod size) with i by lia.
  destruct (Z.leb_spec 0 i); [|lia]. reflexivity.
Qed.

(** ** Byte/pixel packer *)

Lemma list_ind3 {A} (P : list A -> Prop) :
  P [] -> (forall a, P [a]) -> (forall a b, P [a; b]) ->
  (forall a b c l, P l -> P (a :: b :: c :: l)) ->
  forall l, P l.
Proof.
  intros H0 H1 H2 H3.
  fix IH 1. intros [|a [|b [|c l]]];
    [apply H0 | apply H1 | apply H2 | apply H3, IH].
Qed.

Lemma bytes_to_pixels_len l : len (Encrypt.bytes_to_pixels l) = ceil_div (len l) 3.
Proof.
  induction l as [| a | a b | a b c l IH] using list_ind3; try reflexivity.
  cbn [Encrypt.bytes_to_pixels]. rewrite !len_cons, IH.
  pose proof (len_nonneg l).
  symmetry. apply ceil_div_unique; [lia|].
  pose proof (ceil_div_bounds (len l) 3 ltac:(lia)). lia.
Qed.

Lemma bytes_to_pixels_take j l :
  Encrypt.bytes_to_pixels (take (j * 3) l) = take j (Encrypt.bytes_to_pixels l).
Proof.
  revert l. induction j as [|j IH]; intros l; [reflexivity|].
  destruct l as [|a [|b [|c l]]];
    cbn [Nat.mul Nat.add take Encrypt.bytes_to_pixels];
    rewrite ?take_nil, <- ?IH; reflexivity.
Qed.

Lemma bytes_to_pixels_drop j l :
  Encrypt.bytes_to_pixels (drop (j * 3) l) = drop j (Encrypt.bytes_to_pixels l).
Proof.
  revert l. induction j as [|j IH]; intros l; [reflexivity|].
  destruct l as [|a [|b [|c l]]];
    cbn [Nat.mul Nat.add drop Encrypt.bytes_to_pixels];
    rewrite ?drop_nil, <- ?IH; reflexivity.
Qed.

Lemma bytes_to_pixels_uint8 l :
  Forall is_uint8 l -> Forall is_uint8_pixel (Encrypt.bytes_to_pixels l).
Proof.
  assert (is_uint8 0) as H0 by (unfold is_uint8; lia).
  induction l as [| a | a b | a b c l IH] using list_ind3; intros Hl;
    cbn [Encrypt.bytes_to_pixels];
    repeat match goal with
           | H : Forall _ (_ :: _) |- _ => apply Forall_cons_1 in H; destruct H
           end;
    repeat (apply List.Forall_cons; [unfold is_uint8_pixel; cbn; auto|]);
    auto.
Qed.

(** ** The chunked read is one read of [bytes_to_read] bytes *)

Lemma read_loop_spec fuel bytes_to_read chunk_size :
  0 < chunk_size ->
  forall chunk_bytes f,
    bytes_to_read - len chunk_bytes <= Z.of_nat fuel ->
    Encrypt.read_loop fuel bytes_to_read chunk_size chunk_bytes f =
      (chunk_bytes ++ take (Z.to_nat (bytes_to_read - len chunk_bytes)) f,
       drop (Z.to_nat (bytes_to_read - len chunk_bytes)) f).
Proof.
  intros Hcs. induction fuel as [|fuel IH]; intros acc f Hfuel.
  - cbn. replace (Z.to_nat _) with 0%nat by lia. cbn. now rewrite app_nil_r.
  - cbn [Encrypt.read_loop].
    destruct (Z.ltb_spec (len acc) bytes_to_read) as [Hlt|Hge].
    2:{ replace (Z.to_nat _) with 0%nat by lia. cbn. now rewrite app_nil_r. }
    set (remaining := bytes_to_read - len acc) in *.
    set (read_size := Z.min chunk_size remaining).
    assert (0 < read_size <= remaining) as Hrs by lia.
    destruct (take (Z.to_nat read_size) f) as [|x data] eqn:Hdata.
    + destruct f as [|y f].
      * now rewrite take_nil, drop_nil, app_nil_r.
      * destruct (Z.to_nat read_size) eqn:E; [lia|]. discriminate.
    + rewrite <- Hdata. rewrite IH.
      2:{ rewrite len_app, Hdata, len_cons. pose proof (len_nonneg data). lia. }
      rewrite len_app.
      assert (length (take (Z.to_nat read_size) f)
              = Nat.min (Z.to_nat read_size) (length f)) as Hlen
        by apply length_take.
      destruct (Nat.le_gt_cases (Z.to_nat read_size) (length f)) as [Hle|Hgt].
      * assert (len (take (Z.to_nat read_size) f) = read_size) as ->
          by (unfold len; lia).
        replace (Z.to_nat remaining)
          with (Z.to_nat read_size + Z.to_nat (remaining - read_size))%nat by lia.
        rewrite <- app_assoc, take_take_drop, drop_drop.
        replace (bytes_to_read - (len acc + read_size)) with (remaining - read_size)
          by (unfold remaining; lia).
        reflexivity.
      * rewrite (take_ge f (Z.to_nat read_size)) by lia.
        rewrite (drop_ge f (Z.to_nat read_size)) by lia.
        rewrite take_nil, drop_nil, app_nil_r.
        rewrite (take_ge f (Z.to_nat remaining)) by lia.
        rewrite (drop_ge f (Z.to_nat remaining)) by lia.
        reflexivity.
Qed.

Lemma read_chunk_spec bytes_to_read f :
  Encrypt.read_chunk bytes_to_read f =
    (take (Z.to_nat bytes_to_read) f, drop (Z.to_nat bytes_to_read) f).
Proof.
  unfold Encrypt.read_chunk.
  destruct (Z.le_gt_cases bytes_to_read 0) as [Hle|Hgt].
  - replace (Z.to_nat bytes_to_read) with 0%nat by lia. reflexivity.
  - rewrite read_loop_spec; rewrite ?len_nil; try lia.
    rewrite Z.sub_0_r. reflexivity.
Qed.

(** ** Encoder metadata *)

Lemma metadata_div3 n :
  Encrypt.complete_pixels n = n / 3 /\ Encrypt.extra_bits n = 8 * (n mod 3).
Proof.
  unfold Encrypt.complete_pixels, Encrypt.extra_bits, Encrypt.total_bits.
  pose proof (Z.div_mod n 3 ltac:(lia)) as Hdm.
  pose proof (Z.mod_pos_bound n 3 ltac:(lia)) as Hm.
  split.
  - symmetry. apply (Z.div_unique (n * 8) 24 (n / 3) (8 * (n mod 3))); lia.
  - symmetry. apply (Z.mod_unique (n * 8) 24 (n / 3) (8 * (n mod 3))); lia.
Qed.

Lemma extra_bits_values n :
  Encrypt.extra_bits n = 0 \/ Encrypt.extra_bits n = 8 \/ Encrypt.extra_bits n = 16.
Proof.
  destruct (metadata_div3 n) as (_ & ->).
  pose proof (Z.mod_pos_bound n 3 ltac:(lia)). lia.
Qed.

Lemma extra_bytes n :
  ceil_div (Encrypt.extra_bits n) 8 = n mod 3.
Proof.
  destruct (metadata_div3 n) as (_ & ->).
  pose proof (Z.mod_pos_bound n 3 ltac:(lia)).
  apply ceil_div_unique; lia.
Qed.

Lemma data_pixels_ceil n : Encrypt.data_pixels n = ceil_div n 3.
Proof.
  unfold Encrypt.data_pixels. destruct (metadata_div3 n) as (-> & ->).
  pose proof (Z.div_mod n 3 ltac:(lia)) as Hdm.
  pose proof (Z.mod_pos_bound n 3 ltac:(lia)) as Hm.
  symmetry. apply ceil_div_unique; [lia|].
  destruct (Z.ltb_spec 0 (8 * (n mod 3))); lia.
Qed.

(** The facts about the partition that the loop proofs use, for a file of
    [n >= 0] bytes: [K] images, [T] pixels, [M] pixels per image. *)
Lemma partition_facts n :
  0 <= n -> exact_count n ->
  let cp := Encrypt.complete_pixels n in
  let eb := Encrypt.extra_bits n in
  let D := Encrypt.data_pixels n in
  let T := Encrypt.total_pixels_needed n in
  let K := Encrypt.num_images n in
  let M := Encrypt.max_pixels_per_image in
  0 <= cp /\ n = 3 * cp + n mod 3 /\ 0 <= n mod 3 < 3 /\ eb = 8 * (n mod 3) /\
  (n mod 3 = 0 /\ D = cp \/ 0 < n mod 3 /\ D = cp + 1) /\ T = 5 + D /\
  1 <= K /\ (K - 1) * M < T <= K * M /\ M = 100000000.
Proof.
  intros Hn Hq cp eb D T K M.
  destruct (metadata_div3 n) as (Hcp & Heb). fold cp in Hcp. fold eb in Heb.
  pose proof (Z.div_mod n 3 ltac:(lia)) as Hdm.
  pose proof (Z.mod_pos_bound n 3 ltac:(lia)) as Hm.
  assert (0 <= cp) by (rewrite Hcp; apply Z.div_pos; lia).
  assert (n mod 3 = 0 /\ D = cp \/ 0 < n mod 3 /\ D = cp + 1) as HD.
  { unfold D, Encrypt.data_pixels. fold cp eb. rewrite Heb.
    destruct (Z.ltb_spec 0 (8 * (n mod 3))); lia. }
  assert (T = 5 + D) as HT by reflexivity.
  assert (M = 100000000) as HM by reflexivity.
  pose proof (ceil_div_bounds T M ltac:(lia)) as HK.
  unfold exact_count in Hq. fold T M K in Hq. rewrite <- Hq in HK.
  clearbody cp eb D T K M. subst M.
  repeat split; lia.
Qed.

Lemma pixel_stream_len content :
  len (pixel_stream content) = Encrypt.total_pixels_needed (len content).
Proof.
  unfold pixel_stream. rewrite len_app, bytes_to_pixels_len.
  unfold Encrypt.total_pixels_needed. rewrite data_pixels_ceil. reflexivity.
Qed.

Lemma pixels_in_image_spec n k :
  0 <= n -> exact_count n -> 0 <= k < Encrypt.num_images n ->
  Encrypt.pixels_in_image n k =
    Z.min Encrypt.max_pixels_per_image
          (Encrypt.total_pixels_needed n - k * Encrypt.max_pixels_per_image).
Proof.
  intros Hn Hq Hk. pose proof (partition_facts n Hn Hq) as F. cbv zeta in F.
  unfold Encrypt.pixels_in_image, Encrypt.header_pixels.
  destruct (Z.eqb_spec k 0); lia.
Qed.

Lemma build_pixels_spec content k :
  exact_count (len content) ->
  0 <= k < Encrypt.num_images (len content) ->
  Encrypt.build_pixels (len content) k (drop (consumed_before k) content) =
    (spec_pixels content k, drop (consumed_before (k + 1)) content).
Proof.
  intros Hq Hk. pose proof (len_nonneg content) as Hn.
  set (n := len content) in *.
  pose proof (partition_facts n Hn Hq) as F. cbv zeta in F.
  destruct F as (Hcp & Hn3 & Hr & Heb & HD & HT & HK1 & HK & HM).
  pose proof (extra_bytes n) as Hxb.
  pose proof (pixels_in_image_spec n k Hn Hq Hk) as Hpix.
  unfold Encrypt.build_pixels. rewrite read_chunk_spec.
  unfold spec_pixels, pixel_stream. fold n.
  set (hdr := create_header_pixels (Encrypt.complete_pixels n) (Encrypt.extra_bits n)).
  assert (length hdr = 5%nat) as Hhdr by reflexivity.
  assert (length content = Z.to_nat n) as Hlen by (unfold n, len; lia).
  assert (len (Encrypt.bytes_to_pixels content) = Encrypt.data_pixels n) as HlenP
    by (rewrite bytes_to_pixels_len, data_pixels_ceil; reflexivity).
  set (btr := Encrypt.bytes_to_read n k).
  unfold consumed_before.
  rewrite HM in *.
  destruct (Z.eqb_spec k (Encrypt.num_images n - 1)) as [Hlast|Hnot].
  - (* the last image takes all the remaining bytes *)
    assert (btr = n - Z.max 0 (3 * (k * 100000000 - 5))) as Hbtr.
    { unfold btr, Encrypt.bytes_to_read, Encrypt.data_pixels_in_image.
      rewrite Hpix, Hxb. unfold Encrypt.header_pixels.
      destruct (Z.eqb_spec k (Encrypt.num_images n - 1)); [|lia].
      rewrite Heb in *. cbn [andb].
      destruct (Z.ltb_spec 0 (8 * (n mod 3))), (Z.eqb_spec k 0); lia. }
    rewrite take_ge by (rewrite length_drop; lia).
    rewrite (drop_ge _ (Z.to_nat btr)) by (rewrite length_drop; lia).
    rewrite (drop_ge content (Z.to_nat (3 * ((k + 1) * _ - 5)))) by lia.
    f_equal.
    rewrite take_ge.
    2:{ rewrite length_drop, length_app, Hhdr.
        unfold len in HlenP. lia. }
    destruct (Z.eqb_spec k 0) as [->|Hk0].
    + change (0 * 100000000) with 0.
      replace (Z.to_nat (3 * (0 - 5))) with 0%nat by lia.
      change (Z.to_nat 0) with 0%nat. rewrite !drop_0. reflexivity.
    + cbn [app].
      replace (Z.to_nat (k * 100000000))
        with (length hdr + Z.to_nat (k * 100000000 - 5))%nat by lia.
      rewrite drop_app_add.
      replace (Z.to_nat (3 * (k * 100000000 - 5)))
        with (Z.to_nat (k * 100000000 - 5) * 3)%nat by lia.
      apply bytes_to_pixels_drop.
  - (* a full image of M pixels *)
    assert (btr = Encrypt.data_pixels_in_image n k * 3) as Hbtr.
    { unfold btr, Encrypt.bytes_to_read.
      destruct (Z.eqb_spec k (Encrypt.num_images n - 1)); [lia|]. reflexivity. }
    unfold Encrypt.data_pixels_in_image, Encrypt.header_pixels in Hbtr.
    rewrite Hpix in Hbtr.
    destruct (Z.eqb_spec k 0) as [->|Hk0].
    + replace (Z.to_nat (3 * (0 * 100000000 - 5))) with 0%nat by lia.
      change (0 * 100000000) with 0.
      change (Z.to_nat 0) with 0%nat. rewrite !drop_0. f_equal.
      * replace (Z.to_nat 100000000)
          with (length hdr + Z.to_nat (100000000 - 5))%nat by lia.
        rewrite take_app_add. f_equal.
        replace (Z.to_nat btr)
          with (Z.to_nat (100000000 - 5) * 3)%nat by lia.
        apply bytes_to_pixels_take.
      * f_equal. lia.
    + cbn [app]. rewrite drop_drop. f_equal.
      * replace (Z.to_nat (k * 100000000))
          with (length hdr + Z.to_nat (k * 100000000 - 5))%nat by lia.
        rewrite drop_app_add.
        replace (Z.to_nat btr) with (Z.to_nat 100000000 * 3)%nat by lia.
        rewrite bytes_to_pixels_take. f_equal.
        replace (Z.to_nat (3 * (k * 100000000 - 5)))
          with (Z.to_nat (k * 100000000 - 5) * 3)%nat by lia.
        apply bytes_to_pixels_drop.
      * f_equal. lia.
Qed.

(** ** The image loop of the encoder *)

Lemma image_loop_spec content m :
  exact_count (len content) ->
  forall k,
    0 <= k -> k + Z.of_nat m = Encrypt.num_images (len content) ->
    exists units,
      Encrypt.image_loop (len content) (zrange k m) (drop (consumed_before k) content)
        = Some units /\
      Forall2 (unit_spec content) (zrange k m) units.
Proof.
  intros Hq. induction m as [|m IH]; intros k Hk0 Hk.
  - exists []. split; [reflexivity | constructor].
  - cbn [zrange Encrypt.image_loop].
    rewrite build_pixels_spec by (auto; lia).
    destruct (raster_spec (spec_pixels content k)) as (arr & Hr & _).
    rewrite Hr.
    destruct (IH (k + 1) ltac:(lia) ltac:(lia)) as (units & Hloop & Hunits).
    rewrite Hloop.
    exists (Encrypt.ImageUnit (spec_pixels content k) arr :: units).
    split; [reflexivity|]. constructor; [|exact Hunits].
    split; [reflexivity | exact Hr].
Qed.

(** [encrypt_file] never raises and produces the slices of the stream. *)
Lemma encrypt_file_spec content :
  exact_count (len content) ->
  exists units,
    Encrypt.encrypt_file content = Some units /\
    Forall2 (unit_spec content)
      (zrange 0 (Z.to_nat (Encrypt.num_images (len content)))) units.
Proof.
  intros Hq. unfold Encrypt.encrypt_file, range.
  pose proof (partition_facts (len content) (len_nonneg content) Hq) as F. cbv zeta in F.
  destruct (image_loop_spec content (Z.to_nat (Encrypt.num_images (len content))) Hq 0
              ltac:(lia) ltac:(lia)) as (units & Hloop & Hunits).
  exists units. split; [|exact Hunits].
  rewrite <- Hloop. reflexivity.
Qed.

Lemma spec_pixels_len content k :
  exact_count (len content) ->
  0 <= k < Encrypt.num_images (len content) ->
  len (spec_pixels content k) =
    Z.min Encrypt.max_pixels_per_image
      (Encrypt.total_pixels_needed (len content) - k * Encrypt.max_pixels_per_image).
Proof.
  intros Hq Hk.
  pose proof (partition_facts (len content) (len_nonneg content) Hq) as F. cbv zeta in F.
  pose proof (pixel_stream_len content) as HP.
  unfold spec_pixels, len in *. rewrite length_take, length_drop. lia.
Qed.

(** ** Decoder: the loops as one fold over the raster cells *)

Section Linear.
Variables cp eb : Z.

Lemma target_le_total : Exact.bytes_target cp <= Exact.total_bytes cp eb.
Proof.
  unfold Exact.bytes_target, Exact.total_bytes.
  destruct (Z.ltb_spec 0 eb); [|lia].
  pose proof (ceil_div_bounds eb 8 ltac:(lia)). lia.
Qed.

Lemma step_stable st p :
  Exact.total_bytes cp eb <= Exact.bytes_written st -> step cp eb st p = st.
Proof.
  intros Hdone. pose proof target_le_total. unfold step.
  destruct (Z.leb_spec (Exact.bytes_target cp) (Exact.bytes_written st)); [|lia].
  unfold Exact.write_extra.
  destruct (Z.ltb_spec (Exact.bytes_written st) (Exact.total_bytes cp eb)); [lia|].
  now rewrite andb_false_r.
Qed.

Lemma fold_step_stable l st :
  Exact.total_bytes cp eb <= Exact.bytes_written st -> fold_left (step cp eb) l st = st.
Proof.
  intros Hdone. induction l as [|p l IH]; [reflexivity|].
  cbn [fold_left]. now rewrite step_stable.
Qed.

Lemma fold_stepi_stable a start l st :
  Exact.total_bytes cp eb <= Exact.bytes_written st ->
  fold_left (stepi cp eb a start) l st = st.
Proof.
  intros Hdone. induction l as [|k l IH]; [reflexivity|].
  cbn [fold_left]. unfold stepi at 2.
  destruct (k <? start); [exact IH|]. now rewrite step_stable.
Qed.

(** With at most three residual bytes, the residual pixel completes the file. *)
Lemma write_extra_completes st p :
  eb <= 24 ->
  Exact.bytes_target cp <= Exact.bytes_written st ->
  Exact.total_bytes cp eb <= Exact.bytes_written (Exact.write_extra cp eb st p).
Proof.
  intros Heb Hst. unfold Exact.write_extra.
  assert (Exact.total_bytes cp eb =
          Exact.bytes_target cp + (if 0 <? eb then ceil_div eb 8 else 0)) as Ht
    by reflexivity.
  destruct (Z.ltb_spec 0 eb) as [Hpos|Hnp]; cbn [andb].
  2:{ lia. }
  pose proof (ceil_div_bounds eb 8 ltac:(lia)) as Hc.
  set (needed := ceil_div eb 8) in *.
  set (total := Exact.total_bytes cp eb) in *.
  destruct (Z.ltb_spec (Exact.bytes_written st) total) as [Hlt|Hge]; [|lia].
  unfold Exact.read_pixel, Exact.write. cbn [Exact.bytes_written].
  rewrite (proj2 (Z.ltb_lt _ _) Hlt). cbn [Exact.bytes_written].
  destruct (Z.ltb_spec (Exact.bytes_written st + 1) total),
           (Z.ltb_spec 1 needed); cbn [andb Exact.bytes_written];
    try (destruct (Z.ltb_spec (Exact.bytes_written st + 1 + 1) total),
                  (Z.ltb_spec 2 needed); cbn [andb Exact.bytes_written]);
    try (destruct (Z.ltb_spec (Exact.bytes_written st + 1) total),
                  (Z.ltb_spec 2 needed); cbn [andb Exact.bytes_written]);
    lia.
Qed.

Section OneImage.
Variable a : ndarray.
Variable start : Z.
Hypothesis Heb : eb <= 24.

Lemma col_loop_linear row n :
  forall c st,
    0 <= c -> c + Z.of_nat n = width a ->
    Exact.col_loop cp eb a start row (zrange c n) st =
      fold_left (stepi cp eb a start) (zrange (row * width a + c) n) st.
Proof.
  induction n as [|n IH]; intros c st Hc Hw; [reflexivity|].
  cbn [zrange Exact.col_loop fold_left]. unfold stepi at 2.
  destruct (row * width a + c <? start).
  - rewrite IH by lia. now rewrite Z.add_assoc.
  - unfold step. rewrite cell_cells by lia.
    destruct (Z.leb_spec (Exact.bytes_target cp) (Exact.bytes_written st)).
    + rewrite fold_stepi_stable; [reflexivity|].
      now apply write_extra_completes.
    + rewrite IH by lia. now rewrite Z.add_assoc.
Qed.

Lemma row_loop_linear m :
  forall r st,
    0 <= width a ->
    Exact.row_loop cp eb a start (zrange r m) st =
      fold_left (stepi cp eb a start)
        (zrange (r * width a) (m * Z.to_nat (width a))) st.
Proof.
  induction m as [|m IH]; intros r st Hw; [reflexivity|].
  cbn [zrange Exact.row_loop]. unfold range.
  rewrite col_loop_linear by lia.
  cbn [Nat.mul]. rewrite zrange_app, fold_left_app, Z.add_0_r.
  set (st1 := fold_left (stepi cp eb a start) (zrange (r * width a) _) st).
  destruct (Z.leb_spec (Exact.total_bytes cp eb) (Exact.bytes_written st1)).
  - now rewrite fold_stepi_stable.
  - rewrite IH by lia. do 2 f_equal. lia.
Qed.
End OneImage.
End Linear.

Section LinearSeries.
Variables cp eb : Z.
Hypothesis Heb : eb <= 24.

Lemma fold_stepi_cells a start N :
  forall i st,
    fold_left (stepi cp eb a start) (zrange i N) st =
      fold_left (step cp eb)
        (map (cell a) (drop (Z.to_nat (start - i)) (zrange i N))) st.
Proof.
  induction N as [|N IH]; intros i st.
  - cbn. now rewrite drop_nil.
  - cbn [zrange fold_left]. unfold stepi at 2.
    destruct (Z.ltb_spec i start) as [Hlt|Hge].
    + rewrite IH.
      replace (Z.to_nat (start - i)) with (S (Z.to_nat (start - (i + 1)))) by lia.
      reflexivity.
    + rewrite IH.
      replace (Z.to_nat (start - i)) with 0%nat by lia.
      replace (Z.to_nat (start - (i + 1))) with 0%nat by lia.
      reflexivity.
Qed.

Lemma row_loop_no_columns a start rows st :
  Z.to_nat (width a) = 0%nat ->
  Exact.row_loop cp eb a start rows st = st.
Proof.
  intros Hw. induction rows as [|row rows IH]; [reflexivity|].
  cbn [Exact.row_loop]. unfold range. rewrite Hw. cbn [zrange Exact.col_loop].
  rewrite IH. now destruct (_ <=? _).
Qed.

(** One image: the row loop is a fold of [step] over the payload cells. *)
Lemma row_loop_cells a start st :
  0 <= start ->
  Exact.row_loop cp eb a start (range (height a)) st =
    fold_left (step cp eb) (payload_cells a start) st.
Proof.
  intros Hstart. unfold payload_cells.
  destruct (Z.le_gt_cases 0 (width a)) as [Hw|Hw].
  - unfold range. rewrite (row_loop_linear cp eb a start Heb) by exact Hw.
    rewrite fold_stepi_cells. change (0 * width a) with 0.
    now rewrite Z.sub_0_r.
  - rewrite row_loop_no_columns by lia.
    replace (Z.to_nat (width a)) with 0%nat by lia.
    rewrite Nat.mul_0_r. cbn [zrange]. now rewrite drop_nil.
Qed.

(** The whole series: the file loop is a fold of [step] over its cells. *)
Lemma file_loop_cells files :
  forall idx st,
    Exact.file_loop cp eb idx files st =
      fold_left (step cp eb) (series_cells idx files) st.
Proof.
  induction files as [|a rest IH]; intros idx st; [reflexivity|].
  cbn [Exact.file_loop series_cells].
  rewrite row_loop_cells by (destruct (idx =? 1); lia).
  rewrite fold_left_app.
  set (st1 := fold_left (step cp eb) (payload_cells a _) st).
  destruct (Z.leb_spec (Exact.total_bytes cp eb) (Exact.bytes_written st1)).
  - now rewrite fold_step_stable.
  - apply IH.
Qed.
End LinearSeries.

(** ** Decoder: counters that hold for every header *)

Section Counters.
Variables cp eb : Z.

Lemma write_complete_ok st p :
  counters_ok cp eb st -> Exact.bytes_written st < Exact.bytes_target cp ->
  counters_ok cp eb (Exact.write_complete cp st p) /\
  Exact.bytes_written (Exact.write_complete cp st p) = Exact.bytes_written st + 3 /\
  Exact.pixels_read (Exact.write_complete cp st p) = Exact.pixels_read st + 1.
Proof.
  intros (Hlen & Hle & Hub & Hlb & Hmul) Hlt.
  pose proof (target_le_total cp eb) as Htt.
  specialize (Hmul ltac:(lia)).
  unfold Exact.write_complete, Exact.read_pixel, Exact.write, counters_ok.
  unfold Exact.bytes_target in *.
  cbn [Exact.bytes_written Exact.out_file Exact.pixels_read].
  destruct (Z.ltb_spec (Exact.bytes_written st) (cp * 3)); [|lia].
  cbn [Exact.bytes_written Exact.out_file Exact.pixels_read].
  destruct (Z.ltb_spec (Exact.bytes_written st + 1) (cp * 3)); [|lia].
  cbn [Exact.bytes_written Exact.out_file Exact.pixels_read].
  destruct (Z.ltb_spec (Exact.bytes_written st + 1 + 1) (cp * 3)); [|lia].
  cbn [Exact.bytes_written Exact.out_file Exact.pixels_read].
  rewrite !len_app, !len_cons, !len_nil. lia.
Qed.

Lemma write_extra_ok st p :
  counters_ok cp eb st -> Exact.bytes_target cp <= Exact.bytes_written st ->
  counters_ok cp eb (Exact.write_extra cp eb st p) /\
  Exact.pixels_read st <= Exact.pixels_read (Exact.write_extra cp eb st p)
    <= Exact.pixels_read st + 1.
Proof.
  intros (Hlen & Hle & Hub & Hlb & Hmul) Hge.
  unfold Exact.write_extra.
  assert (Exact.total_bytes cp eb =
          Exact.bytes_target cp + (if 0 <? eb then ceil_div eb 8 else 0)) as Ht
    by reflexivity.
  destruct (Z.ltb_spec 0 eb) as [Hpos|Hnp]; cbn [andb].
  2:{ unfold counters_ok. lia. }
  pose proof (ceil_div_bounds eb 8 ltac:(lia)) as Hc.
  set (needed := ceil_div eb 8) in *.
  set (total := Exact.total_bytes cp eb) in *.
  destruct (Z.ltb_spec (Exact.bytes_written st) total) as [Hlt|Hge'].
  2:{ unfold counters_ok. fold total. lia. }
  specialize (Hmul Hlt).
  unfold Exact.read_pixel, Exact.write, counters_ok. fold total.
  cbn [Exact.bytes_written Exact.out_file Exact.pixels_read].
  rewrite (proj2 (Z.ltb_lt _ _) Hlt).
  cbn [Exact.bytes_written Exact.out_file Exact.pixels_read].
  destruct (Z.ltb_spec (Exact.bytes_written st + 1) total),
           (Z.ltb_spec 1 needed);
    cbn [andb Exact.bytes_written Exact.out_file Exact.pixels_read];
    try (destruct (Z.ltb_spec (Exact.bytes_written st + 1 + 1) total),
                  (Z.ltb_spec 2 needed);
         cbn [andb Exact.bytes_written Exact.out_file Exact.pixels_read]);
    try (destruct (Z.ltb_spec (Exact.bytes_written st + 1) total),
                  (Z.ltb_spec 2 needed);
         cbn [andb Exact.bytes_written Exact.out_file Exact.pixels_read]);
    rewrite ?len_app, ?len_cons, ?len_nil; lia.
Qed.
End Counters.

Section LoopCounters.
Variables cp eb : Z.

Lemma col_loop_ok a start row n :
  forall c st,
    counters_ok cp eb st ->
    let st' := Exact.col_loop cp eb a start row (zrange c n) st in
    counters_ok cp eb st' /\
    Exact.pixels_read st <= Exact.pixels_read st' <=
      Exact.pixels_read st + count start (row * width a + c) n.
Proof.
  induction n as [|n IH]; intros c st Hok; cbn zeta.
  - cbn [zrange Exact.col_loop]. unfold count. split; [exact Hok | lia].
  - cbn [zrange Exact.col_loop].
    destruct (Z.ltb_spec (row * width a + c) start) as [Hskip|Hpay].
    + destruct (IH (c + 1) st Hok) as (Hok' & Hpr). split; [exact Hok'|].
      unfold count in *. lia.
    + destruct (Z.leb_spec (Exact.bytes_target cp) (Exact.bytes_written st))
        as [Hdone|Hmore].
      * destruct (write_extra_ok cp eb st (cells a row c) Hok Hdone) as (Hok' & Hpr).
        split; [exact Hok'|]. unfold count. lia.
      * destruct (write_complete_ok cp eb st (cells a row c) Hok Hmore)
          as (Hok1 & _ & Hpr1).
        destruct (IH (c + 1) _ Hok1) as (Hok' & Hpr). split; [exact Hok'|].
        unfold count in *. lia.
Qed.

Lemma row_loop_ok a start m :
  forall r st,
    counters_ok cp eb st ->
    let st' := Exact.row_loop cp eb a start (zrange r m) st in
    counters_ok cp eb st' /\
    Exact.pixels_read st <= Exact.pixels_read st' <=
      Exact.pixels_read st
      + count start (r * Z.max 0 (width a)) (m * Z.to_nat (width a)).
Proof.
  induction m as [|m IH]; intros r st Hok; cbn zeta.
  - cbn [zrange Exact.row_loop]. unfold count. split; [exact Hok | lia].
  - cbn [zrange Exact.row_loop]. unfold range.
    destruct (col_loop_ok a start r (Z.to_nat (width a)) 0 st Hok) as (Hok1 & Hpr1).
    set (st1 := Exact.col_loop cp eb a start r (zrange 0 (Z.to_nat (width a))) st) in *.
    assert (Exact.pixels_read st1 <=
            Exact.pixels_read st
            + count start (r * Z.max 0 (width a)) (Z.to_nat (width a))) as Hpr1'.
    { destruct (Z.le_gt_cases 0 (width a)).
      - replace (Z.max 0 (width a)) with (width a) by lia.
        rewrite Z.add_0_r in Hpr1. lia.
      - unfold count in *. lia. }
    destruct (Z.leb_spec (Exact.total_bytes cp eb) (Exact.bytes_written st1)).
    + split; [exact Hok1|]. unfold count in *. nia.
    + destruct (IH (r + 1) st1 Hok1) as (Hok' & Hpr). split; [exact Hok'|].
      unfold count in *. nia.
Qed.

Lemma image_ok a start st :
  0 <= start -> counters_ok cp eb st ->
  let st' := Exact.row_loop cp eb a start (range (height a)) st in
  counters_ok cp eb st' /\
  Exact.pixels_read st <= Exact.pixels_read st' <=
    Exact.pixels_read st + capacity a start.
Proof.
  intros Hstart Hok. cbn zeta. unfold range.
  destruct (row_loop_ok a start (Z.to_nat (height a)) 0 st Hok) as (Hok' & Hpr).
  split; [exact Hok'|]. unfold count, capacity in *. nia.
Qed.

Lemma file_loop_ok files :
  forall idx st,
    counters_ok cp eb st ->
    let st' := Exact.file_loop cp eb idx files st in
    counters_ok cp eb st' /\
    Exact.pixels_read st <= Exact.pixels_read st' <=
      Exact.pixels_read st + series_capacity idx files.
Proof.
  induction files as [|a rest IH]; intros idx st Hok; cbn zeta.
  - cbn [Exact.file_loop series_capacity]. split; [exact Hok | lia].
  - cbn [Exact.file_loop series_capacity].
    set (start := if idx =? 1 then 5 else 0).
    assert (0 <= start) as Hstart by (unfold start; destruct (idx =? 1); lia).
    destruct (image_ok a start st Hstart Hok) as (Hok1 & Hpr1).
    set (st1 := Exact.row_loop cp eb a start (range (height a)) st) in *.
    assert (0 <= series_capacity (idx + 1) rest) as Hcap.
    { clear. generalize (idx + 1). induction rest as [|b rest IHr]; intros i;
        cbn [series_capacity]; [lia|].
      specialize (IHr (i + 1)). unfold capacity. lia. }
    destruct (Z.leb_spec (Exact.total_bytes cp eb) (Exact.bytes_written st1)).
    + split; [exact Hok1 | lia].
    + destruct (IH (idx + 1) st1 Hok1) as (Hok' & Hpr). split; [exact Hok' | lia].
Qed.

(** With at most three residual bytes, enough cells complete the file. *)
Lemma fold_step_completes l :
  eb <= 24 ->
  forall st,
    counters_ok cp eb st ->
    Exact.total_bytes cp eb - Exact.bytes_written st <= 3 * len l ->
    Exact.bytes_written (fold_left (step cp eb) l st) = Exact.total_bytes cp eb.
Proof.
  intros Heb. induction l as [|p l IH]; intros st Hok Hroom.
  - change (len (@nil pixel)) with 0 in Hroom. destruct Hok as (_ & Hle & _). cbn. lia.
  - cbn [fold_left]. rewrite len_cons in Hroom.
    destruct (Z.le_gt_cases (Exact.total_bytes cp eb) (Exact.bytes_written st))
      as [Hdone|Hmore].
    + rewrite step_stable, fold_step_stable by exact Hdone.
      destruct Hok as (_ & Hle & _). lia.
    + replace (step cp eb st p)
        with (if Exact.bytes_target cp <=? Exact.bytes_written st
              then Exact.write_extra cp eb st p
              else Exact.write_complete cp st p) by reflexivity.
      destruct (Z.leb_spec (Exact.bytes_target cp) (Exact.bytes_written st))
        as [Hres|Hcompl].
      * pose proof (write_extra_completes cp eb st p Heb Hres) as Hfull.
        destruct (write_extra_ok cp eb st p Hok Hres) as ((_ & Hle & _) & _).
        rewrite fold_step_stable by exact Hfull. lia.
      * destruct (write_complete_ok cp eb st p Hok Hcompl) as (Hok1 & Hbw & _).
        apply IH; [exact Hok1 | lia].
Qed.
End LoopCounters.

Lemma series_cells_len files :
  forall idx, len (series_cells idx files) = series_capacity idx files.
Proof.
  induction files as [|a rest IH]; intros idx; [reflexivity|].
  cbn [series_cells series_capacity]. rewrite len_app, IH. f_equal.
  unfold payload_cells, capacity, len.
  rewrite length_map, length_drop, zrange_length.
  destruct (idx =? 1); nia.
Qed.

(** ** What an image holds *)

Lemma map_cell_prefix a pixels :
  forall i,
    (forall j, 0 <= j < len pixels -> cell a (i + j) = nth (Z.to_nat j) pixels white) ->
    map (cell a) (zrange i (length pixels)) = pixels.
Proof.
  induction pixels as [|p pixels IH]; intros i Hcell; [reflexivity|].
  cbn [length zrange map]. f_equal.
  - specialize (Hcell 0). rewrite len_cons, Z.add_0_r in Hcell.
    pose proof (len_nonneg pixels). apply Hcell. lia.
  - apply IH. intros j Hj. specialize (Hcell (j + 1)).
    rewrite len_cons in Hcell.
    replace (i + (j + 1)) with (i + 1 + j) in Hcell by lia.
    rewrite Hcell by lia.
    replace (Z.to_nat (j + 1)) with (S (Z.to_nat j)) by lia. reflexivity.
Qed.

Lemma map_drop {A B} (f : A -> B) n l : map f (drop n l) = drop n (map f l).
Proof.
  revert l. induction n as [|n IH]; intros [|x l]; cbn; auto.
Qed.

Lemma payload_cells_holds a pixels start :
  holds a pixels -> 0 <= start ->
  exists pad,
    payload_cells a start = drop (Z.to_nat start) pixels ++ pad /\
    (len pixels = height a * width a -> pad = []).
Proof.
  intros (Hh & Hw & Hfit & Hcell) Hstart. unfold payload_cells.
  set (N := (Z.to_nat (height a) * Z.to_nat (width a))%nat).
  assert (Z.of_nat N = height a * width a) as HN by (unfold N; nia).
  assert (N = length pixels + (N - length pixels))%nat as HNsplit
    by (unfold len in Hfit; lia).
  rewrite HNsplit, zrange_app, drop_app, map_app, map_drop, Z.add_0_l.
  rewrite map_cell_prefix by (intros j Hj; rewrite Z.add_0_l; now apply Hcell).
  eexists. split; [reflexivity|].
  intros Hfull. replace (N - length pixels)%nat with 0%nat by (unfold len in *; lia).
  cbn [zrange]. now rewrite drop_nil.
Qed.

Lemma raster_holds pixels arr :
  Forall is_uint8_pixel pixels -> Encrypt.raster pixels = Some arr ->
  holds arr pixels /\
  height arr = ceil_sqrt (len pixels) /\ width arr = ceil_sqrt (len pixels).
Proof.
  intros Hvalid Hr.
  destruct (raster_spec pixels) as (arr' & Hr' & Hh & Hw & _).
  rewrite Hr in Hr'. injection Hr' as <-.
  pose proof (ceil_sqrt_bounds (len pixels) (len_nonneg pixels)) as (Hs0 & Hfit & _).
  split; [|auto]. unfold holds. rewrite Hh, Hw. repeat split; auto.
  intros j Hj. rewrite (raster_cell pixels arr j Hr) by lia.
  destruct (Z.ltb_spec j (len pixels)); [|lia].
  apply uint8_pixel_id.
  apply (proj1 (List.Forall_nth is_uint8_pixel pixels) Hvalid). unfold len in Hj. lia.
Qed.

(** ** Reading the header back *)

Lemma read_header_holds a pixels idxs :
  holds a pixels ->
  Forall (fun i => 0 <= i < len pixels) idxs ->
  Decrypt.read_header a idxs = inr (map (fun i => nth (Z.to_nat i) pixels white) idxs).
Proof.
  intros (Hh & Hw & Hfit & Hcell) Hidxs.
  induction idxs as [|i idxs IH]; [reflexivity|].
  apply Forall_cons_1 in Hidxs. destruct Hidxs as (Hi & Hidxs).
  cbn [Decrypt.read_header map].
  assert (0 < width a) as Hwpos by nia.
  destruct (Z.eqb_spec (width a) 0); [lia|].
  unfold getitem, in_shape.
  pose proof (Z.mod_pos_bound i (width a) Hwpos) as Hm.
  assert (0 <= i / width a < height a) as Hd.
  { split; [apply Z.div_pos; lia | apply Z.div_lt_upper_bound; nia]. }
  replace ((0 <=? i / width a) && (i / width a <? height a) && (0 <=? i mod width a)
           && (i mod width a <? width a)) with true
    by (symmetry; rewrite !andb_true_iff, !Z.leb_le, !Z.ltb_lt; lia).
  rewrite (IH Hidxs). f_equal. f_equal. apply (Hcell i Hi).
Qed.

Lemma read_header_first a pixels :
  holds a pixels -> 5 <= len pixels ->
  Decrypt.read_header a (range 5) = inr (take 5 pixels).
Proof.
  intros Hholds Hlen.
  rewrite (read_header_holds a pixels) by
    (auto; unfold range; cbn; repeat (apply List.Forall_cons; [lia|]); apply List.Forall_nil).
  destruct pixels as [|p0 [|p1 [|p2 [|p3 [|p4 pixels]]]]];
    try (unfold len in Hlen; cbn in Hlen; lia).
  reflexivity.
Qed.

(** ** The decoder on the packed stream *)

Lemma step3 x :
  (x + 3) mod 3 = x mod 3 /\ (x + 3) / 3 = x / 3 + 1 /\
  ceil_div (x + 3) 3 = ceil_div x 3 + 1.
Proof.
  pose proof (Z.div_mod x 3 ltac:(lia)) as Hdm.
  pose proof (Z.mod_pos_bound x 3 ltac:(lia)) as Hm.
  assert ((x + 3) mod 3 = x mod 3) as H1
    by (symmetry; apply (Z.mod_unique (x + 3) 3 (x / 3 + 1)); lia).
  assert ((x + 3) / 3 = x / 3 + 1) as H2
    by (symmetry; apply (Z.div_unique (x + 3) 3 (x / 3 + 1) (x mod 3)); lia).
  repeat split; auto.
  unfold ceil_div. rewrite H1, H2. destruct (x mod 3 =? 0); lia.
Qed.

Ltac step_cases :=
  repeat (unfold Exact.write, Exact.read_pixel;
          cbn [andb Exact.bytes_written Exact.out_file Exact.pixels_read
               red green blue];
          match goal with
          | |- context [?a <? ?b] =>
            first [ rewrite (proj2 (Z.ltb_lt a b)) by lia
                  | rewrite (proj2 (Z.ltb_ge a b)) by lia ]
          | |- context [?a <=? ?b] =>
            first [ rewrite (proj2 (Z.leb_le a b)) by lia
                  | rewrite (proj2 (Z.leb_gt a b)) by lia ]
          end).

Lemma fold_step_pack cp eb l :
  forall st,
    eb = 8 * (len l mod 3) ->
    Exact.bytes_target cp - Exact.bytes_written st = 3 * (len l / 3) ->
    fold_left (step cp eb) (Encrypt.bytes_to_pixels l) st =
      Exact.WState (Exact.bytes_written st + len l) (Exact.out_file st ++ l)
        (Exact.pixels_read st + ceil_div (len l) 3).
Proof.
  assert (forall cp eb st p,
             step cp eb st p =
               if Exact.bytes_target cp <=? Exact.bytes_written st
               then Exact.write_extra cp eb st p
               else Exact.write_complete cp st p) as Hstep by reflexivity.
  induction l as [| a | a b | a b c l IH] using list_ind3; intros [bw out pr] Heb Htgt;
    cbn [Exact.bytes_written Exact.out_file Exact.pixels_read] in *.
  - cbn. rewrite app_nil_r, !Z.add_0_r. reflexivity.
  - change (len [a]) with 1 in *. change (1 mod 3) with 1 in Heb.
    change (1 / 3) with 0 in Htgt. subst eb.
    cbn [Encrypt.bytes_to_pixels fold_left]. rewrite Hstep.
    unfold Exact.write_extra, Exact.total_bytes. fold (Exact.bytes_target cp).
    change (ceil_div (8 * 1) 8) with 1.
    step_cases; reflexivity.
  - change (len [a; b]) with 2 in *. change (2 mod 3) with 2 in Heb.
    change (2 / 3) with 0 in Htgt. subst eb.
    cbn [Encrypt.bytes_to_pixels fold_left]. rewrite Hstep.
    unfold Exact.write_extra, Exact.total_bytes. fold (Exact.bytes_target cp).
    change (ceil_div (8 * 2) 8) with 2.
    step_cases; rewrite <- app_assoc; f_equal; lia.
  - rewrite !len_cons in *.
    replace (len l + 1 + 1 + 1) with (len l + 3) in * by lia.
    destruct (step3 (len l)) as (Hm & Hd & Hc). rewrite Hm in Heb. rewrite Hd in Htgt.
    pose proof (len_nonneg l) as Hl.
    pose proof (Z.div_pos (len l) 3 Hl ltac:(lia)) as Hq.
    cbn [Encrypt.bytes_to_pixels fold_left]. rewrite Hstep.
    unfold Exact.write_complete.
    step_cases;
      (rewrite IH; cbn [Exact.bytes_written Exact.out_file Exact.pixels_read];
       [|exact Heb|lia]);
      rewrite Hc, <- !app_assoc; cbn [app]; f_equal; lia.
Qed.

(** ** The cells of an encoded series *)

Lemma series_cells_spec content m :
  exact_count (len content) ->
  forall k files,
    0 <= k -> k + Z.of_nat m = Encrypt.num_images (len content) ->
    Forall2 (carries content) (zrange k m) files ->
    exists pad,
      series_cells (k + 1) files =
        drop (if k =? 0 then 5 else 0)
          (drop (Z.to_nat (k * Encrypt.max_pixels_per_image)) (pixel_stream content))
        ++ pad.
Proof.
  intros Hq.
  pose proof (partition_facts (len content) (len_nonneg content) Hq) as F. cbv zeta in F.
  destruct F as (_ & _ & _ & _ & _ & _ & HK1 & HK & HM).
  pose proof (pixel_stream_len content) as HP. unfold len in HP at 1.
  induction m as [|m IH]; intros k files Hk0 Hk Hall.
  - inversion Hall; subst. exists []. cbn [series_cells].
    rewrite (drop_ge (pixel_stream content)) by lia.
    now rewrite drop_nil.
  - cbn [zrange] in Hall. inversion Hall as [|? a ? rest (Hholds & Hfull) Hrest]; subst.
    cbn [series_cells].
    set (start := if k + 1 =? 1 then 5 else 0).
    assert ((if k =? 0 then 5%nat else 0%nat) = Z.to_nat start) as Hstart
      by (unfold start; destruct (Z.eqb_spec k 0), (Z.eqb_spec (k + 1) 1); lia).
    destruct (payload_cells_holds a (spec_pixels content k) start Hholds
                ltac:(unfold start; destruct (k + 1 =? 1); lia))
      as (pad_a & Hpc & Hnopad).
    rewrite Hpc, Hstart.
    set (X := drop (Z.to_nat (k * Encrypt.max_pixels_per_image)) (pixel_stream content)).
    destruct m as [|m].
    + inversion Hrest; subst. cbn [series_cells]. rewrite app_nil_r.
      exists pad_a. f_equal. f_equal. unfold spec_pixels. fold X.
      apply take_ge. unfold X. rewrite length_drop. lia.
    + destruct (IH (k + 1) rest ltac:(lia) ltac:(lia) Hrest) as (pad & Hcells).
      rewrite Hcells, (Hnopad (Hfull ltac:(lia))), app_nil_r.
      destruct (Z.eqb_spec (k + 1) 0); [lia|]. rewrite drop_0.
      exists pad. rewrite app_assoc. f_equal.
      replace (Z.to_nat ((k + 1) * Encrypt.max_pixels_per_image))
        with (Z.to_nat (k * Encrypt.max_pixels_per_image)
              + Z.to_nat Encrypt.max_pixels_per_image)%nat by lia.
      rewrite <- drop_drop. fold X. unfold spec_pixels. fold X.
      rewrite <- (take_drop (Z.to_nat Encrypt.max_pixels_per_image) X) at 3.
      symmetry. apply drop_app_le.
      rewrite length_take. unfold X. rewrite length_drop.
      unfold start. destruct (k + 1 =? 1); lia.
Qed.

Lemma pixel_stream_uint8 content :
  Forall is_uint8 content -> Forall is_uint8_pixel (pixel_stream content).
Proof.
  intros Hvalid. unfold pixel_stream. apply Forall_app. split.
  - apply create_header_uint8.
    destruct (extra_bits_values (len content)) as [-> | [-> | ->]]; unfold is_uint8; lia.
  - now apply bytes_to_pixels_uint8.
Qed.

Lemma spec_pixels_uint8 content k :
  Forall is_uint8 content -> Forall is_uint8_pixel (spec_pixels content k).
Proof.
  intros Hvalid. unfold spec_pixels.
  apply Forall_take, Forall_drop, pixel_stream_uint8, Hvalid.
Qed.

Lemma spec_pixels_header content :
  take 5 (spec_pixels content 0) =
    create_header_pixels (Encrypt.complete_pixels (len content))
                         (Encrypt.extra_bits (len content)).
Proof.
  unfold spec_pixels, pixel_stream.
  change (0 * Encrypt.max_pixels_per_image) with 0. change (Z.to_nat 0) with 0%nat.
  rewrite drop_0, take_take.
  replace (Nat.min 5 (Z.to_nat Encrypt.max_pixels_per_image)) with 5%nat
    by (unfold Encrypt.max_pixels_per_image; lia).
  apply (take_app_length' _ _ 5). reflexivity.
Qed.

(** The run of the decoder on any series that carries [content]. *)
Lemma decrypt_carried content files :
  valid_content content -> exact_count (len content) ->
  Forall2 (carries content)
    (zrange 0 (Z.to_nat (Encrypt.num_images (len content)))) files ->
  Exact.decrypt_single_file files None =
    Decrypt.Run (Decrypt.Returned true) (Some content)
      (Encrypt.data_pixels (len content)).
Proof.
  intros (Hbytes & Hsize) Hq Hall.
  pose proof (len_nonneg content) as Hn.
  pose proof (partition_facts (len content) Hn Hq) as F. cbv zeta in F.
  destruct F as (Hcp & Hn3 & Hr & Heb & HD & HT & HK1 & HK & HM).
  destruct (metadata_div3 (len content)) as (Hcp3 & _).
  destruct (series_cells_spec content (Z.to_nat (Encrypt.num_images (len content))) Hq
              0 files ltac:(lia) ltac:(lia) Hall)
    as (pad & Hcells).
  destruct (Z.to_nat (Encrypt.num_images (len content))) as [|m] eqn:Em; [lia|].
  cbn [zrange] in Hall. inversion Hall as [|? a ? rest (Hholds & _) Hrest]; subst.
  unfold Exact.decrypt_single_file.
  rewrite (read_header_first a (spec_pixels content 0) Hholds).
  2:{ rewrite spec_pixels_len by (auto; lia). lia. }
  rewrite spec_pixels_header.
  rewrite decode_create_header by lia.
  rewrite file_loop_cells by lia.
  change (0 + 1) with 1 in Hcells. rewrite Hcells.
  change (0 * Encrypt.max_pixels_per_image) with 0. change (Z.to_nat 0) with 0%nat.
  rewrite drop_0. cbn [Z.eqb]. unfold pixel_stream.
  rewrite (drop_app_length' _ _ 5) by reflexivity.
  rewrite fold_left_app.
  rewrite fold_step_pack; cbn [Exact.bytes_written Exact.out_file Exact.pixels_read];
    [| lia | unfold Exact.bytes_target; lia].
  rewrite fold_step_stable.
  2:{ cbn [Exact.bytes_written]. unfold Exact.total_bytes.
      rewrite extra_bytes. destruct (Z.ltb_spec 0 (Encrypt.extra_bits (len content))); lia. }
  cbn [Exact.out_file Exact.pixels_read app]. rewrite data_pixels_ceil, Z.add_0_l.
  reflexivity.
Qed.

(** ** The series that the encoder writes carries its content *)

Lemma max_pixels_square :
  ceil_sqrt Encrypt.max_pixels_per_image = 10000.
Proof. apply (ceil_sqrt_square 10000). lia. Qed.

Lemma units_carry content :
  Forall is_uint8 content -> exact_count (len content) ->
  forall m k units,
    0 <= k -> k + Z.of_nat m = Encrypt.num_images (len content) ->
    Forall2 (unit_spec content) (zrange k m) units ->
    Forall2 (carries content) (zrange k m) (Encrypt.series units).
Proof.
  intros Hbytes Hq. induction m as [|m IH]; intros k units Hk0 Hk Hall.
  - inversion Hall; subst. constructor.
  - cbn [zrange] in *. inversion Hall as [|? u ? rest (Hpix & Hr) Hrest]; subst.
    cbn [Encrypt.series map]. constructor; [|apply IH; auto; lia].
    destruct (raster_holds _ _ (spec_pixels_uint8 content k Hbytes) Hr)
      as (Hholds & Hh & Hw).
    split; [exact Hholds|]. intros Hfull.
    pose proof (partition_facts (len content) (len_nonneg content) Hq) as F. cbv zeta in F.
    assert (len (spec_pixels content k) = Encrypt.max_pixels_per_image) as Hlen
      by (rewrite spec_pixels_len by (auto; lia); lia).
    rewrite Hh, Hw, Hlen, max_pixels_square. reflexivity.
Qed.

Lemma variant_carries content :
  Forall is_uint8 content -> exact_count (len content) ->
  forall m k units files,
    0 <= k -> k + Z.of_nat m = Encrypt.num_images (len content) ->
    Forall2 (unit_spec content) (zrange k m) units ->
    padding_variant units files ->
    Forall2 (carries content) (zrange k m) files.
Proof.
  intros Hbytes Hq. induction m as [|m IH]; intros k units files Hk0 Hk Hall Hvar.
  - inversion Hall; subst. inversion Hvar; subst. constructor.
  - pose proof (units_carry content Hbytes Hq (S m) k units Hk0 Hk Hall) as Hcarry.
    cbn [zrange] in *.
    inversion Hall as [|? u ? rest (Hpix & Hr) Hrest]; subst.
    inversion Hvar as [|? a ? files' (Hh & Hw & Hsame) Hvar']; subst.
    cbn [Encrypt.series map] in Hcarry.
    inversion Hcarry as [|? ? ? ? ((Hh0 & Hw0 & Hfit & Hcell) & Hfull) _]; subst.
    constructor; [|apply (IH (k + 1) rest); auto; lia].
    split.
    + unfold holds. rewrite Hh, Hw. repeat split; auto.
      intros j Hj. rewrite Hsame by (rewrite Hpix; exact Hj). now apply Hcell.
    + rewrite Hh, Hw. exact Hfull.
Qed.

Lemma padding_variant_refl units : padding_variant units (Encrypt.series units).
Proof.
  induction units as [|u units IH]; constructor; [|exact IH].
  repeat split; auto.
Qed.

(** ** Every run of the decoder *)

Lemma be_fold_nonneg l : Forall is_uint8 l -> 0 <= Exact.be_fold l.
Proof.
  intros Hl. unfold Exact.be_fold.
  assert (forall acc, 0 <= acc ->
            0 <= fold_left
                   (fun complete_pixels byte_val =>
                      Z.lor (Z.shiftl complete_pixels 8) byte_val) l acc) as H.
  { induction Hl as [|b l Hb Hl IH]; intros acc Hacc; [exact Hacc|].
    cbn [fold_left]. apply IH. rewrite shift_or_byte by exact Hb.
    unfold is_uint8 in Hb. lia. }
  apply H. lia.
Qed.

Lemma read_header_cells a idxs hp :
  uint8_array a -> Decrypt.read_header a idxs = inr hp -> Forall is_uint8_pixel hp.
Proof.
  intros Ha. revert hp. induction idxs as [|i idxs IH]; intros hp Hread.
  - cbn in Hread. injection Hread as <-. constructor.
  - cbn [Decrypt.read_header] in Hread.
    destruct (width a =? 0); [discriminate|].
    unfold getitem in Hread. destruct (in_shape a _ _); [|discriminate].
    destruct (Decrypt.read_header a idxs) as [e|ps]; [discriminate|].
    injection Hread as <-. constructor; [apply Ha | now apply IH].
Qed.

Lemma decode_header_range hp :
  Forall is_uint8_pixel hp ->
  0 <= fst (Exact.decode_header hp) /\ is_uint8 (snd (Exact.decode_header hp)).
Proof.
  intros Hhp. unfold Exact.decode_header. cbn [fst snd]. split.
  - apply be_fold_nonneg.
    assert (Forall is_uint8_pixel (take 4 hp)) as H4 by now apply Forall_take.
    induction H4 as [|p l (Hr & Hg & Hb) Hl IH]; [constructor|].
    cbn [flat_map channels app]. repeat (constructor; auto).
  - assert (is_uint8_pixel (nth 4 hp (RGB 0 0 0))) as (_ & _ & H).
    { destruct (Nat.lt_ge_cases 4 (length hp)) as [Hlt|Hge].
      - now apply (proj1 (List.Forall_nth is_uint8_pixel hp) Hhp).
      - rewrite nth_overflow by lia. repeat split; cbn; lia. }
    exact H.
Qed.

Lemma header_field_range files cp eb :
  Forall uint8_array files -> header_field files = Some (cp, eb) ->
  0 <= cp /\ is_uint8 eb.
Proof.
  intros Hfiles Hparse. destruct files as [|a rest]; [discriminate|].
  apply Forall_cons_1 in Hfiles. destruct Hfiles as (Ha & _).
  cbn [header_field] in Hparse.
  destruct (Decrypt.read_header a (range 5)) as [e|hp] eqn:Hread; [discriminate|].
  pose proof (decode_header_range hp (read_header_cells a _ hp Ha Hread)) as Hrange.
  replace (Exact.decode_header hp) with (cp, eb) in Hrange by congruence.
  exact Hrange.
Qed.

(** How a run without destination file ends, in terms of the loops. *)
Lemma decrypt_run files cp eb :
  header_field files = Some (cp, eb) ->
  Exact.decrypt_single_file files None =
    let st := Exact.file_loop cp eb 1 files (Exact.WState 0 [] 0) in
    Decrypt.Run (Decrypt.Returned true) (Some (Exact.out_file st))
      (Exact.pixels_read st).
Proof.
  intros Hparse. destruct files as [|a rest]; [discriminate|].
  cbn [header_field] in Hparse. unfold Exact.decrypt_single_file.
  destruct (Decrypt.read_header a (range 5)) as [e|hp]; [discriminate|].
  replace (Exact.decode_header hp) with (cp, eb) by congruence. reflexivity.
Qed.

Lemma counters_ok_init cp eb :
  0 <= cp -> 0 <= eb -> counters_ok cp eb (Exact.WState 0 [] 0).
Proof.
  intros Hcp Heb. pose proof (target_le_total cp eb) as Htt.
  unfold Exact.bytes_target in Htt.
  unfold counters_ok. cbn [Exact.bytes_written Exact.out_file Exact.pixels_read].
  change (len (@nil Z)) with 0. lia.
Qed.

(** Once the file is complete the loops change nothing. *)
Lemma col_loop_stable cp eb a start row cols st :
  Exact.total_bytes cp eb <= Exact.bytes_written st ->
  Exact.col_loop cp eb a start row cols st = st.
Proof.
  intros Hdone. pose proof (target_le_total cp eb) as Htt.
  induction cols as [|col cols IH]; [reflexivity|].
  cbn [Exact.col_loop].
  destruct (_ <? start); [exact IH|].
  destruct (Z.leb_spec (Exact.bytes_target cp) (Exact.bytes_written st)); [|lia].
  unfold Exact.write_extra.
  destruct (Z.ltb_spec (Exact.bytes_written st) (Exact.total_bytes cp eb)); [lia|].
  now rewrite andb_false_r.
Qed.

Lemma row_loop_stable cp eb a start rows st :
  Exact.total_bytes cp eb <= Exact.bytes_written st ->
  Exact.row_loop cp eb a start rows st = st.
Proof.
  intros Hdone. destruct rows as [|row rows]; [reflexivity|].
  cbn [Exact.row_loop]. rewrite col_loop_stable by exact Hdone.
  destruct (Z.leb_spec (Exact.total_bytes cp eb) (Exact.bytes_written st)); [reflexivity|lia].
Qed.

Lemma file_loop_stable cp eb idx files st :
  Exact.total_bytes cp eb <= Exact.bytes_written st ->
  Exact.file_loop cp eb idx files st = st.
Proof.
  intros Hdone. destruct files as [|a rest]; [reflexivity|].
  cbn [Exact.file_loop]. rewrite row_loop_stable by exact Hdone.
  destruct (Z.leb_spec (Exact.total_bytes cp eb) (Exact.bytes_written st)); [reflexivity|lia].
Qed.

(** Images after the one that completes the file are never opened. *)
Lemma file_loop_app cp eb files extra :
  forall idx st,
    Exact.total_bytes cp eb
      <= Exact.bytes_written (Exact.file_loop cp eb idx files st) ->
    Exact.file_loop cp eb idx (files ++ extra) st = Exact.file_loop cp eb idx files st.
Proof.
  induction files as [|a rest IH]; intros idx st Hdone.
  - cbn [app Exact.file_loop] in *. now apply file_loop_stable.
  - cbn [app Exact.file_loop] in *.
    destruct (_ <=? _); [reflexivity|]. now apply IH.
Qed.

(** ** The floating point quotient *)

Lemma div_nearest_even_bounds a b :
  0 < b -> a / b <= div_nearest_even a b <= a / b + 1.
Proof.
  intros Hb. unfold div_nearest_even.
  destruct (_ <? _); [lia|]. destruct (_ <? _); [lia|]. destruct (Z.even _); lia.
Qed.

Lemma div_nearest_even_exact a b :
  0 < b -> a mod b = 0 -> div_nearest_even a b = a / b.
Proof.
  intros Hb Hr. unfold div_nearest_even. rewrite Hr.
  destruct (Z.ltb_spec (2 * 0) b); [reflexivity | lia].
Qed.

Lemma div_nearest_even_up a b :
  0 < b -> b < 2 * (a mod b) -> div_nearest_even a b = a / b + 1.
Proof.
  intros Hb Hr. unfold div_nearest_even.
  destruct (Z.ltb_spec (2 * (a mod b)) b); [lia|].
  destruct (Z.ltb_spec b (2 * (a mod b))); [reflexivity | lia].
Qed.

(** Scaled by [2^s] with [2^(s+1) > b], the rounded quotient has the ceiling
    of the exact one. *)
Lemma ceil_scaled a b s :
  0 < a -> 0 < b -> 0 <= s -> b < 2 ^ (s + 1) ->
  ceil_div (div_nearest_even (a * 2 ^ s) b) (2 ^ s) = ceil_div a b.
Proof.
  intros Ha Hb Hs Hbs.
  assert (Hp : 0 < 2 ^ s) by (apply Z.pow_pos_nonneg; lia).
  assert (Hp1 : 2 ^ (s + 1) = 2 * 2 ^ s)
    by (rewrite Z.pow_add_r by lia; change (2 ^ 1) with 2; lia).
  pose proof (Z.div_mod a b ltac:(lia)) as Hdm.
  pose proof (Z.mod_pos_bound a b Hb) as Hr.
  set (k := a / b) in *. set (r := a mod b) in *.
  set (N := a * 2 ^ s).
  pose proof (div_nearest_even_bounds N b Hb) as Hm.
  pose proof (Z.div_mod N b ltac:(lia)) as HdmN.
  pose proof (Z.mod_pos_bound N b Hb) as HrN.
  unfold ceil_div at 2. fold r k.
  destruct (Z.eqb_spec r 0) as [Hr0|Hr0].
  - (* the quotient is an integer *)
    assert (HN : N = (k * 2 ^ s) * b) by (unfold N; nia).
    rewrite div_nearest_even_exact; auto.
    + rewrite HN, Z.div_mul by lia. apply ceil_div_unique; nia.
    + rewrite HN. apply Z.mod_mul. lia.
  - apply ceil_div_unique; [lia|].
    assert (HNlt : N < (k + 1) * 2 ^ s * b) by (unfold N; nia).
    assert (Hq_hi : N / b <= (k + 1) * 2 ^ s - 1).
    { assert (N / b < (k + 1) * 2 ^ s); [|lia].
      apply Z.div_lt_upper_bound; nia. }
    assert (Hq_lo : k * 2 ^ s <= N / b).
    { apply Z.div_le_lower_bound; [lia|]. unfold N. nia. }
    split; [|lia].
    replace (k + 1 - 1) with k by lia.
    destruct (Z.eq_dec (N / b) (k * 2 ^ s)) as [E|E]; [|lia].
    (* the remainder is more than half of [b]: the quotient is rounded up *)
    assert (HrN' : N mod b = r * 2 ^ s) by (unfold N in *; nia).
    rewrite div_nearest_even_up; [lia | lia | nia].
Qed.

Lemma quotient_exponent_small a b :
  0 < a -> 0 < b -> a < 2 ^ 27 * b -> quotient_exponent a b <= 26.
Proof.
  intros Ha Hb Hab. unfold quotient_exponent.
  destruct (Z.leb_spec b a).
  - assert (a / b < 2 ^ 27) by (apply Z.div_lt_upper_bound; lia).
    assert (0 < a / b) by (apply Z.div_str_pos; lia).
    assert (Z.log2 (a / b) < 27) by (apply Z.log2_lt_pow2; lia). lia.
  - pose proof (Z.log2_up_nonneg (ceil_div b a)). lia.
Qed.

(** Below [2^27] images the quotient of line 166 has the exact ceiling. *)
Lemma ceil_quotient_exact a b :
  0 < a -> 0 < b < 2 ^ 27 -> a < 2 ^ 27 * b -> ceil_quotient a b = ceil_div a b.
Proof.
  intros Ha Hb Hab. unfold ceil_quotient.
  pose proof (quotient_exponent_small a b Ha ltac:(lia) Hab) as He.
  set (s := 52 - quotient_exponent a b) in *.
  destruct (Z.leb_spec 0 s); [|lia].
  apply ceil_scaled; try lia.
  assert (2 ^ 27 <= 2 ^ (s + 1)) by (apply Z.pow_le_mono_r; lia). lia.
Qed.

Lemma total_pixels_pos n : 0 <= n -> 5 <= Encrypt.total_pixels_needed n.
Proof.
  intros Hn. unfold Encrypt.total_pixels_needed, Encrypt.header_pixels.
  rewrite data_pixels_ceil.
  pose proof (ceil_div_bounds n 3 ltac:(lia)). lia.
Qed.

Lemma exact_count_small n :
  0 <= n ->
  Encrypt.total_pixels_needed n < 2 ^ 27 * Encrypt.max_pixels_per_image ->
  exact_count n.
Proof.
  intros Hn HT. unfold exact_count, Encrypt.num_images.
  pose proof (total_pixels_pos n Hn).
  apply ceil_quotient_exact; [lia | | exact HT].
  unfold Encrypt.max_pixels_per_image. lia.
Qed.

Lemma fits_999_exact content :
  fits_999 content ->
  exact_count (len content) /\ 1 <= Encrypt.num_images (len content) <= 999.
Proof.
  intros H. unfold fits_999 in H.
  assert (Hq : exact_count (len content)).
  { apply exact_count_small; [apply len_nonneg|].
    unfold Encrypt.max_pixels_per_image in *. lia. }
  split; [exact Hq|].
  pose proof (partition_facts (len content) (len_nonneg content) Hq) as F. cbv zeta in F.
  destruct F as (_ & _ & _ & _ & _ & _ & HK1 & HK & HM). rewrite HM in *.
  unfold Encrypt.max_pixels_per_image in H. lia.
Qed.

(** ** Scalars that wrap around *)

Lemma wrap_range np x : lowest np <= wrap np x < lowest np + modulus np.
Proof.
  destruct np; unfold wrap, lowest, modulus.
  - pose proof (Z.mod_pos_bound (x + 2 ^ 63) (2 ^ 64) ltac:(lia)). lia.
  - pose proof (Z.mod_pos_bound x (2 ^ 8) ltac:(lia)). lia.
Qed.

Lemma wrap_small np x : lowest np <= x < lowest np + modulus np -> wrap np x = x.
Proof.
  destruct np; unfold wrap, lowest, modulus; intros H.
  - rewrite Z.mod_small by lia. lia.
  - apply Z.mod_small. lia.
Qed.

Lemma wrap_quotient np x : exists k, wrap np x = x + k * modulus np.
Proof.
  destruct np; unfold wrap, modulus.
  - exists (- ((x + 2 ^ 63) / 2 ^ 64)).
    pose proof (Z.div_mod (x + 2 ^ 63) (2 ^ 64) ltac:(lia)). lia.
  - exists (- (x / 2 ^ 8)). pose proof (Z.div_mod x (2 ^ 8) ltac:(lia)). lia.
Qed.

Lemma wrap_le np x : lowest np <= x -> wrap np x <= x.
Proof.
  intros Hx. destruct (wrap_quotient np x) as (k & Hk).
  pose proof (wrap_range np x) as Hr.
  assert (0 < modulus np) by (destruct np; unfold modulus; lia).
  assert (k <= 0) by nia. nia.
Qed.

(** Two numbers that differ by a multiple of the modulus wrap to the same
    value. *)
Lemma wrap_congr np x y k : y = x + k * modulus np -> wrap np y = wrap np x.
Proof.
  intros ->. destruct np; unfold wrap, modulus.
  - replace (x + k * 2 ^ 64 + 2 ^ 63) with (x + 2 ^ 63 + k * 2 ^ 64) by lia.
    now rewrite Z.mod_add by lia.
  - now rewrite Z.mod_add by lia.
Qed.

Lemma wrap_wrap_mul np x c : wrap np (wrap np x * c) = wrap np (x * c).
Proof.
  destruct (wrap_quotient np x) as (k & Hk).
  apply (wrap_congr np (x * c) _ (k * c)). rewrite Hk. lia.
Qed.

Lemma wrap_wrap_add np x c : wrap np (wrap np x + c) = wrap np (x + c).
Proof.
  destruct (wrap_quotient np x) as (k & Hk).
  apply (wrap_congr np (x + c) _ k). rewrite Hk. lia.
Qed.

(** One step of the fold on scalars is the step on integers, wrapped. *)
Lemma be_fold_step np acc b :
  is_uint8 b ->
  Z.lor (wrap np (Z.shiftl (wrap np acc) 8)) b = wrap np (Z.lor (Z.shiftl acc 8) b).
Proof.
  intros Hb. rewrite (shift_or_byte acc b Hb).
  rewrite Z.shiftl_mul_pow2 by lia. change (2 ^ 8) with 256.
  rewrite wrap_wrap_mul.
  unfold is_uint8 in Hb.
  (* the wrapped shift is a multiple of 256 *)
  assert (Hz : exists z, wrap np (acc * 256) = z * 256
                         /\ wrap np (acc * 256 + b) = z * 256 + b).
  { destruct np; unfold wrap.
    - pose proof (Z.div_mod (acc * 256 + 2 ^ 63) (2 ^ 64) ltac:(lia)) as Hdm.
      pose proof (Z.mod_pos_bound (acc * 256 + 2 ^ 63) (2 ^ 64) ltac:(lia)) as Hm.
      set (q := (acc * 256 + 2 ^ 63) / 2 ^ 64) in *.
      set (m := (acc * 256 + 2 ^ 63) mod 2 ^ 64) in *.
      exists (acc - q * 2 ^ 56).
      assert (Hm' : m = (acc + 2 ^ 55 - q * 2 ^ 56) * 256) by lia.
      split; [lia|].
      assert ((acc * 256 + b + 2 ^ 63) mod 2 ^ 64 = m + b); [|lia].
      symmetry. apply (Z.mod_unique _ _ q); lia.
    - exists 0. split.
      + now rewrite Z.mod_mul by lia.
      + rewrite Z.add_comm, Z.mod_add by lia. apply Z.mod_small. lia. }
  destruct Hz as (z & Hz1 & Hz2). rewrite Hz1, Hz2.
  rewrite <- (shift_or_byte z b Hb). rewrite Z.shiftl_mul_pow2 by lia. reflexivity.
Qed.

(** The header parse of the code is the number in the header, wrapped. *)
Lemma be_fold_wrap np l :
  Forall is_uint8 l -> be_fold np l = wrap np (Exact.be_fold l).
Proof.
  intros Hl. unfold be_fold, Exact.be_fold.
  assert (H : forall acc,
            fold_left (fun cp b => Z.lor (wrap np (Z.shiftl cp 8)) b) l (wrap np acc)
            = wrap np (fold_left (fun cp b => Z.lor (Z.shiftl cp 8) b) l acc)).
  { induction Hl as [|b l Hb Hl IH]; intros acc; [reflexivity|].
    cbn [fold_left]. rewrite be_fold_step by exact Hb. apply IH. }
  specialize (H 0). rewrite <- H. f_equal.
  symmetry. apply wrap_small. destruct np; unfold lowest, modulus; lia.
Qed.

Lemma header_bytes_uint8 hp :
  Forall is_uint8_pixel hp -> Forall is_uint8 (flat_map channels (take 4 hp)).
Proof.
  intros Hhp.
  assert (Forall is_uint8_pixel (take 4 hp)) as H4 by now apply Forall_take.
  induction H4 as [|p l (Hr & Hg & Hb) Hl IH]; [constructor|].
  cbn [flat_map channels app]. repeat (constructor; auto).
Qed.

Lemma decode_header_wrap np hp :
  Forall is_uint8_pixel hp ->
  decode_header np hp
  = (wrap np (fst (Exact.decode_header hp)), snd (Exact.decode_header hp)).
Proof.
  intros Hhp. unfold decode_header, Exact.decode_header. cbv zeta. cbn [fst snd].
  rewrite be_fold_wrap by now apply header_bytes_uint8. reflexivity.
Qed.

(** The parse of the code in terms of the numbers in the header. *)
Lemma parse_header_field np files H eb :
  Forall uint8_array files -> header_field files = Some (H, eb) ->
  parse_header np files = Some (wrap np H, eb).
Proof.
  intros Hfiles Hf. destruct files as [|a rest]; [discriminate|].
  apply Forall_cons_1 in Hfiles. destruct Hfiles as (Ha & _).
  cbn [header_field parse_header] in *.
  destruct (Decrypt.read_header a (range 5)) as [e|hp] eqn:Hread; [discriminate|].
  rewrite (decode_header_wrap np hp (read_header_cells a _ hp Ha Hread)).
  assert (Hd : Exact.decode_header hp = (H, eb)) by congruence.
  rewrite Hd. reflexivity.
Qed.

Lemma ceil_div_byte eb : is_uint8 eb -> 0 <= ceil_div eb 8 <= 32.
Proof.
  intros Heb. unfold is_uint8 in Heb.
  pose proof (ceil_div_bounds eb 8 ltac:(lia)). lia.
Qed.

(** The two targets of the code against the numbers in the header. *)
Lemma targets_le np H eb :
  0 <= H -> is_uint8 eb ->
  Decrypt.bytes_target np (wrap np H) <= H * 3 /\
  Decrypt.total_bytes np (wrap np H) eb <= H * 3 + ceil_div eb 8 /\
  Decrypt.total_bytes np (wrap np H) eb
    <= Decrypt.bytes_target np (wrap np H) + ceil_div eb 8 /\
  (eb <= 0 -> Decrypt.total_bytes np (wrap np H) eb = Decrypt.bytes_target np (wrap np H)).
Proof.
  intros HH Heb. pose proof (ceil_div_byte eb Heb) as Hc.
  unfold Decrypt.bytes_target, Decrypt.total_bytes. rewrite wrap_wrap_mul.
  assert (Hl : lowest np <= 0) by (destruct np; unfold lowest; lia).
  pose proof (wrap_le np (H * 3) ltac:(lia)) as Ht.
  pose proof (wrap_range np (H * 3)) as Hr.
  destruct (Z.ltb_spec 0 eb).
  - pose proof (wrap_le np (wrap np (H * 3) + ceil_div eb 8) ltac:(lia)).
    repeat split; try lia.
  - repeat split; lia.
Qed.

Lemma targets_exact H eb :
  0 <= H -> is_uint8 eb -> H * 3 + 32 < 2 ^ 63 ->
  wrap NumPy1 H = H /\
  Decrypt.bytes_target NumPy1 H = Exact.bytes_target H /\
  Decrypt.total_bytes NumPy1 H eb = Exact.total_bytes H eb.
Proof.
  intros HH Heb Hsmall. pose proof (ceil_div_byte eb Heb) as Hc.
  unfold Decrypt.bytes_target, Decrypt.total_bytes, Exact.bytes_target, Exact.total_bytes.
  rewrite !(wrap_small NumPy1) by (unfold lowest, modulus; lia).
  split; [reflexivity|]. split; [reflexivity|].
  destruct (Z.ltb_spec 0 eb); [reflexivity | lia].
Qed.

(** ** The loops under NumPy 1.x, when nothing wraps *)

(** Case analysis on the tests [x < y] of a straight-line piece of code, one
    after the other, closing the cases that contradict an earlier test. *)
Ltac simpl_state :=
  cbn [andb orb negb
       Decrypt.write Decrypt.read_pixel Decrypt.bytes_written Decrypt.out_file
       Decrypt.pixels_read Decrypt.last_update_bytes Decrypt.raised
       Exact.write Exact.read_pixel Exact.bytes_written Exact.out_file Exact.pixels_read].

Ltac split_tests :=
  simpl_state;
  repeat (match goal with
          | |- context [?x <? ?y] =>
            lazymatch x with
            | context [if _ then _ else _] => fail
            | _ => idtac
            end;
            destruct (Z.ltb_spec x y); try (exfalso; lia)
          end; simpl_state).

Section Bridge.
Variables cp eb ui : Z.

Lemma exact_update_progress st :
  exact_state (Decrypt.update_progress NumPy1 (Exact.total_bytes cp eb) ui st)
    = exact_state st /\
  Decrypt.raised (Decrypt.update_progress NumPy1 (Exact.total_bytes cp eb) ui st)
    = Decrypt.raised st.
Proof.
  unfold Decrypt.update_progress. cbn [print_bytes_progress_raises].
  destruct (_ || _); split; reflexivity.
Qed.

Lemma exact_write st b :
  exact_state (Decrypt.write st b) = Exact.write (exact_state st) b /\
  Decrypt.raised (Decrypt.write st b) = Decrypt.raised st.
Proof. split; reflexivity. Qed.

Lemma exact_write_complete st p :
  exact_state
    (Decrypt.write_complete NumPy1 (Exact.bytes_target cp) (Exact.total_bytes cp eb) ui st p)
    = Exact.write_complete cp (exact_state st) p /\
  Decrypt.raised
    (Decrypt.write_complete NumPy1 (Exact.bytes_target cp) (Exact.total_bytes cp eb) ui st p)
    = Decrypt.raised st.
Proof.
  unfold Decrypt.write_complete, Exact.write_complete. cbv zeta.
  match goal with
  | |- context [Decrypt.update_progress _ _ _ ?s] =>
    destruct (exact_update_progress s) as (-> & ->)
  end.
  destruct st as [bw out pr lu ra].
  unfold Decrypt.read_pixel, Exact.read_pixel, exact_state.
  split_tests; split; reflexivity.
Qed.

Lemma exact_write_extra st p :
  exact_state (Decrypt.write_extra (Exact.total_bytes cp eb) eb st p)
    = Exact.write_extra cp eb (exact_state st) p /\
  Decrypt.raised (Decrypt.write_extra (Exact.total_bytes cp eb) eb st p)
    = Decrypt.raised st.
Proof.
  unfold Decrypt.write_extra, Exact.write_extra. cbv zeta.
  destruct st as [bw out pr lu ra].
  unfold Decrypt.read_pixel, Exact.read_pixel, exact_state.
  split_tests; split; reflexivity.
Qed.

Lemma exact_col_loop a start row cols :
  forall st,
    Decrypt.raised st = None ->
    exact_state
      (Decrypt.col_loop NumPy1 (Exact.bytes_target cp) (Exact.total_bytes cp eb) eb ui
         a start row cols st)
      = Exact.col_loop cp eb a start row cols (exact_state st) /\
    Decrypt.raised
      (Decrypt.col_loop NumPy1 (Exact.bytes_target cp) (Exact.total_bytes cp eb) eb ui
         a start row cols st) = None.
Proof.
  induction cols as [|col cols IH]; intros st Hr; [split; [reflexivity|exact Hr]|].
  cbn [Decrypt.col_loop Exact.col_loop].
  destruct (_ <? start); [now apply IH|].
  change (Exact.bytes_written (exact_state st)) with (Decrypt.bytes_written st).
  destruct (_ <=? _).
  - destruct (exact_write_extra st (cells a row col)) as (-> & ->). now split.
  - destruct (exact_write_complete st (cells a row col)) as (He & Hr').
    rewrite Hr in Hr'. rewrite Hr'. rewrite <- He. now apply IH.
Qed.

Lemma exact_stops st :
  Decrypt.raised st = None ->
  Decrypt.stops (Exact.total_bytes cp eb) st
  = (Exact.total_bytes cp eb <=? Exact.bytes_written (exact_state st)).
Proof. intros Hr. unfold Decrypt.stops. now rewrite Hr. Qed.

Lemma exact_row_loop a start rows :
  forall st,
    Decrypt.raised st = None ->
    exact_state
      (Decrypt.row_loop NumPy1 (Exact.bytes_target cp) (Exact.total_bytes cp eb) eb ui
         a start rows st)
      = Exact.row_loop cp eb a start rows (exact_state st) /\
    Decrypt.raised
      (Decrypt.row_loop NumPy1 (Exact.bytes_target cp) (Exact.total_bytes cp eb) eb ui
         a start rows st) = None.
Proof.
  induction rows as [|row rows IH]; intros st Hr; [split; [reflexivity|exact Hr]|].
  cbn [Decrypt.row_loop Exact.row_loop].
  destruct (exact_col_loop a start row (range (width a)) st Hr) as (He & Hr').
  rewrite (exact_stops _ Hr'), He.
  destruct (_ <=? _); [now split|].
  rewrite <- He. now apply IH.
Qed.

Lemma exact_file_loop files :
  forall idx st,
    Decrypt.raised st = None ->
    exact_state
      (Decrypt.file_loop NumPy1 (Exact.bytes_target cp) (Exact.total_bytes cp eb) eb ui
         idx files st)
      = Exact.file_loop cp eb idx files (exact_state st) /\
    Decrypt.raised
      (Decrypt.file_loop NumPy1 (Exact.bytes_target cp) (Exact.total_bytes cp eb) eb ui
         idx files st) = None.
Proof.
  induction files as [|a rest IH]; intros idx st Hr; [split; [reflexivity|exact Hr]|].
  cbn [Decrypt.file_loop Exact.file_loop].
  destruct (exact_row_loop a (if idx =? 1 then 5 else 0) (range (height a)) st Hr)
    as (He & Hr').
  rewrite (exact_stops _ Hr'), He.
  destruct (_ <=? _); [now split|].
  rewrite <- He. now apply IH.
Qed.
End Bridge.

(** With NumPy 1.x and a header that declares less than 2^63 bytes, the run
    of the code is the run on the numbers of the header. *)
Lemma decrypt_exact files dest H eb :
  Forall uint8_array files ->
  header_field files = Some (H, eb) ->
  H * 3 + 32 < 2 ^ 63 ->
  Decrypt.decrypt_single_file NumPy1 files dest = Exact.decrypt_single_file files dest.
Proof.
  intros Hfiles Hh Hsmall.
  destruct (header_field_range files H eb Hfiles Hh) as (HH & Heb).
  pose proof (parse_header_field NumPy1 files H eb Hfiles Hh) as Hp.
  destruct (targets_exact H eb ltac:(lia) Heb Hsmall) as (Hw & Htgt & Htot).
  rewrite Hw in Hp.
  destruct files as [|a rest]; [reflexivity|].
  cbn [header_field parse_header] in Hh, Hp.
  unfold Decrypt.decrypt_single_file, Exact.decrypt_single_file.
  destruct (Decrypt.read_header a (range 5)) as [e|hp]; [reflexivity|].
  replace (decode_header NumPy1 hp) with (H, eb) by congruence.
  replace (Exact.decode_header hp) with (H, eb) by congruence.
  destruct dest as [old|]; [reflexivity|].
  cbv zeta. rewrite Htgt, Htot.
  destruct (exact_file_loop H eb (Decrypt.update_interval (Exact.total_bytes H eb))
              (a :: rest) 1 (Decrypt.WState 0 [] 0 0 None) eq_refl) as (He & Hr).
  rewrite Hr. change (Exact.WState 0 [] 0) with (exact_state (Decrypt.WState 0 [] 0 0 None)).
  rewrite <- He. reflexivity.
Qed.

(** ** Every run of the loops, under either NumPy *)

Ltac grown :=
  split;
  [ rewrite <- ?app_assoc; eexists; split;
    [ first [reflexivity | symmetry; apply app_nil_r]
    | unfold len; cbn [length app]; lia ]
  | repeat split; auto; lia ].

Section Loops.
Variable np : numpy.
Variables tgt tot eb ui : Z.

Lemma update_progress_spec st :
  Decrypt.bytes_written (Decrypt.update_progress np tot ui st) = Decrypt.bytes_written st /\
  Decrypt.out_file (Decrypt.update_progress np tot ui st) = Decrypt.out_file st /\
  Decrypt.pixels_read (Decrypt.update_progress np tot ui st) = Decrypt.pixels_read st /\
  (Decrypt.raised (Decrypt.update_progress np tot ui st) = Decrypt.raised st \/
   Decrypt.raised (Decrypt.update_progress np tot ui st) = Some Decrypt.OverflowError) /\
  (np = NumPy1 ->
   Decrypt.raised (Decrypt.update_progress np tot ui st) = Decrypt.raised st).
Proof.
  unfold Decrypt.update_progress.
  destruct (_ || _); [|repeat split; auto].
  destruct np; cbn [print_bytes_progress_raises].
  - repeat split; auto.
  - destruct (_ && _); repeat split; auto. discriminate.
Qed.

Lemma advances_refl st : advances np tgt tot st st.
Proof.
  unfold advances. split; [exists []; rewrite app_nil_r, len_nil; repeat split; lia|].
  repeat split; auto; lia.
Qed.

Lemma advances_trans st1 st2 st3 :
  advances np tgt tot st1 st2 -> advances np tgt tot st2 st3 ->
  advances np tgt tot st1 st3.
Proof.
  intros ((w1 & Ho1 & Hb1 & Hl1) & Hp1 & Hm1 & Hr1 & Hn1)
         ((w2 & Ho2 & Hb2 & Hl2) & Hp2 & Hm2 & Hr2 & Hn2).
  unfold advances. split.
  - exists (w1 ++ w2). rewrite Ho2, Ho1, app_assoc, len_app. repeat split; lia.
  - split; [lia|]. split; [lia|]. split.
    + destruct Hr2 as [Hr2|Hr2]; [rewrite Hr2; exact Hr1 | now right].
    + intros Hnp. rewrite Hn2, Hn1; auto.
Qed.

Lemma write_complete_reads st p :
  Decrypt.pixels_read (Decrypt.write_complete np tgt tot ui st p)
  = Decrypt.pixels_read st + 1.
Proof.
  unfold Decrypt.write_complete. cbv zeta.
  match goal with
  | |- context [Decrypt.update_progress _ _ _ ?s] =>
    destruct (update_progress_spec s) as (_ & _ & -> & _)
  end.
  destruct st as [bw out pr lu ra]. split_tests; reflexivity.
Qed.

Lemma write_extra_reads st p :
  Decrypt.pixels_read st <= Decrypt.pixels_read (Decrypt.write_extra tot eb st p)
  <= Decrypt.pixels_read st + 1.
Proof.
  unfold Decrypt.write_extra. cbv zeta.
  destruct st as [bw out pr lu ra]. split_tests; lia.
Qed.

Lemma write_complete_advances st p :
  advances np tgt tot st (Decrypt.write_complete np tgt tot ui st p).
Proof.
  unfold Decrypt.write_complete. cbv zeta.
  match goal with
  | |- context [Decrypt.update_progress _ _ _ ?s] =>
    destruct (update_progress_spec s) as (Ubw & Uout & Upr & Ura & Ura1);
    assert (advances np tgt tot st s) as A
  end.
  { destruct st as [bw out pr lu ra]. unfold advances. split_tests; grown. }
  unfold advances in *. rewrite Ubw, Uout, Upr.
  destruct A as (A1 & A2 & A3 & A4 & A5).
  split; [exact A1|]. split; [exact A2|]. split; [exact A3|]. split.
  - destruct Ura as [Ura|Ura]; [rewrite Ura; exact A4 | now right].
  - intros Hnp. rewrite Ura1, A5; auto.
Qed.

Lemma write_extra_advances st p :
  advances np tgt tot st (Decrypt.write_extra tot eb st p).
Proof.
  unfold Decrypt.write_extra. cbv zeta.
  destruct st as [bw out pr lu ra]. unfold advances. split_tests; grown.
Qed.

Lemma col_loop_advances a start row cols :
  forall st,
    advances np tgt tot st (Decrypt.col_loop np tgt tot eb ui a start row cols st).
Proof.
  induction cols as [|col cols IH]; intros st; [apply advances_refl|].
  cbn [Decrypt.col_loop].
  destruct (_ <? start); [apply IH|].
  destruct (_ <=? _); [apply write_extra_advances|].
  pose proof (write_complete_advances st (cells a row col)) as A.
  destruct (Decrypt.raised _); [exact A|].
  eapply advances_trans; [exact A | apply IH].
Qed.

Lemma row_loop_advances a start rows :
  forall st,
    advances np tgt tot st (Decrypt.row_loop np tgt tot eb ui a start rows st).
Proof.
  induction rows as [|row rows IH]; intros st; [apply advances_refl|].
  cbn [Decrypt.row_loop].
  pose proof (col_loop_advances a start row (range (width a)) st) as A.
  destruct (Decrypt.stops _ _); [exact A|].
  eapply advances_trans; [exact A | apply IH].
Qed.

Lemma file_loop_advances files :
  forall idx st,
    advances np tgt tot st (Decrypt.file_loop np tgt tot eb ui idx files st).
Proof.
  induction files as [|a rest IH]; intros idx st; [apply advances_refl|].
  cbn [Decrypt.file_loop].
  pose proof (row_loop_advances a (if idx =? 1 then 5 else 0) (range (height a)) st) as A.
  destruct (Decrypt.stops _ _); [exact A|].
  eapply advances_trans; [exact A | apply IH].
Qed.

(** *** Once both targets are reached nothing is read or written *)

Lemma write_extra_done st p : targets_reached tgt tot eb st -> Decrypt.write_extra tot eb st p = st.
Proof.
  intros (_ & Hd). unfold Decrypt.write_extra.
  destruct (Z.ltb_spec 0 eb); cbn [andb]; [|reflexivity].
  destruct (Z.ltb_spec (Decrypt.bytes_written st) tot); [lia|reflexivity].
Qed.

Lemma col_loop_done a start row cols st :
  targets_reached tgt tot eb st -> Decrypt.col_loop np tgt tot eb ui a start row cols st = st.
Proof.
  intros Hd. induction cols as [|col cols IH]; [reflexivity|].
  cbn [Decrypt.col_loop].
  destruct (_ <? start); [exact IH|].
  destruct (Z.leb_spec tgt (Decrypt.bytes_written st)); [|destruct Hd; lia].
  now apply write_extra_done.
Qed.

Lemma row_loop_done a start rows st :
  targets_reached tgt tot eb st -> Decrypt.row_loop np tgt tot eb ui a start rows st = st.
Proof.
  intros Hd. induction rows as [|row rows IH]; [reflexivity|].
  cbn [Decrypt.row_loop]. rewrite col_loop_done by exact Hd.
  destruct (Decrypt.stops _ _); [reflexivity|exact IH].
Qed.

Lemma file_loop_done files :
  forall idx st, targets_reached tgt tot eb st -> Decrypt.file_loop np tgt tot eb ui idx files st = st.
Proof.
  induction files as [|a rest IH]; intros idx st Hd; [reflexivity|].
  cbn [Decrypt.file_loop]. rewrite row_loop_done by exact Hd.
  destruct (Decrypt.stops _ _); [reflexivity|now apply IH].
Qed.

(** Images after the one that completes the file are never opened. *)
Lemma file_loop_complete files extra :
  forall idx st,
    targets_reached tgt tot eb (Decrypt.file_loop np tgt tot eb ui idx files st) ->
    Decrypt.file_loop np tgt tot eb ui idx (files ++ extra) st
    = Decrypt.file_loop np tgt tot eb ui idx files st.
Proof.
  induction files as [|a rest IH]; intros idx st Hd.
  - cbn [app Decrypt.file_loop] in *. now apply file_loop_done.
  - cbn [app Decrypt.file_loop] in *.
    destruct (Decrypt.stops _ _); [reflexivity|]. now apply IH.
Qed.

(** The output on a longer series starts with the output on the shorter. *)
Lemma file_loop_prefix files extra :
  forall idx st,
    exists w,
      Decrypt.out_file (Decrypt.file_loop np tgt tot eb ui idx (files ++ extra) st)
      = Decrypt.out_file (Decrypt.file_loop np tgt tot eb ui idx files st) ++ w.
Proof.
  induction files as [|a rest IH]; intros idx st.
  - cbn [app Decrypt.file_loop].
    destruct (file_loop_advances extra idx st) as ((w & Hw & _) & _). now exists w.
  - cbn [app Decrypt.file_loop].
    destruct (Decrypt.stops _ _); [exists []; now rewrite app_nil_r|]. apply IH.
Qed.

(** *** No more pixels are read than the rasters have *)

Lemma col_loop_reads a start row m :
  forall c st,
    Decrypt.pixels_read (Decrypt.col_loop np tgt tot eb ui a start row (zrange c m) st)
    <= Decrypt.pixels_read st
       + Z.max 0 (row * width a + c + Z.of_nat m - Z.max (row * width a + c) start).
Proof.
  induction m as [|m IH]; intros c st; [cbn [zrange Decrypt.col_loop]; lia|].
  cbn [zrange Decrypt.col_loop].
  destruct (Z.ltb_spec (row * width a + c) start).
  - specialize (IH (c + 1) st). lia.
  - destruct (_ <=? _).
    + pose proof (write_extra_reads st (cells a row c)). lia.
    + pose proof (write_complete_reads st (cells a row c)) as Hr.
      destruct (Decrypt.raised _); [lia|].
      specialize (IH (c + 1) (Decrypt.write_complete np tgt tot ui st (cells a row c))).
      lia.
Qed.

Lemma row_loop_reads a start k :
  forall r st,
    Decrypt.pixels_read (Decrypt.row_loop np tgt tot eb ui a start (zrange r k) st)
    <= Decrypt.pixels_read st
       + Z.max 0 ((r + Z.of_nat k) * Z.max 0 (width a)
                  - Z.max (r * Z.max 0 (width a)) start).
Proof.
  induction k as [|k IH]; intros r st; [cbn [zrange Decrypt.row_loop]; lia|].
  cbn [zrange Decrypt.row_loop].
  pose proof (col_loop_reads a start r (Z.to_nat (width a)) 0 st) as Hc.
  fold (range (width a)) in Hc.
  set (st1 := Decrypt.col_loop np tgt tot eb ui a start r (range (width a)) st) in *.
  assert (Hrow : Decrypt.pixels_read st1
                 <= Decrypt.pixels_read st
                    + Z.max 0 ((r + 1) * Z.max 0 (width a)
                               - Z.max (r * Z.max 0 (width a)) start)).
  { destruct (Z.le_gt_cases (width a) 0) as [Hw|Hw].
    - replace (Z.to_nat (width a)) with 0%nat in Hc by lia. lia.
    - rewrite Z2Nat.id in Hc by lia. rewrite (Z.max_r 0 (width a)) by lia. lia. }
  destruct (Decrypt.stops tot st1).
  - assert (0 <= Z.of_nat (S k) * Z.max 0 (width a)) by lia. nia.
  - specialize (IH (r + 1) st1).
    assert (0 <= Z.of_nat k * Z.max 0 (width a)) by lia. nia.
Qed.

Lemma file_loop_reads files :
  forall idx st,
    Decrypt.pixels_read (Decrypt.file_loop np tgt tot eb ui idx files st)
    <= Decrypt.pixels_read st + series_capacity idx files.
Proof.
  induction files as [|a rest IH]; intros idx st; [cbn; lia|].
  cbn [Decrypt.file_loop series_capacity].
  pose proof (row_loop_reads a (if idx =? 1 then 5 else 0) (Z.to_nat (height a)) 0 st) as Hr.
  fold (range (height a)) in Hr.
  set (st1 := Decrypt.row_loop np tgt tot eb ui a _ (range (height a)) st) in *.
  assert (Himg : Decrypt.pixels_read st1
                 <= Decrypt.pixels_read st + capacity a (if idx =? 1 then 5 else 0)).
  { unfold capacity. replace (Z.of_nat (Z.to_nat (height a))) with (Z.max 0 (height a)) in Hr
      by lia.
    destruct (idx =? 1); lia. }
  assert (0 <= series_capacity (idx + 1) rest).
  { clear. generalize (idx + 1). induction rest as [|b rest IH]; intros i; cbn; [lia|].
    specialize (IH (i + 1)). unfold capacity. lia. }
  destruct (Decrypt.stops tot st1); [lia|].
  specialize (IH (idx + 1) st1). lia.
Qed.
End Loops.

(** ** Padding cells are never read *)

Section Padding.
Variable np : numpy.
Variables tgt tot eb ui : Z.
Hypothesis Htot : tot <= tgt + ceil_div eb 8.
Hypothesis Heb : 0 <= eb <= 24.

Lemma extra_bytes_small : 0 <= ceil_div eb 8 <= 3 /\ (eb = 0 -> ceil_div eb 8 = 0).
Proof.
  pose proof (ceil_div_bounds eb 8 ltac:(lia)). split; [lia|].
  intros ->. reflexivity.
Qed.

Lemma pending_nonneg st : 0 <= pending tgt tot eb st.
Proof.
  unfold pending. destruct (Decrypt.raised st); [lia|].
  destruct (Z.ltb_spec (Decrypt.bytes_written st) tgt);
    destruct (_ && _); try lia.
  all: assert (0 <= (tgt - Decrypt.bytes_written st + 2) / 3)
    by (apply Z.div_pos; lia); lia.
Qed.

Lemma pending_complete st p :
  Decrypt.raised st = None -> Decrypt.bytes_written st < tgt ->
  pending tgt tot eb (Decrypt.write_complete np tgt tot ui st p)
  <= pending tgt tot eb st - 1.
Proof.
  intros Hr Hlt.
  assert (Hge : 1 <= pending tgt tot eb st).
  { unfold pending. rewrite Hr.
    destruct (Z.ltb_spec (Decrypt.bytes_written st) tgt); [|lia].
    assert (1 <= (tgt - Decrypt.bytes_written st + 2) / 3)
      by (apply Z.div_le_lower_bound; lia).
    destruct (_ && _); lia. }
  unfold Decrypt.write_complete. cbv zeta.
  match goal with
  | |- context [Decrypt.update_progress _ _ _ ?s] =>
    destruct (update_progress_spec np tot ui s) as (Ubw & _ & _ & Ura & _);
    set (s3 := s) in *
  end.
  unfold pending at 1. rewrite Ubw.
  destruct Ura as [Ura|Ura]; rewrite Ura; [|lia].
  assert (Hs3 : Decrypt.raised s3 = None /\
                (Decrypt.bytes_written s3 = Decrypt.bytes_written st + 3 /\
                 Decrypt.bytes_written st + 3 <= tgt
                 \/ Decrypt.bytes_written s3 = tgt /\ tgt < Decrypt.bytes_written st + 3)).
  { subst s3. destruct st as [bw out pr lu ra]. cbn in Hr, Hlt. subst ra.
    split_tests; split; auto; lia. }
  destruct Hs3 as (-> & Hs3).
  unfold pending. rewrite Hr.
  destruct (Z.ltb_spec (Decrypt.bytes_written st) tgt); [|lia].
  replace (Z.max (Decrypt.bytes_written st) tgt) with tgt by lia.
  replace (Z.max (Decrypt.bytes_written s3) tgt) with tgt by lia.
  destruct ((0 <? eb) && (tgt <? tot));
    destruct (Z.ltb_spec (Decrypt.bytes_written s3) tgt);
    Z.div_mod_to_equations; lia.
Qed.

Lemma pending_extra st p :
  Decrypt.raised st = None -> tgt <= Decrypt.bytes_written st ->
  targets_reached tgt tot eb (Decrypt.write_extra tot eb st p) /\
  Decrypt.raised (Decrypt.write_extra tot eb st p) = None /\
  (pending tgt tot eb st <= 0 -> Decrypt.write_extra tot eb st p = st).
Proof.
  intros Hr Hge. destruct extra_bytes_small as (Hc & Hc0).
  unfold pending, targets_reached. rewrite Hr.
  destruct (Z.ltb_spec (Decrypt.bytes_written st) tgt); [lia|].
  replace (Z.max (Decrypt.bytes_written st) tgt) with (Decrypt.bytes_written st) by lia.
  unfold Decrypt.write_extra. cbv zeta.
  destruct st as [bw out pr lu ra]. cbn in Hr, Hge, H. subst ra.
  split_tests; repeat split; auto; lia.
Qed.

Lemma done_stops st :
  targets_reached tgt tot eb st -> Decrypt.stops tot st = true.
Proof.
  intros (Hd1 & Hd2). destruct extra_bytes_small as (Hc & Hc0).
  unfold Decrypt.stops. destruct (Decrypt.raised st); [reflexivity|].
  apply Z.leb_le. destruct Hd2 as [Hd2|Hd2]; [|exact Hd2].
  assert (eb = 0) as E by lia. rewrite (Hc0 E) in Htot. lia.
Qed.

Section TwoImages.
Variables a1 a2 : ndarray.
Variables start n later : Z.
Hypothesis Hwidth : width a1 = width a2.
Hypothesis Hsame : forall j, 0 <= j < n -> cell a1 j = cell a2 j.
Hypothesis Hstart : 0 <= start.
Hypothesis Hlater : 0 <= later.

Lemma col_loop_same row m :
  forall c st,
    0 <= c -> c + Z.of_nat m <= width a1 ->
    (later = 0 \/ row * width a1 + c + Z.of_nat m <= n) ->
    Decrypt.raised st = None ->
    pending tgt tot eb st <= Z.max 0 (n - Z.max (row * width a1 + c) start) + later ->
    Decrypt.col_loop np tgt tot eb ui a2 start row (zrange c m) st
    = Decrypt.col_loop np tgt tot eb ui a1 start row (zrange c m) st /\
    stops_or_pending tgt tot eb
      (Z.max 0 (n - Z.max (row * width a1 + c + Z.of_nat m) start) + later)
      (Decrypt.col_loop np tgt tot eb ui a1 start row (zrange c m) st).
Proof.
  induction m as [|m IH]; intros c st Hc Hcm Hfull Hr Hp.
  - cbn [zrange Decrypt.col_loop]. split; [reflexivity|]. right.
    split; [exact Hr|]. rewrite Z.add_0_r. exact Hp.
  - cbn [zrange Decrypt.col_loop]. rewrite <- Hwidth.
    destruct (Z.ltb_spec (row * width a1 + c) start) as [Hskip|Hpay].
    + replace (row * width a1 + c + Z.of_nat (S m))
        with (row * width a1 + (c + 1) + Z.of_nat m) by lia.
      apply IH; auto; try lia.
    + assert (Hcell : 1 <= pending tgt tot eb st -> cells a2 row c = cells a1 row c).
      { intros Hone.
        rewrite <- (cell_cells a1 row c) by lia.
        rewrite <- (cell_cells a2 row c) by lia.
        rewrite <- Hwidth. symmetry. apply Hsame. lia. }
      destruct (Z.leb_spec tgt (Decrypt.bytes_written st)) as [Hx|Hx].
      * destruct (pending_extra st (cells a1 row c) Hr Hx) as (Hd1 & Hr1 & Hid1).
        destruct (pending_extra st (cells a2 row c) Hr Hx) as (_ & _ & Hid2).
        destruct (Z.le_gt_cases (pending tgt tot eb st) 0) as [Hz|Hnz].
        -- rewrite Hid2, Hid1 by exact Hz. split; [reflexivity|].
           left. rewrite <- (Hid1 Hz). now apply done_stops.
        -- rewrite Hcell by lia. split; [reflexivity|]. left. now apply done_stops.
      * assert (Hone : 1 <= pending tgt tot eb st).
        { unfold pending. rewrite Hr.
          destruct (Z.ltb_spec (Decrypt.bytes_written st) tgt); [|lia].
          assert (1 <= (tgt - Decrypt.bytes_written st + 2) / 3)
            by (apply Z.div_le_lower_bound; lia).
          destruct (_ && _); lia. }
        rewrite (Hcell Hone).
        pose proof (pending_complete st (cells a1 row c) Hr Hx) as Hdec.
        set (st1 := Decrypt.write_complete np tgt tot ui st (cells a1 row c)) in *.
        destruct (Decrypt.raised st1) as [e|] eqn:Hr1.
        -- split; [reflexivity|]. left. unfold Decrypt.stops. now rewrite Hr1.
        -- replace (row * width a1 + c + Z.of_nat (S m))
             with (row * width a1 + (c + 1) + Z.of_nat m) by lia.
           apply IH; auto; try lia.
Qed.

Lemma row_loop_same k :
  forall r st,
    0 <= r -> 0 <= width a1 ->
    (later = 0 \/ (r + Z.of_nat k) * width a1 <= n) ->
    Decrypt.raised st = None ->
    pending tgt tot eb st <= Z.max 0 (n - Z.max (r * width a1) start) + later ->
    Decrypt.row_loop np tgt tot eb ui a2 start (zrange r k) st
    = Decrypt.row_loop np tgt tot eb ui a1 start (zrange r k) st /\
    stops_or_pending tgt tot eb
      (Z.max 0 (n - Z.max ((r + Z.of_nat k) * width a1) start) + later)
      (Decrypt.row_loop np tgt tot eb ui a1 start (zrange r k) st).
Proof.
  induction k as [|k IH]; intros r st Hr0 Hw Hfull Hr Hp.
  - cbn [zrange Decrypt.row_loop]. split; [reflexivity|]. right.
    split; [exact Hr|]. rewrite Z.add_0_r. exact Hp.
  - cbn [zrange Decrypt.row_loop]. rewrite <- Hwidth. unfold range.
    assert (Hcols : later = 0 \/ r * width a1 + 0 + Z.of_nat (Z.to_nat (width a1)) <= n).
    { destruct Hfull as [Hfull|Hfull]; [now left|right]. nia. }
    assert (Hp0 : pending tgt tot eb st
                  <= Z.max 0 (n - Z.max (r * width a1 + 0) start) + later)
      by (rewrite Z.add_0_r; exact Hp).
    destruct (col_loop_same r (Z.to_nat (width a1)) 0 st ltac:(lia) ltac:(lia) Hcols Hr Hp0)
      as (Hcol & Hafter).
    rewrite Hcol.
    set (st1 := Decrypt.col_loop np tgt tot eb ui a1 start r
                  (zrange 0 (Z.to_nat (width a1))) st) in *.
    rewrite Z2Nat.id in Hafter by lia.
    destruct (Decrypt.stops tot st1) eqn:Hstop.
    + split; [reflexivity|]. now left.
    + destruct Hafter as [Hafter|(Hr1 & Hp1)]; [congruence|].
      replace ((r + Z.of_nat (S k)) * width a1)
        with ((r + 1 + Z.of_nat k) * width a1) by lia.
      apply IH; auto; lia.
Qed.
End TwoImages.

Lemma file_loop_same content :
  Forall is_uint8 content -> exact_count (len content) ->
  forall m k units files st,
    0 <= k -> k + Z.of_nat m = Encrypt.num_images (len content) ->
    Forall2 (unit_spec content) (zrange k m) units ->
    padding_variant units files ->
    Decrypt.raised st = None ->
    pending tgt tot eb st <= payload_from content k ->
    Decrypt.file_loop np tgt tot eb ui (k + 1) files st
    = Decrypt.file_loop np tgt tot eb ui (k + 1) (Encrypt.series units) st.
Proof.
  intros Hbytes Hq.
  pose proof (partition_facts (len content) (len_nonneg content) Hq) as F. cbv zeta in F.
  destruct F as (_ & _ & _ & _ & _ & _ & HK1 & HK & HM).
  induction m as [|m IH]; intros k units files st Hk0 Hk Hall Hvar Hr Hp.
  - inversion Hall; subst. inversion Hvar; subst. reflexivity.
  - pose proof (units_carry content Hbytes Hq (S m) k units Hk0 Hk Hall) as Hcarry.
    cbn [zrange] in *.
    inversion Hall as [|? u ? rest (Hpix & Hras) Hrest]; subst.
    inversion Hvar as [|? a ? files' (Hh & Hw & Hsame) Hvar']; subst.
    cbn [Encrypt.series map] in Hcarry.
    inversion Hcarry as [|? ? ? ? ((Hh0 & Hw0 & Hfit & _) & Hfull) _]; subst.
    pose proof (spec_pixels_len content k Hq ltac:(lia)) as Hlen.
    cbn [Encrypt.series map Decrypt.file_loop]. rewrite Hh. unfold range.
    set (arr := Encrypt.img_array u) in *.
    set (start := if k + 1 =? 1 then 5 else 0).
    assert (Hstart : 0 <= start) by (unfold start; destruct (k + 1 =? 1); lia).
    assert (Hlater : 0 <= payload_from content (k + 1)) by (unfold payload_from; lia).
    assert (Hrows : payload_from content (k + 1) = 0
                    \/ (0 + Z.of_nat (Z.to_nat (height arr))) * width arr
                       <= len (spec_pixels content k)).
    { destruct (Z.lt_ge_cases k (Encrypt.num_images (len content) - 1)) as [Hmid|Hlast].
      - right. rewrite (Hfull Hmid). rewrite Z2Nat.id by lia. lia.
      - left. unfold payload_from. rewrite HM in *. lia. }
    assert (Hp0 : pending tgt tot eb st
                  <= Z.max 0 (len (spec_pixels content k) - Z.max (0 * width arr) start)
                     + payload_from content (k + 1)).
    { rewrite Hlen. unfold payload_from in *. unfold start. rewrite HM in *.
      destruct (Z.eqb_spec (k + 1) 1); lia. }
    destruct (row_loop_same arr a start (len (spec_pixels content k))
                (payload_from content (k + 1)) (eq_sym Hw)
                ltac:(intros j Hj; symmetry; apply Hsame; rewrite Hpix; exact Hj)
                Hstart Hlater (Z.to_nat (height arr)) 0 st ltac:(lia) Hw0 Hrows Hr Hp0)
      as (Hsame_rows & Hafter).
    rewrite Hsame_rows.
    set (st1 := Decrypt.row_loop np tgt tot eb ui arr start
                  (zrange 0 (Z.to_nat (height arr))) st) in *.
    destruct (Decrypt.stops tot st1) eqn:Hstop; [reflexivity|].
    destruct Hafter as [Hafter|(Hr1 & Hp1)]; [congruence|].
    apply (IH (k + 1) rest files' st1); auto; lia.
Qed.
End Padding.

(** The header that the encoder wrote, as the code parses it. *)
Lemma decode_written_header np cp eb :
  0 <= cp < 2 ^ 96 -> is_uint8 eb ->
  decode_header np (create_header_pixels cp eb) = (wrap np cp, eb).
Proof.
  intros Hcp Heb.
  rewrite decode_header_wrap by now apply create_header_uint8.
  now rewrite decode_create_header.
Qed.

(** A series that differs from the written one only in padding cells is
    decoded to the same run, under either NumPy. *)
Lemma padding_neutral np content units files :
  valid_content content -> exact_count (len content) ->
  Encrypt.encrypt_file content = Some units ->
  padding_variant units files ->
  Decrypt.decrypt_single_file np files None
  = Decrypt.decrypt_single_file np (Encrypt.series units) None.
Proof.
  intros (Hbytes & Hsize) Hq Henc Hvar.
  pose proof (len_nonneg content) as Hn.
  pose proof (partition_facts (len content) Hn Hq) as F. cbv zeta in F.
  destruct F as (Hcp & Hn3 & Hr & Heb & HD & HT & HK1 & HK & HM).
  destruct (metadata_div3 (len content)) as (Hcp3 & _).
  destruct (encrypt_file_spec content Hq) as (units' & Henc' & Hunits).
  assert (units' = units) by congruence. subst units'.
  pose proof (variant_carries content Hbytes Hq
                (Z.to_nat (Encrypt.num_images (len content))) 0 units files
                ltac:(lia) ltac:(lia)
                Hunits Hvar) as Hc1.
  pose proof (units_carry content Hbytes Hq
                (Z.to_nat (Encrypt.num_images (len content))) 0 units
                ltac:(lia) ltac:(lia) Hunits) as Hc2.
  pose proof (file_loop_same np) as Hloop.
  destruct (Z.to_nat (Encrypt.num_images (len content))) as [|m] eqn:Em; [lia|].
  cbn [zrange] in Hc1, Hc2.
  inversion Hc1 as [|? a1 ? rest1 (Hholds1 & _) _]; subst.
  destruct (Encrypt.series units) as [|a2 rest2] eqn:Eser; [inversion Hc2|].
  inversion Hc2 as [|? ? ? ? (Hholds2 & _) _]; subst.
  unfold Decrypt.decrypt_single_file.
  assert (H5 : 5 <= len (spec_pixels content 0))
    by (rewrite spec_pixels_len by (auto; lia); lia).
  rewrite (read_header_first a1 (spec_pixels content 0) Hholds1 H5).
  rewrite (read_header_first a2 (spec_pixels content 0) Hholds2 H5).
  rewrite spec_pixels_header.
  assert (Hebu : is_uint8 (Encrypt.extra_bits (len content))) by (unfold is_uint8; lia).
  rewrite decode_written_header by (auto; lia).
  cbv zeta.
  destruct (targets_le np (Encrypt.complete_pixels (len content))
              (Encrypt.extra_bits (len content)) Hcp Hebu) as (Ht1 & Ht2 & Ht3 & Ht4).
  set (tgt := Decrypt.bytes_target np _) in *.
  set (tot := Decrypt.total_bytes np _ _) in *.
  rewrite <- Eser.
  assert (Hp0 : pending tgt tot (Encrypt.extra_bits (len content))
                  (Decrypt.WState 0 [] 0 0 None) <= payload_from content 0).
  { unfold pending, payload_from.
    cbn [Decrypt.raised Decrypt.bytes_written].
    change (0 * Encrypt.max_pixels_per_image) with 0.
    rewrite HT.
    destruct (Z.ltb_spec 0 (Encrypt.extra_bits (len content))); cbn [andb];
      destruct (Z.ltb_spec 0 tgt); try destruct (_ <? tot);
      Z.div_mod_to_equations; lia. }
  pose proof (Hloop tgt tot (Encrypt.extra_bits (len content)) (Decrypt.update_interval tot)
                Ht3 ltac:(lia) content Hbytes Hq (S m) 0 units (a1 :: rest1)
                (Decrypt.WState 0 [] 0 0 None) ltac:(lia) ltac:(lia) Hunits Hvar eq_refl Hp0)
    as E.
  change (0 + 1) with 1 in E. rewrite E. reflexivity.
Qed.

(** ** The encoder on a file of any size *)

Lemma ceil_quotient_pos a b : 0 < a -> 0 < b -> 1 <= ceil_quotient a b.
Proof.
  intros Ha Hb. unfold ceil_quotient, quotient_exponent.
  destruct (Z.leb_spec b a) as [Hba|Hab].
  - assert (Hq : 0 < a / b) by (apply Z.div_str_pos; lia).
    pose proof (Z.log2_spec (a / b) Hq) as (Hlo & _).
    pose proof (Z.log2_nonneg (a / b)) as He.
    set (e := Z.log2 (a / b)) in *.
    assert (Hab : 2 ^ e * b <= a).
    { pose proof (Z.mul_div_le a b Hb). nia. }
    destruct (Z.leb_spec 0 (52 - e)).
    + assert (Hp : 0 < 2 ^ (52 - e)) by (apply Z.pow_pos_nonneg; lia).
      pose proof (div_nearest_even_bounds (a * 2 ^ (52 - e)) b Hb) as Hd.
      assert (1 <= a * 2 ^ (52 - e) / b) by (apply Z.div_le_lower_bound; nia).
      pose proof (ceil_div_bounds (div_nearest_even (a * 2 ^ (52 - e)) b) (2 ^ (52 - e)) Hp).
      nia.
    + replace (- (52 - e)) with (e - 52) by lia.
      assert (Hp : 0 < 2 ^ (e - 52)) by (apply Z.pow_pos_nonneg; lia).
      assert (Hsplit : 2 ^ e = 2 ^ 52 * 2 ^ (e - 52)).
      { rewrite <- Z.pow_add_r by lia. f_equal. lia. }
      pose proof (div_nearest_even_bounds a (b * 2 ^ (e - 52)) ltac:(nia)) as Hd.
      assert (1 <= a / (b * 2 ^ (e - 52))) by (apply Z.div_le_lower_bound; nia).
      nia.
  - assert (Hc : 2 <= ceil_div b a).
    { pose proof (ceil_div_bounds b a Ha). nia. }
    pose proof (Z.log2_up_spec (ceil_div b a) ltac:(lia)) as (_ & Hup).
    pose proof (Z.log2_up_nonneg (ceil_div b a)) as Hk.
    set (k := Z.log2_up (ceil_div b a)) in *.
    replace (52 - - k) with (52 + k) by lia.
    destruct (Z.leb_spec 0 (52 + k)); [|lia].
    assert (Hp : 0 < 2 ^ (52 + k)) by (apply Z.pow_pos_nonneg; lia).
    assert (Hsplit : 2 ^ (52 + k) = 2 ^ 52 * 2 ^ k) by (apply Z.pow_add_r; lia).
    assert (Hbk : b <= a * 2 ^ k).
    { pose proof (ceil_div_bounds b a Ha). nia. }
    pose proof (div_nearest_even_bounds (a * 2 ^ (52 + k)) b Hb) as Hd.
    assert (1 <= a * 2 ^ (52 + k) / b) by (apply Z.div_le_lower_bound; nia).
    pose proof (ceil_div_bounds (div_nearest_even (a * 2 ^ (52 + k)) b) (2 ^ (52 + k)) Hp).
    nia.
Qed.

Lemma num_images_pos n : 0 <= n -> 1 <= Encrypt.num_images n.
Proof.
  intros Hn. unfold Encrypt.num_images.
  pose proof (total_pixels_pos n Hn).
  apply ceil_quotient_pos; [lia | reflexivity].
Qed.

(** No raster write raises: the loop produces an image for every number. *)
Lemma image_loop_total file_size image_nums :
  forall f, exists units, Encrypt.image_loop file_size image_nums f = Some units.
Proof.
  induction image_nums as [|k image_nums IH]; intros f; [now exists []|].
  cbn [Encrypt.image_loop].
  destruct (Encrypt.build_pixels file_size k f) as (pixels & f').
  destruct (raster_spec pixels) as (arr & -> & _).
  destruct (IH f') as (units & ->). eauto.
Qed.

(** The first image starts with the header, whatever the size of the file. *)
Lemma first_image content :
  Forall is_uint8 content ->
  exists u rest,
    Encrypt.encrypt_file content = Some (u :: rest) /\
    take 5 (Encrypt.image_pixels u)
    = create_header_pixels (Encrypt.complete_pixels (len content))
                           (Encrypt.extra_bits (len content)) /\
    holds (Encrypt.img_array u) (Encrypt.image_pixels u) /\
    5 <= len (Encrypt.image_pixels u).
Proof.
  intros Hbytes. unfold Encrypt.encrypt_file, range.
  pose proof (num_images_pos (len content) (len_nonneg content)) as HK.
  destruct (Z.to_nat (Encrypt.num_images (len content))) as [|m] eqn:Em; [lia|].
  cbn [zrange Encrypt.image_loop].
  unfold Encrypt.build_pixels. cbn [Z.eqb].
  pose proof (read_chunk_spec (Encrypt.bytes_to_read (len content) 0) content) as Hchunk.
  destruct (Encrypt.read_chunk (Encrypt.bytes_to_read (len content) 0) content)
    as (chunk & f').
  set (pixels := create_header_pixels _ _ ++ Encrypt.bytes_to_pixels chunk).
  destruct (raster_spec pixels) as (arr & Hr & _). rewrite Hr.
  destruct (image_loop_total (len content) (zrange (0 + 1) m) f') as (units & ->).
  exists (Encrypt.ImageUnit pixels arr), units. cbn [Encrypt.image_pixels Encrypt.img_array].
  split; [reflexivity|]. split; [reflexivity|].
  assert (Hpx : Forall is_uint8_pixel pixels).
  { unfold pixels. apply Forall_app. split.
    - apply create_header_uint8.
      destruct (extra_bits_values (len content)) as [-> | [-> | ->]]; unfold is_uint8; lia.
    - apply bytes_to_pixels_uint8.
      assert (chunk = take (Z.to_nat (Encrypt.bytes_to_read (len content) 0)) content)
        as -> by congruence.
      now apply Forall_take. }
  split; [apply (raster_holds pixels arr Hpx Hr)|].
  unfold pixels. rewrite len_app. pose proof (len_nonneg (Encrypt.bytes_to_pixels chunk)).
  change (len (create_header_pixels _ _)) with 5. lia.
Qed.

(** ** Images are arrays of uint8 *)

(** Every array that the encoder saves is a uint8 array. *)
Lemma uint8_pixel_range p : is_uint8_pixel (uint8_pixel p).
Proof.
  unfold is_uint8_pixel, uint8_pixel, uint8, is_uint8. cbn [red green blue].
  repeat split; apply Z.mod_pos_bound; lia.
Qed.

Lemma fill_uint8 size pixels :
  forall idx a a',
    uint8_array a -> Encrypt.fill size idx pixels a = Some a' -> uint8_array a'.
Proof.
  induction pixels as [|p pixels IH]; intros idx a a' Ha Hfill.
  - cbn in Hfill. now injection Hfill as <-.
  - cbn [Encrypt.fill] in Hfill. unfold setitem in Hfill.
    destruct (in_shape a _ _); [|discriminate].
    refine (IH _ _ _ _ Hfill).
    intros r c. cbn [cells]. destruct (_ && _); [apply uint8_pixel_range | apply Ha].
Qed.

Lemma raster_uint8 pixels arr : Encrypt.raster pixels = Some arr -> uint8_array arr.
Proof.
  unfold Encrypt.raster. apply fill_uint8.
  intros r c. cbn. unfold is_uint8_pixel, is_uint8. cbn. lia.
Qed.

Lemma image_loop_uint8 file_size image_nums :
  forall f units,
    Encrypt.image_loop file_size image_nums f = Some units ->
    Forall uint8_array (Encrypt.series units).
Proof.
  induction image_nums as [|k nums IH]; intros f units Hloop.
  - cbn in Hloop. injection Hloop as <-. constructor.
  - cbn [Encrypt.image_loop] in Hloop.
    destruct (Encrypt.build_pixels file_size k f) as [pixels f'].
    destruct (Encrypt.raster pixels) as [arr|] eqn:Hr; [|discriminate].
    destruct (Encrypt.image_loop file_size nums f') as [rest|] eqn:Hrest; [|discriminate].
    injection Hloop as <-. cbn [Encrypt.series map].
    constructor; [now apply (raster_uint8 pixels) | now apply (IH f')].
Qed.

Lemma encrypt_file_uint8 content units :
  Encrypt.encrypt_file content = Some units ->
  Forall uint8_array (Encrypt.series units).
Proof. apply image_loop_uint8. Qed.

(** ** The run on the numbers of the header *)

(** What holds at the end of the loops of every run. *)
Lemma run_counters files cp eb :
  Forall uint8_array files -> header_field files = Some (cp, eb) ->
  let st := Exact.file_loop cp eb 1 files (Exact.WState 0 [] 0) in
  counters_ok cp eb st /\
  Exact.pixels_read st <= series_capacity 1 files /\
  (eb <= 24 -> declared_pixels cp eb <= series_capacity 1 files ->
   Exact.bytes_written st = Exact.total_bytes cp eb).
Proof.
  intros Hfiles Hparse. cbn zeta.
  destruct (header_field_range files cp eb Hfiles Hparse) as (Hcp & Heb0 & Heb1).
  pose proof (counters_ok_init cp eb Hcp Heb0) as Hinit.
  destruct (file_loop_ok cp eb files 1 _ Hinit) as (Hok & Hpr). cbn zeta in Hok, Hpr.
  cbn [Exact.pixels_read] in Hpr.
  split; [exact Hok|]. split; [lia|].
  intros Heb Hcap. rewrite file_loop_cells by exact Heb.
  apply fold_step_completes; [exact Heb | exact Hinit |].
  rewrite series_cells_len. cbn [Exact.bytes_written].
  unfold Exact.total_bytes, declared_pixels in *.
  destruct (Z.ltb_spec 0 eb); [|lia].
  pose proof (ceil_div_bounds eb 8 ltac:(lia)). lia.
Qed.

Lemma write_complete_out cp eb st p :
  counters_ok cp eb st -> Exact.bytes_written st < Exact.bytes_target cp ->
  Exact.out_file (Exact.write_complete cp st p) = Exact.out_file st ++ channels p.
Proof.
  intros (Hlen & Hle & Hub & Hlb & Hmul) Hlt.
  pose proof (target_le_total cp eb) as Htt.
  specialize (Hmul ltac:(lia)).
  unfold Exact.write_complete. unfold Exact.bytes_target in *.
  step_cases. unfold channels. rewrite <- !app_assoc. reflexivity.
Qed.

Lemma write_extra_out cp eb st p :
  eb <= 24 -> counters_ok cp eb st ->
  Exact.bytes_target cp <= Exact.bytes_written st ->
  Exact.out_file (Exact.write_extra cp eb st p) =
    Exact.out_file st
    ++ take (Z.to_nat (Exact.total_bytes cp eb - Exact.bytes_written st)) (channels p).
Proof.
  intros Heb (Hlen & Hle & Hub & Hlb & Hmul) Hge.
  unfold Exact.write_extra.
  assert (Exact.total_bytes cp eb =
          Exact.bytes_target cp + (if 0 <? eb then ceil_div eb 8 else 0)) as Ht
    by reflexivity.
  destruct (Z.ltb_spec 0 eb) as [Hpos|Hnp]; cbn [andb].
  2:{ replace (Z.to_nat _) with 0%nat by lia. cbn. now rewrite app_nil_r. }
  pose proof (ceil_div_bounds eb 8 ltac:(lia)) as Hc.
  set (needed := ceil_div eb 8) in *.
  set (total := Exact.total_bytes cp eb) in *.
  destruct (Z.ltb_spec (Exact.bytes_written st) total) as [Hlt|Hdone].
  2:{ replace (Z.to_nat _) with 0%nat by lia. cbn. now rewrite app_nil_r. }
  specialize (Hmul Hlt). unfold Exact.bytes_target in *.
  assert (Exact.bytes_written st = cp * 3) as Hbw by lia.
  assert (needed = 1 \/ needed = 2 \/ needed = 3) as Hneeded by lia.
  unfold channels.
  destruct Hneeded as [Hn | [Hn | Hn]]; rewrite Hn in *;
    replace (Z.to_nat (total - Exact.bytes_written st)) with (Z.to_nat needed) by lia;
    rewrite Hn; step_cases; cbn [Z.to_nat Pos.to_nat Pos.iter_op Nat.add take];
    rewrite <- ?app_assoc; reflexivity.
Qed.

(** The loops copy the channel bytes of the payload cells, in order, until
    the counter reaches [total_bytes]. *)
Lemma fold_step_stream cp eb l :
  eb <= 24 ->
  forall st,
    counters_ok cp eb st ->
    Exact.out_file (fold_left (step cp eb) l st) =
      Exact.out_file st
      ++ take (Z.to_nat (Exact.total_bytes cp eb - Exact.bytes_written st))
           (flat_map channels l).
Proof.
  intros Heb. induction l as [|p l IH]; intros st Hok.
  - cbn. now rewrite take_nil, app_nil_r.
  - cbn [fold_left flat_map].
    destruct (Z.le_gt_cases (Exact.total_bytes cp eb) (Exact.bytes_written st))
      as [Hdone|Hmore].
    + rewrite step_stable, fold_step_stable by exact Hdone.
      replace (Z.to_nat _) with 0%nat by lia. cbn. now rewrite app_nil_r.
    + replace (step cp eb st p)
        with (if Exact.bytes_target cp <=? Exact.bytes_written st
              then Exact.write_extra cp eb st p
              else Exact.write_complete cp st p) by reflexivity.
      destruct (Z.leb_spec (Exact.bytes_target cp) (Exact.bytes_written st))
        as [Hres|Hcompl].
      * rewrite fold_step_stable by (now apply write_extra_completes).
        rewrite (write_extra_out cp eb st p Heb Hok Hres). f_equal.
        pose proof (target_le_total cp eb) as Htt.
        assert (Exact.total_bytes cp eb - Exact.bytes_written st <= 3) as Hk.
        { destruct Hok as (_ & _ & _ & _ & Hmul). specialize (Hmul Hmore).
          unfold Exact.total_bytes, Exact.bytes_target in *.
          destruct (Z.ltb_spec 0 eb); [|lia].
          pose proof (ceil_div_bounds eb 8 ltac:(lia)). lia. }
        rewrite take_app_le by (unfold channels; cbn [length]; lia). reflexivity.
      * destruct (write_complete_ok cp eb st p Hok Hcompl) as (Hok1 & Hbw & _).
        rewrite (IH _ Hok1), (write_complete_out cp eb st p Hok Hcompl), Hbw.
        rewrite <- app_assoc. f_equal.
        pose proof (target_le_total cp eb) as Htt.
        destruct Hok as (_ & _ & _ & _ & Hmul). specialize (Hmul Hmore).
        assert (Exact.bytes_written st + 3 <= Exact.bytes_target cp)
          by (unfold Exact.bytes_target in *; lia).
        replace (Z.to_nat (Exact.total_bytes cp eb - Exact.bytes_written st))
          with (length (channels p)
                + Z.to_nat (Exact.total_bytes cp eb - (Exact.bytes_written st + 3)))%nat
          by (unfold channels; cbn [length]; lia).
        now rewrite take_app_add.
Qed.

(** ** Header bytes *)

Lemma low_bytes_spec n :
  forall x, low_bytes n x = map (fun k => byte_of x (Z.of_nat k)) (seq 0 n).
Proof.
  induction n as [|n IH]; intros x; [reflexivity|].
  cbn [low_bytes seq map]. f_equal.
  - unfold byte_of. cbn [Z.of_nat Z.mul Z.pow]. rewrite land_255, Z.div_1_r. reflexivity.
  - rewrite IH, <- seq_shift, map_map. apply map_ext. intros k.
    unfold byte_of. rewrite Z.shiftr_div_pow2 by lia.
    rewrite Z.div_div by lia. rewrite <- Z.pow_add_r by lia.
    do 3 f_equal. lia.
Qed.

Lemma be_fold_low_bytes_any n :
  forall x, Exact.be_fold (rev (low_bytes n x)) = x mod 2 ^ (8 * Z.of_nat n).
Proof.
  unfold Exact.be_fold. induction n as [|n IH]; intros x.
  - simpl. now rewrite Z.mod_1_r.
  - cbn [low_bytes rev]. rewrite fold_left_app. cbn [fold_left].
    rewrite IH. rewrite shift_or_byte by apply land_255_uint8.
    rewrite land_255, Z.shiftr_div_pow2 by lia.
    replace (8 * Z.of_nat (S n)) with (8 + 8 * Z.of_nat n) by lia.
    rewrite Z.pow_add_r by lia. change (2 ^ 8) with 256.
    rewrite (Z.rem_mul_r x 256 (2 ^ (8 * Z.of_nat n))) by lia. lia.
Qed.

Lemma be_fold_bound l :
  Forall is_uint8 l -> 0 <= Exact.be_fold l < 256 ^ len l.
Proof.
  intros Hl. unfold Exact.be_fold.
  assert (forall acc k, 0 <= k -> 0 <= acc < 256 ^ k ->
            0 <= fold_left
                   (fun complete_pixels byte_val =>
                      Z.lor (Z.shiftl complete_pixels 8) byte_val) l acc
              < 256 ^ (k + len l)) as H.
  { induction Hl as [|b l Hb Hl IH]; intros acc k Hk Hacc.
    - cbn [fold_left]. change (len (@nil Z)) with 0. now rewrite Z.add_0_r.
    - cbn [fold_left]. rewrite len_cons.
      replace (k + (len l + 1)) with ((k + 1) + len l) by lia.
      apply IH; [lia|]. rewrite shift_or_byte by exact Hb.
      rewrite Z.pow_add_r by lia. unfold is_uint8 in Hb. change (256 ^ 1) with 256. lia. }
  specialize (H 0 0 ltac:(lia) ltac:(cbn; lia)). now rewrite Z.add_0_l in H.
Qed.

Lemma flat_map_channels_length l :
  length (flat_map channels l) = (3 * length l)%nat.
Proof.
  induction l as [|p l IH]; [reflexivity|].
  cbn [flat_map channels app length]. rewrite IH. lia.
Qed.

Lemma flat_map_channels_uint8 l :
  Forall is_uint8_pixel l -> Forall is_uint8 (flat_map channels l).
Proof.
  intros Hl. induction Hl as [|p l (Hr & Hg & Hb) Hl IH]; [constructor|].
  cbn [flat_map channels app]. repeat (constructor; auto).
Qed.

(** ** Reading the header cells *)

Lemma read_header_all_in_shape a idxs :
  width a <> 0 ->
  Forall (fun i => in_shape a (i / width a) (i mod width a) = true) idxs ->
  exists ps, Decrypt.read_header a idxs = inr ps.
Proof.
  intros Hw Hall. induction Hall as [|i idxs Hi Hall IH].
  - exists []. reflexivity.
  - cbn [Decrypt.read_header]. destruct (Z.eqb_spec (width a) 0); [contradiction|].
    unfold getitem. rewrite Hi. destruct IH as (ps & ->). eauto.
Qed.

Lemma read_header_some_outside a idxs :
  width a <> 0 ->
  Exists (fun i => in_shape a (i / width a) (i mod width a) = false) idxs ->
  Decrypt.read_header a idxs = inl Decrypt.IndexError.
Proof.
  intros Hw Hex. induction Hex as [i idxs Hi | i idxs Hex IH];
    cbn [Decrypt.read_header]; destruct (Z.eqb_spec (width a) 0); try contradiction;
    unfold getitem.
  - now rewrite Hi.
  - destruct (in_shape a _ _); [|reflexivity]. now rewrite IH.
Qed.

(** ** The images of a file below the float threshold *)

Lemma units_pixel_counts content m :
  exact_count (len content) ->
  forall k units,
    0 <= k -> k + Z.of_nat m <= Encrypt.num_images (len content) ->
    Forall2 (unit_spec content) (zrange k m) units ->
    Forall (fun u =>
              exists j, k <= j < k + Z.of_nat m /\
                len (Encrypt.image_pixels u) =
                  Z.min Encrypt.max_pixels_per_image
                    (Encrypt.total_pixels_needed (len content)
                     - j * Encrypt.max_pixels_per_image)) units.
Proof.
  intros Hq. induction m as [|m IH]; intros k units Hk0 Hk Hall.
  - inversion Hall; subst. constructor.
  - cbn [zrange] in Hall. inversion Hall as [|? u ? rest (Hpix & _) Hrest]; subst.
    constructor.
    + exists k. split; [lia|]. rewrite Hpix. apply spec_pixels_len; [exact Hq | lia].
    + specialize (IH (k + 1) rest ltac:(lia) ltac:(lia) Hrest).
      eapply Forall_impl; [exact IH|]. cbv beta.
      intros u' (j & Hj & Hlen). exists j. split; [lia | exact Hlen].
Qed.

Lemma units_concat content m :
  exact_count (len content) ->
  forall k units,
    0 <= k -> k + Z.of_nat m = Encrypt.num_images (len content) ->
    Forall2 (unit_spec content) (zrange k m) units ->
    concat (map Encrypt.image_pixels units) =
      drop (Z.to_nat (k * Encrypt.max_pixels_per_image)) (pixel_stream content).
Proof.
  intros Hq.
  pose proof (partition_facts (len content) (len_nonneg content) Hq) as F. cbv zeta in F.
  destruct F as (_ & _ & _ & _ & _ & _ & HK1 & HK & HM).
  pose proof (pixel_stream_len content) as HP. unfold len in HP at 1.
  induction m as [|m IH]; intros k units Hk0 Hk Hall.
  - inversion Hall; subst. cbn [map concat].
    rewrite drop_ge by lia. reflexivity.
  - cbn [zrange] in Hall. inversion Hall as [|? u ? rest (Hpix & _) Hrest]; subst.
    cbn [map concat]. rewrite (IH (k + 1) rest ltac:(lia) ltac:(lia) Hrest), Hpix.
    unfold spec_pixels.
    replace (Z.to_nat ((k + 1) * Encrypt.max_pixels_per_image))
      with (Z.to_nat (k * Encrypt.max_pixels_per_image)
            + Z.to_nat Encrypt.max_pixels_per_image)%nat by lia.
    rewrite <- drop_drop. apply take_drop.
Qed.

Lemma units_in_range content m :
  forall k units,
    Forall2 (unit_spec content) (zrange k m) units ->
    Forall (fun u => exists j, k <= j < k + Z.of_nat m /\ unit_spec content j u) units.
Proof.
  induction m as [|m IH]; intros k units Hall.
  - inversion Hall; subst. constructor.
  - cbn [zrange] in Hall. inversion Hall as [|? u ? rest Hu Hrest]; subst.
    constructor.
    + exists k. split; [lia | exact Hu].
    + eapply Forall_impl; [exact (IH (k + 1) rest Hrest)|]. cbv beta.
      intros u' (j & Hj & Hu'). exists j. split; [lia | exact Hu'].
Qed.

(** ** Every run of [decrypt_single_file] *)

(** How a run without destination file ends, in terms of the loops. *)
Lemma decrypt_loops np files cp eb :
  parse_header np files = Some (cp, eb) ->
  Decrypt.decrypt_single_file np files None =
    let st :=
      Decrypt.file_loop np (Decrypt.bytes_target np cp) (Decrypt.total_bytes np cp eb) eb
        (Decrypt.update_interval (Decrypt.total_bytes np cp eb)) 1 files
        (Decrypt.WState 0 [] 0 0 None) in
    Decrypt.Run
      (match Decrypt.raised st with
       | Some e => Decrypt.Raised e
       | None => Decrypt.Returned true
       end)
      (Some (Decrypt.out_file st)) (Decrypt.pixels_read st).
Proof.
  intros Hparse. destruct files as [|a rest]; [discriminate|].
  cbn [parse_header] in Hparse. unfold Decrypt.decrypt_single_file.
  destruct (Decrypt.read_header a (range 5)) as [e|hp]; [discriminate|].
  replace (decode_header np hp) with (cp, eb) by congruence. reflexivity.
Qed.

Lemma parse_header_app np files extra cp eb :
  parse_header np files = Some (cp, eb) ->
  parse_header np (files ++ extra) = Some (cp, eb).
Proof. destruct files; [discriminate | auto]. Qed.

Lemma header_field_parse np files :
  header_field files = None <-> parse_header np files = None.
Proof.
  destruct files as [|a rest]; [tauto|]. cbn [header_field parse_header].
  destruct (Decrypt.read_header a (range 5)); split; auto; discriminate.
Qed.

(** What holds at the end of every run without destination file: the
    output, its length against the numbers of the header and against the
    pixels read, and the way the call ends. *)
Lemma run_facts np files H eb :
  Forall uint8_array files -> header_field files = Some (H, eb) ->
  exists out,
    Decrypt.output_file (Decrypt.decrypt_single_file np files None) = Some out /\
    len out <= Exact.total_bytes H eb /\
    len out <= 3 * Decrypt.consumed (Decrypt.decrypt_single_file np files None) /\
    0 <= Decrypt.consumed (Decrypt.decrypt_single_file np files None)
      <= series_capacity 1 files /\
    (Decrypt.result (Decrypt.decrypt_single_file np files None) = Decrypt.Returned true \/
     np = NumPy2 /\
     Decrypt.result (Decrypt.decrypt_single_file np files None)
     = Decrypt.Raised Decrypt.OverflowError).
Proof.
  intros Hfiles Hh.
  destruct (header_field_range files H eb Hfiles Hh) as (HH & Heb).
  pose proof (parse_header_field np files H eb Hfiles Hh) as Hp.
  destruct (targets_le np H eb HH Heb) as (Ht1 & Ht2 & _ & Ht4).
  pose proof (ceil_div_byte eb Heb) as Hc.
  rewrite (decrypt_loops np files _ _ Hp). cbv zeta.
  cbn [Decrypt.output_file Decrypt.consumed Decrypt.result].
  set (tgt := Decrypt.bytes_target np (wrap np H)) in *.
  set (tot := Decrypt.total_bytes np (wrap np H) eb) in *.
  pose proof (file_loop_advances np tgt tot eb (Decrypt.update_interval tot) files 1
                (Decrypt.WState 0 [] 0 0 None)) as A.
  pose proof (file_loop_reads np tgt tot eb (Decrypt.update_interval tot) files 1
                (Decrypt.WState 0 [] 0 0 None)) as R.
  set (st := Decrypt.file_loop np tgt tot eb _ 1 files _) in *.
  destruct A as ((w & Hw & Hbw & Hlw) & Hpr & Hmax & Hra & Hra1).
  cbn [Decrypt.out_file Decrypt.bytes_written Decrypt.pixels_read Decrypt.raised app]
    in Hw, Hbw, Hlw, Hpr, Hmax, Hra, Hra1, R.
  exists (Decrypt.out_file st). rewrite Hw.
  assert (Htotal : tgt <= Exact.total_bytes H eb /\ tot <= Exact.total_bytes H eb
                   /\ 0 <= Exact.total_bytes H eb).
  { unfold Exact.total_bytes. destruct (Z.ltb_spec 0 eb); [lia|].
    rewrite Ht4 in * by lia. lia. }
  pose proof (len_nonneg w).
  repeat split; try lia.
  destruct Hra as [Hra | Hra]; rewrite Hra; [now left|].
  destruct np; [|right; now split].
  rewrite Hra1 in Hra by reflexivity. discriminate.
Qed.

(** The loops end without exception, or with the OverflowError of the
    progress display under NumPy 2. *)
Lemma loops_end np tgt tot eb ui files :
  let st := Decrypt.file_loop np tgt tot eb ui 1 files (Decrypt.WState 0 [] 0 0 None) in
  Decrypt.raised st = None \/
  np = NumPy2 /\ Decrypt.raised st = Some Decrypt.OverflowError.
Proof.
  cbv zeta.
  destruct (file_loop_advances np tgt tot eb ui files 1 (Decrypt.WState 0 [] 0 0 None))
    as (_ & _ & _ & Hra & Hra1).
  cbn [Decrypt.raised] in Hra, Hra1.
  destruct Hra as [Hra|Hra]; [now left|].
  destruct np; [|right; now split].
  rewrite Hra1 in Hra by reflexivity. discriminate.
Qed.

(** The header read is decided by the shape of the first image. *)
Lemma read_header_by_shape a :
  0 <= height a -> 0 <= width a ->
  if width a =? 0 then Decrypt.read_header a (range 5) = inl Decrypt.ZeroDivisionError
  else if height a * width a <? 5
       then Decrypt.read_header a (range 5) = inl Decrypt.IndexError
       else exists ps, Decrypt.read_header a (range 5) = inr ps.
Proof.
  intros Hh Hw.
  destruct (Z.eqb_spec (width a) 0) as [Hz|Hnz].
  - change (range 5) with [0; 1; 2; 3; 4]. cbn [Decrypt.read_header].
    rewrite Hz. reflexivity.
  - assert (forall i, 0 <= i ->
              in_shape a (i / width a) (i mod width a) = (i / width a <? height a)) as Hin.
    { intros i Hi. unfold in_shape.
      pose proof (Z.mod_pos_bound i (width a) ltac:(lia)) as Hm.
      pose proof (Z.div_pos i (width a) Hi ltac:(lia)) as Hd.
      destruct (Z.leb_spec 0 (i / width a)); [|lia].
      destruct (Z.leb_spec 0 (i mod width a)); [|lia].
      destruct (Z.ltb_spec (i mod width a) (width a)); [|lia].
      now rewrite !andb_true_r. }
    destruct (Z.ltb_spec (height a * width a) 5) as [Hsmall|Hbig].
    + apply (read_header_some_outside a (range 5) Hnz).
      apply Exists_exists. exists (height a * width a). split.
      * apply list_elem_of_In, zrange_in. nia.
      * rewrite Hin by nia. rewrite Z.div_mul by exact Hnz. apply Z.ltb_irrefl.
    + apply (read_header_all_in_shape a (range 5) Hnz).
      apply Forall_forall. intros i Hi. apply list_elem_of_In, zrange_in in Hi.
      rewrite Hin by lia. apply Z.ltb_lt, Z.div_lt_upper_bound; nia.
Qed.

(** C2, as stated, fails: the series declares 2 payload pixels (6 bytes) and
    supplies 1, and under either NumPy [decrypt_single_file] returns True
    after writing 3 of the 6 bytes; nothing is raised. *)
Lemma C2_shortfall_completes :
  header_field starved_series = Some (2, 0) /\
  series_capacity 1 starved_series < declared_pixels 2 0 /\
  Decrypt.decrypt_single_file NumPy1 starved_series None =
    Decrypt.Run (Decrypt.Returned true) (Some [7; 8; 9]) 1 /\
  Decrypt.decrypt_single_file NumPy2 starved_series None =
    Decrypt.Run (Decrypt.Returned true) (Some [7; 8; 9]) 1 /\
  len [7; 8; 9] < Exact.total_bytes 2 0.
Proof. vm_compute. repeat split; reflexivity. Qed.

(** C2, amended - a shortfall is not detected.  On every series of uint8
    images whose header can be read, with no destination file present and
    under either NumPy, [decrypt_single_file] creates the output file and
    returns True, or - under NumPy 2 only - ends in the OverflowError that
    the progress display raises; no error reports a shortfall.  With
    [complete_pixels] the number that the twelve header bytes spell, the
    bytes written are at most [complete_pixels*3 + ceil(extra_bits/8)], and
    fewer than that whenever the series supplies fewer payload pixels than
    the header declares.  Under NumPy 1.x, with a header that declares less
    than 2^63 bytes and [extra_bits <= 24], a series that supplies the
    declared pixels yields exactly that many bytes. *)
Theorem C2_shortfall_not_detected np files complete_pixels extra_bits :
  Forall uint8_array files ->
  header_field files = Some (complete_pixels, extra_bits) ->
  exists out,
    (Decrypt.result (Decrypt.decrypt_single_file np files None) = Decrypt.Returned true \/
     np = NumPy2 /\
     Decrypt.result (Decrypt.decrypt_single_file np files None)
     = Decrypt.Raised Decrypt.OverflowError) /\
    Decrypt.output_file (Decrypt.decrypt_single_file np files None) = Some out /\
    len out <= Exact.total_bytes complete_pixels extra_bits /\
    (series_capacity 1 files < declared_pixels complete_pixels extra_bits ->
     len out < Exact.total_bytes complete_pixels extra_bits) /\
    (np = NumPy1 -> complete_pixels * 3 + 32 < 2 ^ 63 -> extra_bits <= 24 ->
     declared_pixels complete_pixels extra_bits <= series_capacity 1 files ->
     Decrypt.result (Decrypt.decrypt_single_file np files None) = Decrypt.Returned true /\
     len out = Exact.total_bytes complete_pixels extra_bits).
Proof.
  intros Hfiles Hh.
  destruct (header_field_range files _ _ Hfiles Hh) as (HH & Heb).
  destruct (run_facts np files _ _ Hfiles Hh) as (out & Hout & Hle & Hpx & Hcap & Hres).
  exists out. split; [exact Hres|]. split; [exact Hout|]. split; [exact Hle|]. split.
  - intros Hshort. unfold declared_pixels, Exact.total_bytes in *. unfold is_uint8 in Heb.
    destruct (Z.ltb_spec 0 extra_bits); [|lia].
    pose proof (ceil_div_bounds extra_bits 8 ltac:(lia)). lia.
  - intros -> Hsmall Heb24 Hsupplied.
    rewrite (decrypt_exact files None _ _ Hfiles Hh Hsmall) in *.
    destruct (run_counters files _ _ Hfiles Hh) as ((Hlen & _) & _ & Hfull).
    rewrite (decrypt_run files _ _ Hh) in *. cbv zeta in *.
    cbn [Decrypt.result Decrypt.output_file] in *.
    split; [reflexivity|].
    injection Hout as <-. rewrite <- Hlen. now apply Hfull.
Qed.

Lemma C2_shortfall_not_detected_witness :
  exists out,
    (Decrypt.result (Decrypt.decrypt_single_file NumPy2 starved_series None)
     = Decrypt.Returned true \/
     NumPy2 = NumPy2 /\
     Decrypt.result (Decrypt.decrypt_single_file NumPy2 starved_series None)
     = Decrypt.Raised Decrypt.OverflowError) /\
    Decrypt.output_file (Decrypt.decrypt_single_file NumPy2 starved_series None) = Some out /\
    len out <= Exact.total_bytes 2 0 /\
    (series_capacity 1 starved_series < declared_pixels 2 0 ->
     len out < Exact.total_bytes 2 0) /\
    (NumPy2 = NumPy1 -> 2 * 3 + 32 < 2 ^ 63 -> 0 <= 24 ->
     declared_pixels 2 0 <= series_capacity 1 starved_series ->
     Decrypt.result (Decrypt.decrypt_single_file NumPy2 starved_series None)
     = Decrypt.Returned true /\
     len out = Exact.total_bytes 2 0).
Proof.
  apply (C2_shortfall_not_detected NumPy2 starved_series 2 0).
  - apply List.Forall_cons; [|apply List.Forall_nil].
    intros r c. cbn [cells starved_series].
    destruct ((r =? 1) && (c =? 0)); [|destruct ((r =? 1) && (c =? 2))];
      unfold is_uint8_pixel, is_uint8; cbn [red green blue]; lia.
  - vm_compute. reflexivity.
Defined.

(** C10 - Output-length cap.  With [complete_pixels] and [extra_bits] the
    numbers that the header of the series spells, every run on a series of
    uint8 images whose header can be read, under either NumPy and whatever
    number of further cells or images the series contains, writes at most
    [complete_pixels*3 + ceil(extra_bits/8)] bytes; the same bound holds for
    the value that the code parsed whenever that value is not negative.
    From a state that has reached the total the loops read no pixel and
    write no byte, and once a series reaches the total, images appended to
    it change nothing in the run.  (The variable [total_bytes] of the code
    is a NumPy scalar and can be smaller than this total; the loops are
    bounded by the total of the header all the same.) *)
Theorem C10_output_cap np files complete_pixels extra_bits :
  Forall uint8_array files ->
  header_field files = Some (complete_pixels, extra_bits) ->
  exists out parsed,
    parse_header np files = Some (parsed, extra_bits) /\
    Decrypt.output_file (Decrypt.decrypt_single_file np files None) = Some out /\
    len out <= complete_pixels * 3 + ceil_div extra_bits 8 /\
    (0 <= parsed -> len out <= parsed * 3 + ceil_div extra_bits 8) /\
    (forall idx more st,
       complete_pixels * 3 + ceil_div extra_bits 8 <= Decrypt.bytes_written st ->
       Decrypt.file_loop np (Decrypt.bytes_target np parsed)
         (Decrypt.total_bytes np parsed extra_bits) extra_bits
         (Decrypt.update_interval (Decrypt.total_bytes np parsed extra_bits))
         idx more st = st) /\
    (len out = complete_pixels * 3 + ceil_div extra_bits 8 ->
     forall extra,
       Decrypt.decrypt_single_file np (files ++ extra) None =
         Decrypt.decrypt_single_file np files None).
Proof.
  intros Hfiles Hh.
  destruct (header_field_range files _ _ Hfiles Hh) as (HH & Heb).
  pose proof (parse_header_field np files _ _ Hfiles Hh) as Hp.
  destruct (targets_le np complete_pixels extra_bits HH Heb) as (Ht1 & Ht2 & Ht3 & Ht4).
  pose proof (ceil_div_byte extra_bits Heb) as Hc.
  assert (Hc0 : extra_bits <= 0 -> ceil_div extra_bits 8 = 0).
  { intros Hz. unfold is_uint8 in Heb. assert (extra_bits = 0) as -> by lia. reflexivity. }
  destruct (run_facts np files _ _ Hfiles Hh) as (out & Hout & Hle & _).
  assert (Htotal : Exact.total_bytes complete_pixels extra_bits
                   = complete_pixels * 3 + ceil_div extra_bits 8).
  { unfold Exact.total_bytes. destruct (Z.ltb_spec 0 extra_bits); [reflexivity|].
    rewrite Hc0 by lia. reflexivity. }
  rewrite Htotal in Hle.
  exists out, (wrap np complete_pixels).
  split; [exact Hp|]. split; [exact Hout|]. split; [exact Hle|].
  set (tgt := Decrypt.bytes_target np (wrap np complete_pixels)) in *.
  set (tot := Decrypt.total_bytes np (wrap np complete_pixels) extra_bits) in *.
  assert (Hdone : forall st,
            complete_pixels * 3 + ceil_div extra_bits 8 <= Decrypt.bytes_written st ->
            targets_reached tgt tot extra_bits st).
  { intros st Hst. unfold targets_reached. split; [lia|]. right. lia. }
  split; [|split].
  - intros Hparsed.
    destruct (run_facts np files _ _ Hfiles Hh) as (out' & Hout' & _).
    assert (out' = out) by congruence. subst out'. clear Hout'.
    rewrite (decrypt_loops np files _ _ Hp) in Hout. cbv zeta in Hout.
    cbn [Decrypt.output_file] in Hout. injection Hout as <-.
    destruct (file_loop_advances np tgt tot extra_bits (Decrypt.update_interval tot) files 1
                (Decrypt.WState 0 [] 0 0 None)) as ((w & Hw & Hbw & _) & _ & Hmax & _).
    cbn [Decrypt.out_file Decrypt.bytes_written app] in Hw, Hbw, Hmax.
    fold tgt tot. rewrite Hw.
    assert (Hlow : lowest np <= 0) by (destruct np; unfold lowest; lia).
    assert (tgt <= wrap np complete_pixels * 3).
    { unfold tgt, Decrypt.bytes_target. apply wrap_le. lia. }
    assert (tot <= wrap np complete_pixels * 3 + ceil_div extra_bits 8).
    { unfold tot, Decrypt.total_bytes. fold (Decrypt.bytes_target np (wrap np complete_pixels)).
      fold tgt. pose proof (wrap_range np (wrap np complete_pixels * 3)) as Hr.
      fold (Decrypt.bytes_target np (wrap np complete_pixels)) in Hr. fold tgt in Hr.
      destruct (Z.ltb_spec 0 extra_bits); [|lia].
      pose proof (wrap_le np (tgt + ceil_div extra_bits 8) ltac:(lia)). lia. }
    lia.
  - intros idx more st Hst. apply file_loop_done. now apply Hdone.
  - intros Hfull extra.
    rewrite (decrypt_loops np (files ++ extra) _ _ (parse_header_app np files extra _ _ Hp)).
    rewrite (decrypt_loops np files _ _ Hp). cbv zeta. fold tgt tot.
    rewrite file_loop_complete; [reflexivity|].
    apply Hdone.
    rewrite (decrypt_loops np files _ _ Hp) in Hout. cbv zeta in Hout.
    cbn [Decrypt.output_file] in Hout. injection Hout as <-.
    destruct (file_loop_advances np tgt tot extra_bits (Decrypt.update_interval tot) files 1
                (Decrypt.WState 0 [] 0 0 None)) as ((w & Hw & Hbw & _) & _).
    cbn [Decrypt.out_file Decrypt.bytes_written app] in Hw, Hbw.
    fold tgt tot in Hfull. rewrite Hw in Hfull. lia.
Qed.

Lemma C10_output_cap_witness :
  exists out parsed,
    parse_header NumPy2 (Encrypt.series two_byte_units) = Some (parsed, 16) /\
    Decrypt.output_file
      (Decrypt.decrypt_single_file NumPy2 (Encrypt.series two_byte_units) None)
    = Some out /\
    len out <= 0 * 3 + ceil_div 16 8 /\
    (0 <= parsed -> len out <= parsed * 3 + ceil_div 16 8) /\
    (forall idx more st,
       0 * 3 + ceil_div 16 8 <= Decrypt.bytes_written st ->
       Decrypt.file_loop NumPy2 (Decrypt.bytes_target NumPy2 parsed)
         (Decrypt.total_bytes NumPy2 parsed 16) 16
         (Decrypt.update_interval (Decrypt.total_bytes NumPy2 parsed 16))
         idx more st = st) /\
    (len out = 0 * 3 + ceil_div 16 8 ->
     forall extra,
       Decrypt.decrypt_single_file NumPy2 (Encrypt.series two_byte_units ++ extra) None =
         Decrypt.decrypt_single_file NumPy2 (Encrypt.series two_byte_units) None).
Proof.
  apply (C10_output_cap NumPy2 (Encrypt.series two_byte_units) 0 16).
  - apply (encrypt_file_uint8 [171; 205]). vm_compute. reflexivity.
  - vm_compute. reflexivity.
Defined.

(** C8, as stated, fails: with the destination present and a first image too
    small to hold the header, the call raises IndexError instead of
    returning the skipped result, under either NumPy. *)
Lemma C8_header_read_comes_first :
  Decrypt.result (Decrypt.decrypt_single_file NumPy1 tiny_series (Some [1; 2; 3]))
    = Decrypt.Raised Decrypt.IndexError /\
  Decrypt.result (Decrypt.decrypt_single_file NumPy2 tiny_series (Some [1; 2; 3]))
    = Decrypt.Raised Decrypt.IndexError /\
  Decrypt.result (Decrypt.decrypt_single_file NumPy1 tiny_series (Some [1; 2; 3]))
    <> Decrypt.Returned false /\
  Decrypt.result (Decrypt.decrypt_single_file NumPy2 tiny_series (Some [1; 2; 3]))
    <> Decrypt.Returned false.
Proof. vm_compute. repeat split; try reflexivity; discriminate. Qed.

(** C8, amended - Overwrite skip.  On every run where the destination file
    already exists, under either NumPy, the destination is left byte for
    byte as it was and no payload pixel is read; when the header of the
    first image can be read, [decrypt_single_file] returns False (skipped);
    when it cannot, the call raises while reading the header. *)
Theorem C8_overwrite_skip np files old :
  Decrypt.output_file (Decrypt.decrypt_single_file np files (Some old)) = Some old /\
  Decrypt.consumed (Decrypt.decrypt_single_file np files (Some old)) = 0 /\
  match header_field files with
  | Some _ =>
    Decrypt.result (Decrypt.decrypt_single_file np files (Some old)) = Decrypt.Returned false
  | None =>
    exists e,
      Decrypt.result (Decrypt.decrypt_single_file np files (Some old)) = Decrypt.Raised e
  end.
Proof.
  unfold Decrypt.decrypt_single_file, header_field.
  destruct files as [|a rest].
  - repeat split; eauto.
  - destruct (Decrypt.read_header a (range 5)) as [e|hp].
    + repeat split; eauto.
    + destruct (decode_header np hp) as [cp eb]. repeat split.
Qed.

(** ** The header of a written series *)

Lemma written_header np content units :
  Forall is_uint8 content ->
  Encrypt.encrypt_file content = Some units ->
  parse_header np (Encrypt.series units) =
    Some (decode_header np
            (create_header_pixels (Encrypt.complete_pixels (len content))
                                  (Encrypt.extra_bits (len content)))) /\
  header_field (Encrypt.series units) =
    Some (Exact.decode_header
            (create_header_pixels (Encrypt.complete_pixels (len content))
                                  (Encrypt.extra_bits (len content)))).
Proof.
  intros Hbytes Henc.
  destruct (first_image content Hbytes) as (u & rest & Henc' & Hhead & Hholds & H5).
  assert (units = u :: rest) as -> by congruence.
  cbn [Encrypt.series map parse_header header_field].
  rewrite (read_header_first _ _ Hholds H5), Hhead. split; reflexivity.
Qed.

Lemma fits_999_valid content :
  Forall is_uint8 content -> fits_999 content ->
  valid_content content /\ exact_count (len content) /\
  Encrypt.complete_pixels (len content) * 3 + 32 < 2 ^ 63.
Proof.
  intros Hbytes Hfit. destruct (fits_999_exact content Hfit) as (Hq & _).
  pose proof (partition_facts (len content) (len_nonneg content) Hq) as F. cbv zeta in F.
  destruct F as (Hcp & _ & _ & _ & HD & HT & _ & _ & HM).
  destruct (metadata_div3 (len content)) as (Hcp3 & _).
  unfold fits_999 in Hfit. rewrite HM in Hfit.
  repeat split; auto; lia.
Qed.

(** C3, at [complete_pixels = 2^88]: the encoder writes the byte 01
    followed by eleven bytes 00, and the header parse of the decoder gives
    0 under either NumPy; under NumPy 2 the count 65793 is read back as 1,
    and under NumPy 1.x the count 2^63 as -2^63. *)
Theorem C3_header_not_recovered :
  create_header_pixels (2 ^ 88) 0 =
    [RGB 1 0 0; RGB 0 0 0; RGB 0 0 0; RGB 0 0 0; RGB 0 0 0] /\
  decode_header NumPy1 (create_header_pixels (2 ^ 88) 0) = (0, 0) /\
  decode_header NumPy2 (create_header_pixels (2 ^ 88) 0) = (0, 0) /\
  decode_header NumPy2 (create_header_pixels 65793 16) = (1, 16) /\
  decode_header NumPy1 (create_header_pixels (2 ^ 63) 0) = (- 2 ^ 63, 0).
Proof. vm_compute. repeat split; reflexivity. Qed.

(** C4 - extra_bits invariant.  For every file content the encoder computes
    [extra_bits = (file_size * 8) mod 24], which is 0, 8 or 16, and the
    header that the decoder reads from the written series, under either
    NumPy, carries that same value in the blue channel of pixel 4. *)
Theorem C4_extra_bits content :
  Forall is_uint8 content ->
  Encrypt.extra_bits (len content) = (len content * 8) mod 24 /\
  (Encrypt.extra_bits (len content) = 0 \/ Encrypt.extra_bits (len content) = 8 \/
   Encrypt.extra_bits (len content) = 16) /\
  exists units cp,
    Encrypt.encrypt_file content = Some units /\
    header_field (Encrypt.series units) = Some (cp, Encrypt.extra_bits (len content)) /\
    forall np,
      exists parsed,
        parse_header np (Encrypt.series units)
        = Some (parsed, Encrypt.extra_bits (len content)).
Proof.
  intros Hbytes. split; [reflexivity|]. split; [apply extra_bits_values|].
  destruct (first_image content Hbytes) as (u & rest & Henc & _).
  exists (u :: rest). eexists. split; [exact Henc|]. split.
  - rewrite (proj2 (written_header NumPy1 content _ Hbytes Henc)). reflexivity.
  - intros np. eexists.
    rewrite (proj1 (written_header np content _ Hbytes Henc)). reflexivity.
Qed.

Lemma C4_extra_bits_witness :
  Encrypt.extra_bits (len [171; 205]) = (len [171; 205] * 8) mod 24 /\
  (Encrypt.extra_bits (len [171; 205]) = 0 \/ Encrypt.extra_bits (len [171; 205]) = 8 \/
   Encrypt.extra_bits (len [171; 205]) = 16) /\
  exists units cp,
    Encrypt.encrypt_file [171; 205] = Some units /\
    header_field (Encrypt.series units) = Some (cp, Encrypt.extra_bits (len [171; 205])) /\
    forall np,
      exists parsed,
        parse_header np (Encrypt.series units)
        = Some (parsed, Encrypt.extra_bits (len [171; 205])).
Proof.
  apply (C4_extra_bits [171; 205]).
  repeat (apply List.Forall_cons; [unfold is_uint8; lia|]). apply List.Forall_nil.
Defined.

(** C5, at a file of 3 * (2^27 * 10^8 - 4) bytes: [T] is [2^27 * M + 1],
    whose quotient by [M] is rounded to [2^27] before the ceiling is taken,
    so line 166 gives 134217728 images where [ceil(T / M)] is 134217729. *)
Theorem C5_one_image_short :
  Encrypt.total_pixels_needed (3 * (2 ^ 27 * 100000000 - 4))
  = 2 ^ 27 * Encrypt.max_pixels_per_image + 1 /\
  Encrypt.num_images (3 * (2 ^ 27 * 100000000 - 4)) = 134217728 /\
  ceil_div (Encrypt.total_pixels_needed (3 * (2 ^ 27 * 100000000 - 4)))
           Encrypt.max_pixels_per_image = 134217729.
Proof. vm_compute. repeat split; reflexivity. Qed.

(** C7 - Two-byte scenario.  For the input AB CD the encoder computes
    [complete_pixels = 0] and [extra_bits = 16] and writes one image whose
    pixel list is the 5 header pixels, pixel 4 being (0, 0, 16), followed by
    the single residual pixel (AB, CD, 0); decoding that image gives exactly
    the bytes AB CD, under either NumPy. *)
Theorem C7_two_bytes :
  Encrypt.complete_pixels (len [171; 205]) = 0 /\
  Encrypt.extra_bits (len [171; 205]) = 16 /\
  match Encrypt.encrypt_file [171; 205] with
  | Some [u] =>
    Encrypt.image_pixels u =
      [RGB 0 0 0; RGB 0 0 0; RGB 0 0 0; RGB 0 0 0; RGB 0 0 16; RGB 171 205 0] /\
    map (cell (Encrypt.img_array u)) (range 9) =
      [RGB 0 0 0; RGB 0 0 0; RGB 0 0 0; RGB 0 0 0; RGB 0 0 16; RGB 171 205 0;
       white; white; white] /\
    Decrypt.decrypt_single_file NumPy1 [Encrypt.img_array u] None =
      Decrypt.Run (Decrypt.Returned true) (Some [171; 205]) 1 /\
    Decrypt.decrypt_single_file NumPy2 [Encrypt.img_array u] None =
      Decrypt.Run (Decrypt.Returned true) (Some [171; 205]) 1
  | _ => False
  end.
Proof. vm_compute. repeat split; reflexivity. Qed.

(** ** Further properties of the decoder *)

(** The file that a run under NumPy 1.x writes, for a header below 2^63
    bytes. *)
Lemma decoded_bytes files complete_pixels extra_bits :
  Forall uint8_array files ->
  header_field files = Some (complete_pixels, extra_bits) ->
  complete_pixels * 3 + 32 < 2 ^ 63 ->
  extra_bits <= 24 ->
  Decrypt.output_file (Decrypt.decrypt_single_file NumPy1 files None) =
    Some (take (Z.to_nat (Exact.total_bytes complete_pixels extra_bits))
            (flat_map channels (series_cells 1 files))).
Proof.
  intros Hfiles Hparse Hsmall Heb.
  destruct (header_field_range files _ _ Hfiles Hparse) as (Hcp & Heb0 & _).
  rewrite (decrypt_exact files None _ _ Hfiles Hparse Hsmall).
  rewrite (decrypt_run files _ _ Hparse). cbn zeta. cbn [Decrypt.output_file].
  rewrite file_loop_cells by exact Heb.
  rewrite fold_step_stream by (auto using counters_ok_init).
  cbn [Exact.out_file Exact.bytes_written app]. now rewrite Z.sub_0_r.
Qed.

(** X1 - What the decoder computes under NumPy 1.x.  On every series of
    uint8 images whose header can be read and declares less than 2^63 bytes
    and [extra_bits <= 24], with no destination present, the file written
    is the first [complete_pixels*3 + ceil(extra_bits/8)] bytes of the R,
    G, B channel values of the payload cells, taken in raster order through
    the images in series order (the first image from its sixth cell on). *)
Theorem X1_decoded_bytes files complete_pixels extra_bits :
  Forall uint8_array files ->
  header_field files = Some (complete_pixels, extra_bits) ->
  complete_pixels * 3 + 32 < 2 ^ 63 ->
  extra_bits <= 24 ->
  Decrypt.output_file (Decrypt.decrypt_single_file NumPy1 files None) =
    Some (take (Z.to_nat (Exact.total_bytes complete_pixels extra_bits))
            (flat_map channels (series_cells 1 files))).
Proof. apply decoded_bytes. Qed.

Lemma X1_decoded_bytes_witness :
  Decrypt.output_file (Decrypt.decrypt_single_file NumPy1 short_series None) =
    Some (take (Z.to_nat (Exact.total_bytes 10 0))
            (flat_map channels (series_cells 1 short_series))).
Proof.
  apply (X1_decoded_bytes short_series 10 0).
  - apply List.Forall_cons; [|apply List.Forall_nil].
    intros r c. cbn [cells].
    destruct ((r =? 1) && (c =? 0));
      unfold is_uint8_pixel, is_uint8; cbn [red green blue]; lia.
  - vm_compute. reflexivity.
  - lia.
  - lia.
Defined.

(** X2 - A series cut short gives a prefix.  If a run on a series writes
    [out], a run on the same series followed by further images writes a
    file that starts with [out]: images that are missing at the end of a
    series only shorten the output, they never alter the bytes before.
    This holds under either NumPy, also when the progress display raises. *)
Theorem X2_truncated_series_prefix np files extra cp eb :
  parse_header np files = Some (cp, eb) ->
  exists out more,
    Decrypt.output_file (Decrypt.decrypt_single_file np files None) = Some out /\
    Decrypt.output_file (Decrypt.decrypt_single_file np (files ++ extra) None)
      = Some (out ++ more).
Proof.
  intros Hparse.
  rewrite (decrypt_loops np files cp eb Hparse).
  rewrite (decrypt_loops np (files ++ extra) cp eb (parse_header_app np _ _ _ _ Hparse)).
  cbn zeta. cbn [Decrypt.output_file].
  destruct (file_loop_prefix np (Decrypt.bytes_target np cp) (Decrypt.total_bytes np cp eb) eb
              (Decrypt.update_interval (Decrypt.total_bytes np cp eb)) files extra 1
              (Decrypt.WState 0 [] 0 0 None)) as (w & Hw).
  eexists. exists w. split; [reflexivity|]. now rewrite Hw.
Qed.

Lemma X2_truncated_series_prefix_witness :
  exists out more,
    Decrypt.output_file (Decrypt.decrypt_single_file NumPy2 short_series None) = Some out /\
    Decrypt.output_file
      (Decrypt.decrypt_single_file NumPy2 (short_series ++ short_series) None)
      = Some (out ++ more).
Proof.
  apply (X2_truncated_series_prefix NumPy2 short_series short_series 10 0).
  vm_compute. reflexivity.
Defined.

(** X3 - Decoding twice.  A run on a series whose header can be read, with
    no destination present, leaves a destination file behind, also when the
    progress display raises under NumPy 2; a second run on the same series
    finds it, returns False (skipped), reads no payload pixel and leaves the
    file as it is. *)
Theorem X3_second_run_skips np files cp eb :
  parse_header np files = Some (cp, eb) ->
  exists out,
    Decrypt.output_file (Decrypt.decrypt_single_file np files None) = Some out /\
    Decrypt.decrypt_single_file np files
      (Decrypt.output_file (Decrypt.decrypt_single_file np files None))
      = Decrypt.Run (Decrypt.Returned false) (Some out) 0.
Proof.
  intros Hparse. rewrite (decrypt_loops np files cp eb Hparse). cbn zeta.
  cbn [Decrypt.output_file]. eexists. split; [reflexivity|].
  destruct files as [|a rest]; [discriminate|].
  cbn [parse_header] in Hparse. unfold Decrypt.decrypt_single_file.
  destruct (Decrypt.read_header a (range 5)) as [e|hp]; [discriminate|].
  destruct (decode_header np hp). reflexivity.
Qed.

Lemma X3_second_run_skips_witness :
  exists out,
    Decrypt.output_file (Decrypt.decrypt_single_file NumPy2 short_series None) = Some out /\
    Decrypt.decrypt_single_file NumPy2 short_series
      (Decrypt.output_file (Decrypt.decrypt_single_file NumPy2 short_series None))
      = Decrypt.Run (Decrypt.Returned false) (Some out) 0.
Proof.
  apply (X3_second_run_skips NumPy2 short_series 10 0).
  vm_compute. reflexivity.
Defined.

(** X4 - How a call ends is decided by the shape of the first image, by the
    destination and by NumPy.  For a series whose first image has shape
    (h, w): the call raises ZeroDivisionError when [w = 0], raises
    IndexError when the image has fewer than 5 cells, and otherwise returns
    False when the destination exists; when it does not exist the call
    returns True or, under NumPy 2 only, ends in the OverflowError of the
    progress display.  No other outcome occurs, whatever the series
    contains. *)
Theorem X4_outcome_by_shape np a rest dest :
  0 <= height a -> 0 <= width a ->
  if width a =? 0
  then Decrypt.result (Decrypt.decrypt_single_file np (a :: rest) dest)
       = Decrypt.Raised Decrypt.ZeroDivisionError
  else if height a * width a <? 5
  then Decrypt.result (Decrypt.decrypt_single_file np (a :: rest) dest)
       = Decrypt.Raised Decrypt.IndexError
  else match dest with
       | Some _ =>
         Decrypt.result (Decrypt.decrypt_single_file np (a :: rest) dest)
         = Decrypt.Returned false
       | None =>
         Decrypt.result (Decrypt.decrypt_single_file np (a :: rest) dest)
         = Decrypt.Returned true \/
         np = NumPy2 /\
         Decrypt.result (Decrypt.decrypt_single_file np (a :: rest) dest)
         = Decrypt.Raised Decrypt.OverflowError
       end.
Proof.
  intros Hh Hw. pose proof (read_header_by_shape a Hh Hw) as Hread.
  unfold Decrypt.decrypt_single_file.
  destruct (width a =? 0); [now rewrite Hread|].
  destruct (height a * width a <? 5); [now rewrite Hread|].
  destruct Hread as (ps & ->).
  destruct (decode_header np ps) as [cp eb].
  destruct dest; [reflexivity|]. cbv zeta. cbn [Decrypt.result].
  destruct (loops_end np (Decrypt.bytes_target np cp) (Decrypt.total_bytes np cp eb) eb
              (Decrypt.update_interval (Decrypt.total_bytes np cp eb)) (a :: rest))
    as [Hr|(Hnp & Hr)]; cbv zeta in Hr; rewrite Hr; [now left | right; now split].
Qed.

Lemma X4_outcome_by_shape_witness :
  if width (NdArray 2 2 (fun _ _ => white)) =? 0
  then Decrypt.result
         (Decrypt.decrypt_single_file NumPy1 (NdArray 2 2 (fun _ _ => white) :: []) None)
       = Decrypt.Raised Decrypt.ZeroDivisionError
  else if height (NdArray 2 2 (fun _ _ => white))
          * width (NdArray 2 2 (fun _ _ => white)) <? 5
  then Decrypt.result
         (Decrypt.decrypt_single_file NumPy1 (NdArray 2 2 (fun _ _ => white) :: []) None)
       = Decrypt.Raised Decrypt.IndexError
  else Decrypt.result
         (Decrypt.decrypt_single_file NumPy1 (NdArray 2 2 (fun _ _ => white) :: []) None)
       = Decrypt.Returned true \/
       NumPy1 = NumPy2 /\
       Decrypt.result
         (Decrypt.decrypt_single_file NumPy1 (NdArray 2 2 (fun _ _ => white) :: []) None)
       = Decrypt.Raised Decrypt.OverflowError.
Proof.
  apply (X4_outcome_by_shape NumPy1 (NdArray 2 2 (fun _ _ => white)) [] None); cbn; lia.
Defined.

(** ** Further properties of the header codec *)

Lemma wrap_mod_96 np x : wrap np (x mod 2 ^ 96) = wrap np x.
Proof.
  apply (wrap_congr np x _ (- (x / 2 ^ 96) * (2 ^ 96 / modulus np))).
  pose proof (Z.div_mod x (2 ^ 96) ltac:(lia)) as Hdm.
  destruct np; unfold modulus.
  - change (2 ^ 96 / 2 ^ 64) with (2 ^ 32).
    replace (2 ^ 96) with (2 ^ 32 * 2 ^ 64) in Hdm at 1 by reflexivity. lia.
  - change (2 ^ 96 / 2 ^ 8) with (2 ^ 88).
    replace (2 ^ 96) with (2 ^ 88 * 2 ^ 8) in Hdm at 1 by reflexivity. lia.
Qed.

Lemma header_bytes_are_uint8 cp : Forall is_uint8 (rev (low_bytes 12 cp)).
Proof.
  apply Forall_rev. generalize 12%nat. intros n. revert cp.
  induction n as [|n IH]; intros cp; cbn [low_bytes]; constructor;
    [apply land_255_uint8 | apply IH].
Qed.

(** X5 - A count that does not fit the scalar wraps silently.  For every
    integer [complete_pixels], in range or not, [create_header_pixels]
    raises nothing and the header parse of the decoder gives back
    [complete_pixels] wrapped into the scalar type - a signed 64-bit integer
    under NumPy 1.x, an unsigned 8-bit integer under NumPy 2 - together with
    the unchanged [extra_bits]; the count comes back as it was exactly when
    it lies in the range of that type. *)
Theorem X5_header_wraps np cp eb :
  decode_header np (create_header_pixels cp eb) = (wrap np cp, eb) /\
  (wrap np cp = cp <-> lowest np <= cp < lowest np + modulus np).
Proof.
  split.
  - unfold decode_header. cbv zeta. rewrite header_length_bytes.
    rewrite (be_fold_wrap np _ (header_bytes_are_uint8 cp)).
    rewrite be_fold_low_bytes_any. change (8 * Z.of_nat 12) with 96.
    rewrite wrap_mod_96. reflexivity.
  - split.
    + intros <-. apply wrap_range.
    + apply wrap_small.
Qed.

(** X6 - What a header can declare.  Whatever uint8 image comes first in a
    series, the twelve header bytes spell a number below 2^96, the count
    that the decoder parses is that number wrapped into the scalar type -
    between -2^63 and 2^63 - 1 under NumPy 1.x, between 0 and 255 under
    NumPy 2 - and [extra_bits] is a byte, not checked against 24; the two
    targets of the loops lie in the range of the scalar type as well. *)
Theorem X6_declared_range np files cp eb :
  Forall uint8_array files ->
  parse_header np files = Some (cp, eb) ->
  (exists H, header_field files = Some (H, eb) /\ 0 <= H < 2 ^ 96 /\ cp = wrap np H) /\
  lowest np <= cp < lowest np + modulus np /\
  0 <= eb <= 255 /\
  lowest np <= Decrypt.bytes_target np cp < lowest np + modulus np /\
  lowest np <= Decrypt.total_bytes np cp eb < lowest np + modulus np.
Proof.
  intros Hfiles Hparse.
  destruct (header_field files) as [[H eb']|] eqn:Hh.
  2:{ apply (header_field_parse np) in Hh. congruence. }
  pose proof (parse_header_field np files H eb' Hfiles Hh) as Hp.
  assert (cp = wrap np H /\ eb = eb') as (-> & ->) by (split; congruence).
  destruct (header_field_range files H eb' Hfiles Hh) as (HH & Heb).
  assert (H < 2 ^ 96) as Hupper.
  { destruct files as [|a rest]; [discriminate|].
    apply Forall_cons_1 in Hfiles. destruct Hfiles as (Ha & _).
    cbn [header_field] in Hh.
    destruct (Decrypt.read_header a (range 5)) as [e|hp] eqn:Hread; [discriminate|].
    pose proof (read_header_cells a _ hp Ha Hread) as Hhp.
    assert (H = Exact.be_fold (flat_map channels (take 4 hp))) as Hcpdef
      by (unfold Exact.decode_header in Hh; congruence).
    assert (Forall is_uint8 (flat_map channels (take 4 hp))) as Hbytes
      by (apply flat_map_channels_uint8; now apply Forall_take).
    assert (len (flat_map channels (take 4 hp)) <= 12) as Hlen.
    { assert (length (take 4 hp) <= 4)%nat as H4 by (rewrite length_take; lia).
      unfold len. rewrite flat_map_channels_length. lia. }
    pose proof (be_fold_bound _ Hbytes) as Hb. rewrite <- Hcpdef in Hb.
    assert (256 ^ len (flat_map channels (take 4 hp)) <= 256 ^ 12) as Hpow
      by (apply Z.pow_le_mono_r; [lia | exact Hlen]).
    change (256 ^ 12) with (2 ^ 96) in Hpow. lia. }
  split; [exists H; repeat split; auto; lia|].
  split; [apply wrap_range|].
  split; [unfold is_uint8 in Heb; lia|].
  split; [apply wrap_range|].
  unfold Decrypt.total_bytes. destruct (0 <? eb'); apply wrap_range.
Qed.

Lemma X6_declared_range_witness :
  (exists H, header_field short_series = Some (H, 0) /\ 0 <= H < 2 ^ 96 /\
             10 = wrap NumPy2 H) /\
  lowest NumPy2 <= 10 < lowest NumPy2 + modulus NumPy2 /\
  0 <= 0 <= 255 /\
  lowest NumPy2 <= Decrypt.bytes_target NumPy2 10 < lowest NumPy2 + modulus NumPy2 /\
  lowest NumPy2 <= Decrypt.total_bytes NumPy2 10 0 < lowest NumPy2 + modulus NumPy2.
Proof.
  apply (X6_declared_range NumPy2 short_series 10 0).
  - apply List.Forall_cons; [|apply List.Forall_nil].
    intros r c. cbn [cells].
    destruct ((r =? 1) && (c =? 0));
      unfold is_uint8_pixel, is_uint8; cbn [red green blue]; lia.
  - vm_compute. reflexivity.
Defined.

(** C9 - Raster layout.  For every list of n >= 1 uint8 pixels the raster is
    a square of side [size = ceil(sqrt(n))], the least side whose square
    holds n cells; pixel i sits at row [i div size] and column [i mod size],
    and every other cell of the square is white (255, 255, 255). *)
Theorem C9_raster_layout pixels :
  1 <= len pixels ->
  Forall is_uint8_pixel pixels ->
  let size := ceil_sqrt (len pixels) in
  exists arr,
    Encrypt.raster pixels = Some arr /\
    height arr = size /\ width arr = size /\
    (size - 1) * (size - 1) < len pixels <= size * size /\
    (forall i, 0 <= i < len pixels ->
       getitem arr (i / size) (i mod size) = Some (nth (Z.to_nat i) pixels white)) /\
    (forall row col, 0 <= row < size -> 0 <= col < size ->
       len pixels <= row * size + col -> getitem arr row col = Some white).
Proof.
  intros Hn Hvalid size.
  destruct (raster_spec pixels) as (arr & Hr & Hh & Hw & Hcells). fold size in Hh, Hw, Hcells.
  pose proof (ceil_sqrt_bounds (len pixels) ltac:(lia)) as (Hs0 & Hfit & Hleast).
  fold size in Hs0, Hfit, Hleast. specialize (Hleast ltac:(lia)).
  assert (0 < size) as Hs by nia.
  exists arr. repeat split; auto; try lia.
  - intros i Hi. unfold getitem, in_shape. rewrite Hh, Hw.
    pose proof (Z.mod_pos_bound i size Hs) as Hm.
    pose proof (Z.div_mod i size ltac:(lia)) as Hdm.
    assert (0 <= i / size < size) as Hd
      by (split; [apply Z.div_pos; lia | apply Z.div_lt_upper_bound; nia]).
    replace ((0 <=? i / size) && (i / size <? size) && (0 <=? i mod size)
             && (i mod size <? size)) with true
      by (symmetry; rewrite !andb_true_iff, !Z.leb_le, !Z.ltb_lt; lia).
    rewrite (Hcells _ _ Hm).
    replace (i / size * size + i mod size) with i by lia.
    destruct (Z.leb_spec 0 i); [|lia]. destruct (Z.ltb_spec i (len pixels)); [|lia].
    cbn [andb]. f_equal. apply uint8_pixel_id.
    apply (proj1 (List.Forall_nth is_uint8_pixel pixels) Hvalid). unfold len in Hi. lia.
  - intros row col Hrow Hcol Hpad. unfold getitem, in_shape. rewrite Hh, Hw.
    replace ((0 <=? row) && (row <? size) && (0 <=? col) && (col <? size)) with true
      by (symmetry; rewrite !andb_true_iff, !Z.leb_le, !Z.ltb_lt; lia).
    rewrite (Hcells _ _ Hcol).
    destruct (Z.ltb_spec (row * size + col) (len pixels)); [lia|].
    now rewrite andb_false_r.
Qed.

Lemma C9_raster_layout_witness :
  let pixels := [RGB 1 2 3; RGB 4 5 6] in
  let size := ceil_sqrt (len pixels) in
  exists arr,
    Encrypt.raster pixels = Some arr /\
    height arr = size /\ width arr = size /\
    (size - 1) * (size - 1) < len pixels <= size * size /\
    (forall i, 0 <= i < len pixels ->
       getitem arr (i / size) (i mod size) = Some (nth (Z.to_nat i) pixels white)) /\
    (forall row col, 0 <= row < size -> 0 <= col < size ->
       len pixels <= row * size + col -> getitem arr row col = Some white).
Proof.
  apply (C9_raster_layout [RGB 1 2 3; RGB 4 5 6]).
  - vm_compute. discriminate.
  - repeat (apply List.Forall_cons;
            [unfold is_uint8_pixel, is_uint8; cbn [red green blue]; lia|]).
    apply List.Forall_nil.
Defined.

(** ** Further properties of the encoder *)

(** X7 - The packer loses nothing and pads with zeros.  The channel values
    of the pixels made from a byte string are that byte string followed by
    as many zero bytes as it takes to fill the last pixel (none, one or
    two), and the number of pixels is [ceil(len / 3)]. *)
Theorem X7_packer_inverse l :
  flat_map channels (Encrypt.bytes_to_pixels l) =
    l ++ repeat 0 (Z.to_nat ((- len l) mod 3)) /\
  len (Encrypt.bytes_to_pixels l) = ceil_div (len l) 3.
Proof.
  split; [|apply bytes_to_pixels_len].
  induction l as [| a | a b | a b c l IH] using list_ind3; try reflexivity.
  cbn [Encrypt.bytes_to_pixels flat_map channels app]. rewrite IH. do 3 f_equal.
  rewrite !len_cons. do 3 f_equal.
  replace (- (len l + 1 + 1 + 1)) with (- len l + (-1) * 3) by lia.
  symmetry. apply Z_mod_plus_full.
Qed.

(** X8 - The chunked read is one read.  Whatever the length of the file
    that is left, the loop that reads [bytes_to_read] bytes in chunks of at
    most 10 MB stops within its bound on iterations with the next
    [min(bytes_to_read, bytes left)] bytes of the file in [chunk_bytes], in
    order, and the file positioned right after them. *)
Theorem X8_chunked_read bytes_to_read f :
  fst (Encrypt.read_chunk bytes_to_read f) ++ snd (Encrypt.read_chunk bytes_to_read f) = f /\
  fst (Encrypt.read_chunk bytes_to_read f) = take (Z.to_nat bytes_to_read) f /\
  len (fst (Encrypt.read_chunk bytes_to_read f)) = Z.min (Z.max 0 bytes_to_read) (len f).
Proof.
  rewrite read_chunk_spec. cbn [fst snd]. split; [apply take_drop|].
  split; [reflexivity|]. unfold len. rewrite length_take. lia.
Qed.

(** X9 - The images partition one pixel stream.  For every file content
    whose pixel count [T] is below [2^27 * M] (where the quotient of line
    166 has the exact ceiling), the pixel lists of the written images,
    concatenated in series order, are the 5 header pixels followed by the
    packed bytes of the whole file: no pixel is lost, repeated, reordered
    or split between two images. *)
Theorem X9_stream_preserved content :
  Encrypt.total_pixels_needed (len content) < 2 ^ 27 * Encrypt.max_pixels_per_image ->
  exists units,
    Encrypt.encrypt_file content = Some units /\
    concat (map Encrypt.image_pixels units) =
      create_header_pixels (Encrypt.complete_pixels (len content))
                           (Encrypt.extra_bits (len content))
      ++ Encrypt.bytes_to_pixels content.
Proof.
  intros Hsmall.
  pose proof (exact_count_small (len content) (len_nonneg content) Hsmall) as Hq.
  destruct (encrypt_file_spec content Hq) as (units & Henc & Hspec).
  exists units. split; [exact Henc|].
  pose proof (partition_facts (len content) (len_nonneg content) Hq) as F. cbv zeta in F.
  rewrite (units_concat content (Z.to_nat (Encrypt.num_images (len content))) Hq 0 units
             ltac:(lia) ltac:(lia) Hspec).
  change (0 * Encrypt.max_pixels_per_image) with 0. change (Z.to_nat 0) with 0%nat.
  now rewrite drop_0.
Qed.

Lemma X9_stream_preserved_witness :
  exists units,
    Encrypt.encrypt_file [171; 205] = Some units /\
    concat (map Encrypt.image_pixels units) =
      create_header_pixels (Encrypt.complete_pixels (len [171; 205]))
                           (Encrypt.extra_bits (len [171; 205]))
      ++ Encrypt.bytes_to_pixels [171; 205].
Proof.
  apply (X9_stream_preserved [171; 205]). vm_compute. reflexivity.
Defined.

(** No image has more than [M] pixels, whatever the size of the file. *)
Lemma build_pixels_bound n k f :
  0 <= n ->
  len (fst (Encrypt.build_pixels n k f)) <= Encrypt.max_pixels_per_image.
Proof.
  intros Hn. unfold Encrypt.build_pixels.
  rewrite read_chunk_spec. cbn [fst].
  rewrite len_app, bytes_to_pixels_len.
  pose proof (total_pixels_pos n Hn) as HT.
  pose proof (extra_bytes n) as Hc.
  pose proof (Z.mod_pos_bound n 3 ltac:(lia)) as Hm.
  set (b := Encrypt.bytes_to_read n k).
  set (chunk := take (Z.to_nat b) f).
  assert (Hchunk : 0 <= len chunk <= Z.max 0 b).
  { unfold chunk, len. rewrite length_take. lia. }
  pose proof (ceil_div_bounds (len chunk) 3 ltac:(lia)) as Hceil.
  assert (Hb : b <= 3 * Encrypt.data_pixels_in_image n k).
  { unfold b, Encrypt.bytes_to_read. destruct (_ && _); lia. }
  unfold Encrypt.data_pixels_in_image, Encrypt.pixels_in_image, Encrypt.header_pixels,
    Encrypt.max_pixels_per_image in *.
  destruct (Z.eqb_spec k 0).
  - change (len (create_header_pixels _ _)) with 5. lia.
  - rewrite len_nil. lia.
Qed.

Lemma image_loop_dims n image_nums :
  0 <= n ->
  forall f units,
    Encrypt.image_loop n image_nums f = Some units ->
    Forall (fun u =>
              height (Encrypt.img_array u) = ceil_sqrt (len (Encrypt.image_pixels u)) /\
              width (Encrypt.img_array u) = ceil_sqrt (len (Encrypt.image_pixels u)) /\
              len (Encrypt.image_pixels u) <= Encrypt.max_pixels_per_image) units.
Proof.
  intros Hn. induction image_nums as [|k nums IH]; intros f units Hloop.
  - cbn in Hloop. injection Hloop as <-. constructor.
  - cbn [Encrypt.image_loop] in Hloop.
    pose proof (build_pixels_bound n k f Hn) as Hbound.
    destruct (Encrypt.build_pixels n k f) as [pixels f'].
    destruct (raster_spec pixels) as (arr & Hr & Hh & Hw & _). rewrite Hr in Hloop.
    destruct (Encrypt.image_loop n nums f') as [rest|] eqn:Hrest; [|discriminate].
    injection Hloop as <-. constructor; [|now apply (IH f')].
    cbn [Encrypt.img_array Encrypt.image_pixels fst] in *. auto.
Qed.

(** X10 - Image dimensions.  Every image that the encoder produces is a
    square of side [ceil(sqrt(n))] for its [n] pixels, at most 10000 cells
    wide; when it has a pixel, its side is at least 1 and fewer than
    [2 * side - 1] of its cells are padding.  Below [2^27 * M] pixels every
    image has a pixel.  (Without that bound the quotient of line 166 can
    be rounded up, and the loop then runs once more than there are
    pixels.) *)
Theorem X10_image_dimensions content :
  exists units,
    Encrypt.encrypt_file content = Some units /\
    Forall (fun u =>
              let a := Encrypt.img_array u in
              let n := len (Encrypt.image_pixels u) in
              height a = ceil_sqrt n /\ width a = ceil_sqrt n /\
              0 <= height a <= 10000 /\
              (1 <= n -> 1 <= height a /\
                         0 <= height a * width a - n <= 2 * height a - 2)) units /\
    (Encrypt.total_pixels_needed (len content) < 2 ^ 27 * Encrypt.max_pixels_per_image ->
     Forall (fun u => 1 <= len (Encrypt.image_pixels u)) units).
Proof.
  destruct (image_loop_total (len content) (range (Encrypt.num_images (len content)))
              content) as (units & Henc).
  exists units. split; [exact Henc|]. split.
  - eapply Forall_impl;
      [exact (image_loop_dims _ _ (len_nonneg content) _ _ Henc)|]. cbv beta.
    intros u (Hh & Hw & Hmax). cbv zeta. rewrite Hh, Hw.
    set (n := len (Encrypt.image_pixels u)) in *.
    assert (0 <= n) by apply len_nonneg.
    pose proof (ceil_sqrt_bounds n ltac:(lia)) as (Hs0 & Hfit & Hleast).
    unfold Encrypt.max_pixels_per_image in Hmax.
    split; [reflexivity|]. split; [reflexivity|].
    split.
    + split; [lia|].
      destruct (Z.le_gt_cases (ceil_sqrt n) 10000); [assumption|].
      destruct (Z.eq_dec n 0) as [->|Hn]; [vm_compute in H0; discriminate|].
      specialize (Hleast ltac:(lia)). nia.
    + intros Hn. specialize (Hleast ltac:(lia)). split; nia.
  - intros Hsmall.
    pose proof (exact_count_small (len content) (len_nonneg content) Hsmall) as Hq.
    destruct (encrypt_file_spec content Hq) as (units' & Henc' & Hspec).
    assert (units' = units) as -> by (unfold Encrypt.encrypt_file in Henc'; congruence).
    pose proof (partition_facts (len content) (len_nonneg content) Hq) as F. cbv zeta in F.
    destruct F as (_ & _ & _ & _ & _ & _ & HK1 & HK & HM).
    eapply Forall_impl; [exact (units_in_range content _ 0 units Hspec)|]. cbv beta.
    intros u (j & Hj & Hpix & Hr).
    rewrite Hpix, spec_pixels_len by (auto; lia). lia.
Qed.

(** X24 - The quotient of line 166 can also be rounded up.  For a file of
    3 * ((2^53 + 3) * 10^8 - 5) bytes [T / M] is 2^53 + 3, which is not a
    double; it is rounded to 2^53 + 4 and the loop over the images runs
    once more than there are pixels to write: the last image is left
    without a pixel. *)
Theorem X24_one_image_too_many :
  Encrypt.total_pixels_needed (3 * ((2 ^ 53 + 3) * 100000000 - 5))
  = (2 ^ 53 + 3) * Encrypt.max_pixels_per_image /\
  Encrypt.num_images (3 * ((2 ^ 53 + 3) * 100000000 - 5)) = 2 ^ 53 + 4 /\
  ceil_div (Encrypt.total_pixels_needed (3 * ((2 ^ 53 + 3) * 100000000 - 5)))
           Encrypt.max_pixels_per_image = 2 ^ 53 + 3 /\
  Encrypt.pixels_in_image (3 * ((2 ^ 53 + 3) * 100000000 - 5)) (2 ^ 53 + 3) = 0.
Proof. vm_compute. repeat split; reflexivity. Qed.

(** ** The progress bar *)



(** ** Where the round trip holds *)

(** The written series of at most 999 images is decoded to the file under
    NumPy 1.x. *)
Lemma round_trip_numpy1 content :
  Forall is_uint8 content -> fits_999 content ->
  exists units,
    Encrypt.encrypt_file content = Some units /\
    Decrypt.decrypt_single_file NumPy1 (Encrypt.series units) None =
      Decrypt.Run (Decrypt.Returned true) (Some content)
        (Encrypt.data_pixels (len content)).
Proof.
  intros Hbytes Hfit.
  destruct (fits_999_valid content Hbytes Hfit) as (Hvalid & Hq & Hsmall).
  destruct (encrypt_file_spec content Hq) as (units & Henc & Hspec).
  exists units. split; [exact Henc|].
  pose proof (partition_facts (len content) (len_nonneg content) Hq) as F. cbv zeta in F.
  destruct (written_header NumPy1 content units Hbytes Henc) as (_ & Hh).
  rewrite decode_create_header in Hh by (destruct Hvalid as (_ & Hv); lia).
  rewrite (decrypt_exact (Encrypt.series units) None _ _
             (encrypt_file_uint8 content units Henc) Hh Hsmall).
  apply decrypt_carried; [exact Hvalid | exact Hq |].
  apply units_carry; [exact Hbytes | exact Hq | lia | lia | exact Hspec].
Qed.

(** X20 - Round trip under NumPy 1.x.  For every file of bytes whose series
    has at most 999 images (so that the images are read in the order in
    which they were written), the series that [encrypt_file] writes is
    decoded by [decrypt_single_file], with no destination present, to
    exactly the bytes of the file; every payload pixel is read once. *)
Theorem X20_round_trip content :
  Forall is_uint8 content -> fits_999 content ->
  exists units,
    Encrypt.encrypt_file content = Some units /\
    Decrypt.decrypt_single_file NumPy1 (Encrypt.series units) None =
      Decrypt.Run (Decrypt.Returned true) (Some content)
        (Encrypt.data_pixels (len content)).
Proof. apply round_trip_numpy1. Qed.

Lemma X20_round_trip_witness :
  exists units,
    Encrypt.encrypt_file [171; 205; 7; 0] = Some units /\
    Decrypt.decrypt_single_file NumPy1 (Encrypt.series units) None =
      Decrypt.Run (Decrypt.Returned true) (Some [171; 205; 7; 0])
        (Encrypt.data_pixels (len [171; 205; 7; 0])).
Proof.
  apply (X20_round_trip [171; 205; 7; 0]).
  - repeat (apply List.Forall_cons; [unfold is_uint8; lia|]). apply List.Forall_nil.
  - vm_compute. discriminate.
Defined.

(** X21 - Padding neutrality up to 999 images.  For every file of bytes
    whose series has at most 999 images, any two series that have the
    shapes of the written one and agree with it on every cell below the
    pixel count of each image - whatever their padding cells hold - give
    the same run of [decrypt_single_file], under either NumPy: the same
    outcome, the same bytes and the same number of pixels read.  Under
    NumPy 1.x that run restores the file. *)
Theorem X21_padding_neutrality np content units files1 files2 :
  Forall is_uint8 content -> fits_999 content ->
  Encrypt.encrypt_file content = Some units ->
  padding_variant units files1 ->
  padding_variant units files2 ->
  Decrypt.decrypt_single_file np files1 None = Decrypt.decrypt_single_file np files2 None /\
  (np = NumPy1 ->
   Decrypt.decrypt_single_file np files1 None =
     Decrypt.Run (Decrypt.Returned true) (Some content)
       (Encrypt.data_pixels (len content))).
Proof.
  intros Hbytes Hfit Henc Hvar1 Hvar2.
  destruct (fits_999_valid content Hbytes Hfit) as (Hvalid & Hq & Hsmall).
  rewrite (padding_neutral np content units files1 Hvalid Hq Henc Hvar1).
  rewrite (padding_neutral np content units files2 Hvalid Hq Henc Hvar2).
  split; [reflexivity|]. intros ->.
  destruct (round_trip_numpy1 content Hbytes Hfit) as (units' & Henc' & Hrun).
  assert (units' = units) as -> by congruence. exact Hrun.
Qed.

Lemma X21_padding_neutrality_witness :
  Decrypt.decrypt_single_file NumPy2 (map (repaint 6) (Encrypt.series two_byte_units)) None
  = Decrypt.decrypt_single_file NumPy2 (Encrypt.series two_byte_units) None /\
  (NumPy2 = NumPy1 ->
   Decrypt.decrypt_single_file NumPy2 (map (repaint 6) (Encrypt.series two_byte_units)) None
   = Decrypt.Run (Decrypt.Returned true) (Some [171; 205])
       (Encrypt.data_pixels (len [171; 205]))).
Proof.
  apply (X21_padding_neutrality NumPy2 [171; 205] two_byte_units).
  - repeat (apply List.Forall_cons; [unfold is_uint8; lia|]). apply List.Forall_nil.
  - vm_compute. discriminate.
  - vm_compute. reflexivity.
  - apply List.Forall2_cons; [|apply List.Forall2_nil].
    split; [reflexivity|]. split; [reflexivity|].
    intros j Hj. change (len (Encrypt.image_pixels _)) with 6 in Hj.
    unfold cell, repaint. cbn [cells height width Encrypt.img_array two_byte_units].
    replace (j / 3 * 3 + j mod 3) with j
      by (rewrite Z.mul_comm; apply Z.div_mod; lia).
    destruct (Z.ltb_spec j 6); [reflexivity | lia].
  - apply padding_variant_refl.
Defined.

(** X22 - Partition shape below the float threshold.  With [T = 5 +
    complete_pixels + (1 if extra_bits > 0 else 0)] and [M = 100,000,000]:
    for every file with [T < 2^27 * M] the encoder writes exactly
    [ceil(T / M)] images; image 1 holds [min(M, T)] pixels, the first 5 of
    them the header; every image holds at most [M] pixels, every image
    before the final one exactly [M]; and the final image holds [T mod M]
    pixels, or [M] when [M] divides [T]. *)
Theorem X22_partition_shape content :
  Encrypt.total_pixels_needed (len content) < 2 ^ 27 * Encrypt.max_pixels_per_image ->
  let n := len content in
  let T := 5 + Encrypt.complete_pixels n + (if 0 <? Encrypt.extra_bits n then 1 else 0) in
  let M := Encrypt.max_pixels_per_image in
  M = 100000000 /\
  exists units,
    Encrypt.encrypt_file content = Some units /\
    len units = ceil_div T M /\
    (exists first rest,
        units = first :: rest /\
        len (Encrypt.image_pixels first) = Z.min M T /\
        take 5 (Encrypt.image_pixels first) =
          create_header_pixels (Encrypt.complete_pixels n) (Encrypt.extra_bits n)) /\
    Forall (fun u => len (Encrypt.image_pixels u) <= M) units /\
    (exists front final,
        units = front ++ [final] /\
        Forall (fun u => len (Encrypt.image_pixels u) = M) front /\
        len (Encrypt.image_pixels final) = if T mod M =? 0 then M else T mod M).
Proof.
  intros Hsmall n T M. split; [reflexivity|].
  pose proof (exact_count_small (len content) (len_nonneg content) Hsmall) as Hq.
  assert (T = Encrypt.total_pixels_needed n) as HT
    by (unfold T, Encrypt.total_pixels_needed, Encrypt.data_pixels, Encrypt.header_pixels; lia).
  destruct (encrypt_file_spec content Hq) as (units & Henc & Hspec). fold n in Hspec.
  pose proof (partition_facts n (len_nonneg content) Hq) as F. cbv zeta in F.
  destruct F as (_ & _ & _ & _ & _ & HT5 & HK1 & HK & HM).
  fold M in HK, HM. rewrite <- HT in HK, HT5.
  set (K := Encrypt.num_images n) in *.
  exists units. split; [exact Henc|].
  assert (len units = K) as Hcount.
  { apply Forall2_length in Hspec. rewrite zrange_length in Hspec. unfold len. lia. }
  split.
  { rewrite Hcount, HT. exact Hq. }
  split; [|split].
  - destruct (Z.to_nat K) as [|m] eqn:Em; [lia|].
    cbn [zrange] in Hspec. inversion Hspec as [|? first ? rest (Hpix & _) _]; subst.
    exists first, rest. split; [reflexivity|]. rewrite Hpix. split.
    + rewrite spec_pixels_len by (first [exact Hq | fold n K; lia]).
      fold n M. rewrite <- HT. lia.
    + apply spec_pixels_header.
  - pose proof (units_pixel_counts content (Z.to_nat K) Hq 0 units
                  ltac:(lia) ltac:(fold n K; lia) Hspec) as Hcounts.
    eapply Forall_impl; [exact Hcounts|]. cbv beta.
    intros u (j & _ & ->). fold M. lia.
  - replace (Z.to_nat K) with (Z.to_nat (K - 1) + 1)%nat in Hspec by lia.
    rewrite zrange_app in Hspec.
    apply Forall2_app_inv_l in Hspec.
    destruct Hspec as (front & last & Hfront & Hlast & ->).
    cbn [zrange] in Hlast.
    inversion Hlast as [|? final ? tl (Hpix & _) Htl]; subst. inversion Htl; subst.
    exists front, final. split; [reflexivity|]. split.
    + pose proof (units_pixel_counts content (Z.to_nat (K - 1)) Hq 0 front
                    ltac:(lia) ltac:(fold n K; lia) Hfront) as Hcounts.
      eapply Forall_impl; [exact Hcounts|]. cbv beta.
      intros u (j & Hj & ->). fold n M. rewrite <- HT. nia.
    + rewrite Hpix, spec_pixels_len by (first [exact Hq | fold n K; lia]).
      fold n M. rewrite <- HT.
      rewrite Z.add_0_l, Z2Nat.id by lia.
      assert (T = (K - 1) * M + (T - (K - 1) * M)) as Hsplit by lia.
      destruct (Z.eq_dec (T - (K - 1) * M) M) as [Heq|Hne].
      * assert (T mod M = 0) as ->
          by (symmetry; apply (Z.mod_unique T M K 0); lia).
        cbn [Z.eqb]. lia.
      * assert (T mod M = T - (K - 1) * M) as Hmod
          by (symmetry; apply (Z.mod_unique T M (K - 1) (T - (K - 1) * M)); lia).
        rewrite Hmod. destruct (Z.eqb_spec (T - (K - 1) * M) 0); lia.
Qed.

Lemma X22_partition_shape_witness :
  let n := len [171; 205] in
  let T := 5 + Encrypt.complete_pixels n + (if 0 <? Encrypt.extra_bits n then 1 else 0) in
  let M := Encrypt.max_pixels_per_image in
  M = 100000000 /\
  exists units,
    Encrypt.encrypt_file [171; 205] = Some units /\
    len units = ceil_div T M /\
    (exists first rest,
        units = first :: rest /\
        len (Encrypt.image_pixels first) = Z.min M T /\
        take 5 (Encrypt.image_pixels first) =
          create_header_pixels (Encrypt.complete_pixels n) (Encrypt.extra_bits n)) /\
    Forall (fun u => len (Encrypt.image_pixels u) <= M) units /\
    (exists front final,
        units = front ++ [final] /\
        Forall (fun u => len (Encrypt.image_pixels u) = M) front /\
        len (Encrypt.image_pixels final) = if T mod M =? 0 then M else T mod M).
Proof.
  apply (X22_partition_shape [171; 205]). vm_compute. reflexivity.
Defined.

(** X23 - Header codec in the range of the scalar.  For every
    [complete_pixels] that the scalar type of the decoder holds without
    wrapping - below 2^63 under NumPy 1.x, below 256 under NumPy 2 - and
    every [extra_bits < 24], [create_header_pixels] puts the 12 bytes of
    [complete_pixels], most significant first, into pixels 0-3 and
    [(0, 0, extra_bits)] into pixel 4, and the header parse of the decoder
    gives back the pair. *)
Theorem X23_header_round_trip np cp eb :
  0 <= cp < lowest np + modulus np -> 0 <= eb < 24 ->
  create_header_pixels cp eb =
    [RGB (byte_of cp 11) (byte_of cp 10) (byte_of cp 9);
     RGB (byte_of cp 8) (byte_of cp 7) (byte_of cp 6);
     RGB (byte_of cp 5) (byte_of cp 4) (byte_of cp 3);
     RGB (byte_of cp 2) (byte_of cp 1) (byte_of cp 0);
     RGB 0 0 eb] /\
  decode_header np (create_header_pixels cp eb) = (cp, eb).
Proof.
  intros Hcp Heb. split.
  - unfold create_header_pixels. rewrite low_bytes_spec.
    cbv [seq map rev app nth Nat.mul Nat.add Z.of_nat Pos.of_succ_nat Pos.succ].
    reflexivity.
  - assert (cp < 2 ^ 96) by (destruct np; unfold lowest, modulus in Hcp; lia).
    rewrite decode_written_header by (unfold is_uint8; lia).
    rewrite wrap_small; [reflexivity|].
    destruct np; unfold lowest, modulus in *; lia.
Qed.

Lemma X23_header_round_trip_witness :
  create_header_pixels 65793 16 =
    [RGB (byte_of 65793 11) (byte_of 65793 10) (byte_of 65793 9);
     RGB (byte_of 65793 8) (byte_of 65793 7) (byte_of 65793 6);
     RGB (byte_of 65793 5) (byte_of 65793 4) (byte_of 65793 3);
     RGB (byte_of 65793 2) (byte_of 65793 1) (byte_of 65793 0);
     RGB 0 0 16] /\
  decode_header NumPy1 (create_header_pixels 65793 16) = (65793, 16).
Proof.
  apply (X23_header_round_trip NumPy1 65793 16).
  - split; [lia | vm_compute; reflexivity].
  - lia.
Defined.

(** X25 - Under NumPy 2 no run writes more than 255 bytes.  Both targets of
    the loops are 8-bit scalars, so whatever the header declares and
    whatever the series holds, the output file has at most 255 bytes when
    the call ends, by return or by exception. *)
Theorem X25_numpy2_output_bound files cp eb :
  parse_header NumPy2 files = Some (cp, eb) ->
  exists out,
    Decrypt.output_file (Decrypt.decrypt_single_file NumPy2 files None) = Some out /\
    len out <= 255.
Proof.
  intros Hparse. rewrite (decrypt_loops NumPy2 files cp eb Hparse). cbv zeta.
  cbn [Decrypt.output_file]. eexists. split; [reflexivity|].
  set (tgt := Decrypt.bytes_target NumPy2 cp).
  set (tot := Decrypt.total_bytes NumPy2 cp eb).
  destruct (file_loop_advances NumPy2 tgt tot eb (Decrypt.update_interval tot) files 1
              (Decrypt.WState 0 [] 0 0 None)) as ((w & Hw & Hbw & _) & _ & Hmax & _).
  cbn [Decrypt.out_file Decrypt.bytes_written app] in Hw, Hbw, Hmax.
  rewrite Hw.
  assert (tgt <= 255).
  { unfold tgt, Decrypt.bytes_target.
    pose proof (wrap_range NumPy2 (cp * 3)). unfold lowest, modulus in *. lia. }
  assert (tot <= 255).
  { unfold tot, Decrypt.total_bytes. destruct (0 <? eb);
      match goal with |- wrap NumPy2 ?x <= _ => pose proof (wrap_range NumPy2 x) end;
      unfold lowest, modulus in *; lia. }
  lia.
Qed.

Lemma X25_numpy2_output_bound_witness :
  exists out,
    Decrypt.output_file (Decrypt.decrypt_single_file NumPy2 short_series None) = Some out /\
    len out <= 255.
Proof.
  apply (X25_numpy2_output_bound short_series 10 0). vm_compute. reflexivity.
Defined.

(** ** An image that is read before its turn *)

Lemma series_cells_app l1 l2 :
  forall idx,
    series_cells idx (l1 ++ l2)
    = series_cells idx l1 ++ series_cells (idx + len l1) l2.
Proof.
  induction l1 as [|a l1 IH]; intros idx.
  - cbn [app series_cells]. rewrite len_nil, Z.add_0_r. reflexivity.
  - cbn [app series_cells]. rewrite IH, len_cons, <- app_assoc.
    do 3 f_equal. lia.
Qed.

Lemma series_capacity_nonneg files :
  forall idx, 0 <= series_capacity idx files.
Proof.
  induction files as [|a rest IH]; intros idx; cbn [series_capacity]; [lia|].
  specialize (IH (idx + 1)). unfold capacity. lia.
Qed.

(** An image that is read while complete pixels are still missing gives
    all its cells to the output, padding cells included. *)
Lemma misplaced_image_read front a back H :
  Forall uint8_array (front ++ a :: back) ->
  header_field (front ++ a :: back) = Some (H, 0) ->
  H * 3 + 32 < 2 ^ 63 ->
  front <> [] ->
  series_capacity 1 front + capacity a 0 <= H ->
  exists pre post,
    Decrypt.output_file (Decrypt.decrypt_single_file NumPy1 (front ++ a :: back) None)
    = Some (pre ++ flat_map channels (payload_cells a 0) ++ post) /\
    len pre = 3 * series_capacity 1 front.
Proof.
  intros Hfiles Hh Hsmall Hne Hroom.
  rewrite (decoded_bytes _ H 0 Hfiles Hh Hsmall ltac:(lia)).
  rewrite series_cells_app. cbn [series_cells].
  assert ((1 + len front =? 1) = false) as ->.
  { apply Z.eqb_neq. destruct front; [contradiction|]. rewrite len_cons.
    pose proof (len_nonneg front). lia. }
  rewrite !flat_map_app.
  set (P := flat_map channels (series_cells 1 front)).
  set (Mid := flat_map channels (payload_cells a 0)).
  set (R := flat_map channels (series_cells _ back)).
  assert (HP : len P = 3 * series_capacity 1 front).
  { unfold P, len. rewrite flat_map_channels_length.
    pose proof (series_cells_len front 1) as HL. unfold len in HL. lia. }
  assert (HM : len Mid = 3 * capacity a 0).
  { unfold Mid, len. rewrite flat_map_channels_length.
    pose proof (series_cells_len [a] 2) as HL. cbn [series_cells series_capacity] in HL.
    rewrite app_nil_r in HL. change (2 =? 1) with false in HL. unfold len in HL. lia. }
  unfold Exact.total_bytes. cbn [Z.ltb]. change (0 <? 0) with false. rewrite Z.add_0_r.
  exists P, (take (Z.to_nat (H * 3) - length P - length Mid) R).
  split; [|exact HP].
  f_equal. unfold len in HP, HM.
  pose proof (series_capacity_nonneg front 1).
  assert (0 <= capacity a 0) by (unfold capacity; lia).
  rewrite take_app_ge by lia. f_equal.
  rewrite take_app_ge by lia. reflexivity.
Qed.

(** The numbers of the file of 1000 images. *)
Lemma thousand_images_facts :
  Encrypt.num_images thousand_images_size = 1000 /\
  Encrypt.total_pixels_needed thousand_images_size
  = 999 * Encrypt.max_pixels_per_image + 2 /\
  Encrypt.complete_pixels thousand_images_size = 999 * Encrypt.max_pixels_per_image - 3 /\
  Encrypt.extra_bits thousand_images_size = 0 /\
  Encrypt.pixels_in_image thousand_images_size 999 = 2.
Proof. vm_compute. repeat split; reflexivity. Qed.

Lemma thousand_images_exact : exact_count thousand_images_size.
Proof. apply exact_count_small; vm_compute; [discriminate | reflexivity]. Qed.

(** Every image before the last one of a series has [M] cells. *)
Lemma carries_full content :
  exact_count (len content) ->
  forall m k files,
    0 <= k -> k + Z.of_nat m <= Encrypt.num_images (len content) - 1 ->
    Forall2 (carries content) (zrange k m) files ->
    Forall (fun a => capacity a 0 = Encrypt.max_pixels_per_image /\
                     capacity a 5 = Encrypt.max_pixels_per_image - 5) files.
Proof.
  intros Hq.
  pose proof (partition_facts (len content) (len_nonneg content) Hq) as F. cbv zeta in F.
  destruct F as (_ & _ & _ & _ & _ & _ & HK1 & HK & HM).
  induction m as [|m IH]; intros k files Hk0 Hk Hall.
  - inversion Hall; subst. constructor.
  - cbn [zrange] in Hall.
    inversion Hall as [|? a ? rest ((Hh & Hw & _ & _) & Hfull) Hrest]; subst.
    constructor; [|apply (IH (k + 1)); auto; lia].
    specialize (Hfull ltac:(lia)).
    pose proof (spec_pixels_len content k Hq ltac:(lia)) as Hl.
    unfold capacity. rewrite HM in *. lia.
Qed.

Lemma series_capacity_full files :
  Forall (fun a => capacity a 0 = Encrypt.max_pixels_per_image /\
                   capacity a 5 = Encrypt.max_pixels_per_image - 5) files ->
  forall idx,
    series_capacity idx files
    = len files * Encrypt.max_pixels_per_image
      - (if (idx <=? 1) && (1 <? idx + len files) then 5 else 0).
Proof.
  induction 1 as [|a rest (H0 & H5) Hrest IH]; intros idx.
  - cbn [series_capacity]. change (len (@nil ndarray)) with 0.
    destruct (Z.leb_spec idx 1), (Z.ltb_spec 1 (idx + 0)); cbn [andb]; lia.
  - cbn [series_capacity]. rewrite IH, len_cons.
    pose proof (len_nonneg rest).
    destruct (Z.eqb_spec idx 1) as [->|Hidx].
    + rewrite H5.
      destruct (Z.leb_spec (1 + 1) 1), (Z.ltb_spec 1 (1 + (len rest + 1)));
        cbn [andb]; try lia.
      destruct (Z.leb_spec 1 1); [|lia]. cbn [andb]. lia.
    + rewrite H0.
      destruct (Z.leb_spec (idx + 1) 1), (Z.leb_spec idx 1),
        (Z.ltb_spec 1 (idx + 1 + len rest)), (Z.ltb_spec 1 (idx + (len rest + 1)));
        cbn [andb]; lia.
Qed.

(** What the decoder writes when it reads the series of 1000 images in the
    order of the file names. *)
Lemma image_1000_read content units files :
  Forall is_uint8 content -> len content = thousand_images_size ->
  Encrypt.encrypt_file content = Some units ->
  padding_variant units files ->
  Forall uint8_array files ->
  exists last_unit last pre post,
    drop 999 units = [last_unit] /\
    len (Encrypt.image_pixels last_unit) = 2 /\
    (forall r c, 0 <= c < 2 -> 2 <= r * 2 + c ->
       cells (Encrypt.img_array last_unit) r c = white) /\
    drop 999 files = [last] /\ length (take 999 files) = 999%nat /\
    height last = 2 /\ width last = 2 /\
    Decrypt.output_file (Decrypt.decrypt_single_file NumPy1 (in_read_order files) None)
    = Some (pre
            ++ flat_map channels
                 [cells last 0 0; cells last 0 1; cells last 1 0; cells last 1 1]
            ++ post) /\
    len pre = 3 * (99 * Encrypt.max_pixels_per_image - 5).
Proof.
  intros Hbytes Hlen Henc Hvar Hfiles.
  destruct thousand_images_facts as (HK & HT & Hcp & Heb & _).
  pose proof thousand_images_exact as Hq. rewrite <- Hlen in HK, HT, Hcp, Heb, Hq.
  destruct (encrypt_file_spec content Hq) as (units' & Henc' & Hspec).
  assert (units' = units) as -> by congruence.
  rewrite HK in Hspec. change (Z.to_nat 1000) with (99 + (900 + 1))%nat in Hspec.
  pose proof (variant_carries content Hbytes Hq (99 + (900 + 1)) 0 units files
                ltac:(lia) ltac:(lia) Hspec Hvar) as Hcar.
  (* the three parts of the series *)
  rewrite !zrange_app in Hspec, Hcar.
  apply Forall2_app_inv_l in Hcar.
  destruct Hcar as (F1 & R & HF1 & HR & ->).
  apply Forall2_app_inv_l in HR.
  destruct HR as (F2 & L & HF2 & HL & ->).
  cbn [zrange] in HL. inversion HL as [|? fl ? tl (Hholds & _) Htl]; subst.
  inversion Htl; subst. clear Htl HL.
  apply Forall2_app_inv_l in Hspec.
  destruct Hspec as (U1 & UR & HU1 & HUR & ->).
  apply Forall2_app_inv_l in HUR.
  destruct HUR as (U2 & UL & HU2 & HUL & ->).
  cbn [zrange] in HUL. inversion HUL as [|? ul ? tl (Hpix & Hras) Htl]; subst.
  inversion Htl; subst. clear Htl HUL.
  assert (HlF1 : length F1 = 99%nat)
    by (apply Forall2_length in HF1; rewrite zrange_length in HF1; lia).
  assert (HlF2 : length F2 = 900%nat)
    by (apply Forall2_length in HF2; rewrite zrange_length in HF2; lia).
  assert (HlU1 : length U1 = 99%nat)
    by (apply Forall2_length in HU1; rewrite zrange_length in HU1; lia).
  assert (HlU2 : length U2 = 900%nat)
    by (apply Forall2_length in HU2; rewrite zrange_length in HU2; lia).
  (* the last image *)
  assert (Hn : len (spec_pixels content (0 + Z.of_nat 99 + Z.of_nat 900)) = 2).
  { rewrite spec_pixels_len by (auto; lia). rewrite HT.
    unfold Encrypt.max_pixels_per_image. lia. }
  destruct (raster_spec (Encrypt.image_pixels ul)) as (arr & Hras' & Hh & Hw & Hcells).
  rewrite Hpix in Hras', Hh, Hw, Hcells. rewrite Hras in Hras'. injection Hras' as <-.
  rewrite Hn in Hh, Hw, Hcells. change (ceil_sqrt 2) with 2 in Hh, Hw, Hcells.
  apply Forall2_app_inv_l in Hvar.
  destruct Hvar as (F1' & R' & HV1 & HVR & E1).
  apply Forall2_app_inv_l in HVR.
  destruct HVR as (F2' & L' & HV2 & HVL & E2).
  inversion HVL as [|? fl' ? tl (Hvh & Hvw & _) Htl]; subst L'.
  inversion Htl; subst. clear Htl HVL.
  assert (F1' = F1 /\ F2' ++ [fl'] = F2 ++ [fl]) as (-> & E3).
  { apply app_inj_1; [|exact (eq_sym E1)].
    apply Forall2_length in HV1. lia. }
  assert (F2' = F2 /\ [fl'] = [fl]) as (-> & E4).
  { apply app_inj_1; [|exact E3]. apply Forall2_length in HV2. lia. }
  injection E4 as ->.
  rewrite Hh in Hvh. rewrite Hw in Hvw.
  exists ul, fl.
  (* the order of reading *)
  assert (Horder : in_read_order (F1 ++ F2 ++ [fl]) = F1 ++ fl :: F2).
  { unfold in_read_order.
    rewrite (take_app_length' F1 _ 99 (eq_sym HlF1)).
    rewrite (drop_app_length' F1 _ 99 (eq_sym HlF1)).
    rewrite (take_app_length' F2 _ 900 (eq_sym HlF2)).
    rewrite (app_assoc F1 F2 [fl]) at 1.
    rewrite (drop_app_length' (F1 ++ F2) [fl] 999) by (rewrite length_app; lia).
    reflexivity. }
  rewrite Horder.
  (* the header *)
  destruct F1 as [|f0 F1t]; [discriminate|].
  assert (Hhead : header_field ((f0 :: F1t) ++ fl :: F2)
                  = Some (Encrypt.complete_pixels (len content), 0)).
  { cbn [zrange] in HF1. inversion HF1 as [|? ? ? ? (Hh0 & _) _]; subst.
    cbn [app header_field].
    rewrite (read_header_first f0 (spec_pixels content 0) Hh0)
      by (rewrite spec_pixels_len by (auto; lia); rewrite HT;
          unfold Encrypt.max_pixels_per_image; lia).
    rewrite spec_pixels_header, Heb.
    rewrite decode_create_header
      by (rewrite Hcp; unfold Encrypt.max_pixels_per_image; lia).
    reflexivity. }
  (* the cells before the last image *)
  pose proof (carries_full content Hq 99 0 (f0 :: F1t) ltac:(lia) ltac:(lia) HF1) as Hfull.
  pose proof (series_capacity_full _ Hfull 1) as Hcap1.
  change (len (f0 :: F1t)) with (Z.of_nat (length (f0 :: F1t))) in Hcap1.
  rewrite HlF1 in Hcap1. change (Z.of_nat 99) with 99 in Hcap1.
  change ((1 <=? 1) && (1 <? 1 + 99)) with true in Hcap1. cbv iota in Hcap1.
  assert (Hcapl : capacity fl 0 = 4) by (unfold capacity; rewrite Hvh, Hvw; reflexivity).
  assert (Hfiles' : Forall uint8_array ((f0 :: F1t) ++ fl :: F2)).
  { apply Forall_app in Hfiles. destruct Hfiles as (Hf1 & Hf2).
    apply Forall_app in Hf2. destruct Hf2 as (Hf2 & Hf3).
    apply Forall_app. split; [exact Hf1|].
    apply Forall_cons. split; [now apply Forall_cons_1 in Hf3 as (? & _) | exact Hf2]. }
  destruct (misplaced_image_read (f0 :: F1t) fl F2 _ Hfiles' Hhead
              ltac:(rewrite Hcp; unfold Encrypt.max_pixels_per_image; lia)
              ltac:(discriminate)
              ltac:(rewrite Hcap1, Hcapl, Hcp; unfold Encrypt.max_pixels_per_image; lia))
    as (pre & post & Hout & Hpre).
  exists pre, post.
  split.
  { rewrite (app_assoc U1 U2 [ul]).
    apply drop_app_length'. rewrite length_app. lia. }
  split; [rewrite Hpix; exact Hn|].
  split.
  { intros r c Hc Hpad. rewrite (Hcells r c Hc).
    destruct (Z.leb_spec 0 (r * 2 + c)); [|lia].
    destruct (Z.ltb_spec (r * 2 + c) 2); [lia | reflexivity]. }
  split.
  { rewrite (app_assoc (f0 :: F1t) F2 [fl]).
    apply drop_app_length'. rewrite length_app. lia. }
  split.
  { rewrite (app_assoc (f0 :: F1t) F2 [fl]).
    rewrite (take_app_length' ((f0 :: F1t) ++ F2) [fl] 999) by (rewrite length_app; lia).
    rewrite length_app. lia. }
  split; [exact Hvh|]. split; [exact Hvw|].
  split; [|rewrite Hpre, Hcap1; reflexivity].
  rewrite Hout. do 3 f_equal.
  unfold payload_cells. rewrite Hvh, Hvw.
  change (Z.to_nat 2 * Z.to_nat 2)%nat with 4%nat.
  cbn [Z.to_nat zrange drop map]. unfold cell. rewrite Hvw. reflexivity.
Qed.

Lemma repaint_uint8 n a : uint8_array a -> uint8_array (repaint n a).
Proof.
  intros Ha r c. unfold repaint. cbn [cells].
  destruct (_ <? n); [apply Ha|].
  unfold is_uint8_pixel, is_uint8. cbn [red green blue]. lia.
Qed.

(** Painting the padding of the last image black leaves its pixels. *)
Lemma black_padding_variant units last_unit :
  drop 999 units = [last_unit] ->
  len (Encrypt.image_pixels last_unit) = 2 ->
  width (Encrypt.img_array last_unit) = 2 ->
  padding_variant units (black_padding (Encrypt.series units)).
Proof.
  intros Hdrop Hn Hw. unfold padding_variant, black_padding, Encrypt.series.
  rewrite <- (take_drop 999 units) at 1.
  rewrite firstn_map, <- map_drop, Hdrop. cbn [map].
  apply Forall2_app.
  - generalize (take 999 units). intros l.
    induction l as [|u l IH]; constructor; [|exact IH]. repeat split; auto.
  - constructor; [|constructor]. split; [reflexivity|]. split; [reflexivity|].
    intros j Hj. rewrite Hn in Hj. unfold cell, repaint. cbn [cells height width].
    rewrite Hw.
    replace (j / 2 * 2 + j mod 2) with j by (rewrite Z.mul_comm; apply Z.div_mod; lia).
    destruct (Z.ltb_spec j 2); [reflexivity | lia].
Qed.

(** C6, at a file of 299,699,999,991 bytes: its series has 1000 images,
    the last of them with two pixels in a 2 x 2 raster; the name of image
    1000 sorts between those of images 099 and 100, so
    [sorted(glob(pattern))] hands it to the decoder as the hundredth image;
    read there under NumPy 1.x, all four of its cells are written to the
    output, the two padding cells included; and the written series and the
    same series with these two padding cells painted black are decoded to
    different files. *)
Theorem C6_padding_read_at_1000_images :
  Encrypt.num_images thousand_images_size = 1000 /\
  Encrypt.pixels_in_image thousand_images_size 999 = 2 /\
  matching_files [] (generated_files [97] 1000 bin) [97] bin
  = map (fun image_num => image_filename [97] image_num bin) read_order_1000 /\
  exists units,
    Encrypt.encrypt_file (repeat 0 (Z.to_nat thousand_images_size)) = Some units /\
    (forall files,
       padding_variant units files -> Forall uint8_array files ->
       exists last pre post,
         drop 999 files = [last] /\ height last = 2 /\ width last = 2 /\
         Decrypt.output_file
           (Decrypt.decrypt_single_file NumPy1 (in_read_order files) None)
         = Some (pre
                 ++ flat_map channels
                      [cells last 0 0; cells last 0 1; cells last 1 0; cells last 1 1]
                 ++ post) /\
         len pre = 3 * (99 * Encrypt.max_pixels_per_image - 5)) /\
    padding_variant units (black_padding (Encrypt.series units)) /\
    Decrypt.decrypt_single_file NumPy1
      (in_read_order (black_padding (Encrypt.series units))) None
    <> Decrypt.decrypt_single_file NumPy1 (in_read_order (Encrypt.series units)) None.
Proof.
  destruct thousand_images_facts as (HK & _ & _ & _ & Hlast).
  split; [exact HK|]. split; [exact Hlast|].
  split; [vm_compute; reflexivity|].
  set (content := repeat 0 (Z.to_nat thousand_images_size)).
  assert (Hbytes : Forall is_uint8 content).
  { apply Forall_forall. intros x Hx. apply list_elem_of_In, repeat_spec in Hx.
    subst x. unfold is_uint8. lia. }
  assert (Hlen : len content = thousand_images_size).
  { unfold content, len. rewrite repeat_length. apply Z2Nat.id.
    vm_compute. discriminate. }
  pose proof thousand_images_exact as Hq. rewrite <- Hlen in Hq.
  destruct (encrypt_file_spec content Hq) as (units & Henc & _).
  exists units. split; [exact Henc|].
  pose proof (encrypt_file_uint8 content units Henc) as Hu8.
  pose proof (padding_variant_refl units) as Hrefl.
  destruct (image_1000_read content units (Encrypt.series units) Hbytes Hlen Henc Hrefl Hu8)
    as (ul & last1 & pre1 & post1 & Hdu & Hn & Hwhite & Hd1 & Ht1 & Hh1 & Hw1 & Ho1 & Hp1).
  assert (Hlast1 : last1 = Encrypt.img_array ul).
  { unfold Encrypt.series in Hd1. rewrite <- map_drop, Hdu in Hd1.
    cbn [map] in Hd1. congruence. }
  assert (Hvar2 : padding_variant units (black_padding (Encrypt.series units))).
  { apply (black_padding_variant units ul Hdu Hn). now rewrite <- Hlast1. }
  assert (Hu8' : Forall uint8_array (black_padding (Encrypt.series units))).
  { unfold black_padding. apply Forall_app. split.
    - now apply Forall_take.
    - apply Forall_map. eapply Forall_impl; [apply Forall_drop, Hu8|].
      intros a Ha. now apply repaint_uint8. }
  split; [|split; [exact Hvar2|]].
  - intros files Hvar Hfiles.
    destruct (image_1000_read content units files Hbytes Hlen Henc Hvar Hfiles)
      as (_ & last & pre & post & _ & _ & _ & Hd & _ & Hh & Hw & Ho & Hp).
    exists last, pre, post. repeat split; assumption.
  - destruct (image_1000_read content units _ Hbytes Hlen Henc Hvar2 Hu8')
      as (_ & last2 & pre2 & post2 & _ & _ & _ & Hd2 & _ & Hh2 & Hw2 & Ho2 & Hp2).
    assert (Hlast2 : last2 = repaint 2 last1).
    { unfold black_padding in Hd2.
      rewrite (drop_app_length' _ _ 999) in Hd2 by (symmetry; exact Ht1).
      rewrite Hd1 in Hd2. cbn [map] in Hd2. congruence. }
    intros Heq. rewrite Heq, Ho1 in Ho2.
    injection Ho2 as Ho2.
    apply app_inj_1 in Ho2; [|unfold len in Hp1, Hp2; lia].
    destruct Ho2 as (_ & Ho2).
    cbn [flat_map channels app] in Ho2.
    assert (Hred : red (cells last1 1 0) = red (cells last2 1 0)) by congruence.
    rewrite Hlast2 in Hred. unfold repaint in Hred. cbn [cells] in Hred. rewrite Hw1 in Hred.
    rewrite Hlast1, (Hwhite 1 0 ltac:(lia) ltac:(lia)) in Hred.
    vm_compute in Hred. discriminate.
Qed.

(** C1, at two files.  The file of the twelve bytes 00 to 0B: under NumPy 2
    the decoder stops with the OverflowError of the progress display after
    nine bytes and the file is not restored (under NumPy 1.x the same
    series is decoded to the twelve bytes).  The file of 299,699,999,991
    zero bytes: its series has 1000 images, [sorted(glob(pattern))] hands
    image 1000 to the decoder as the hundredth, and under NumPy 1.x the
    decoded file contains the white padding of that image, so it is not the
    file that was encoded. *)
Theorem C1_round_trip_fails :
  (Encrypt.encrypt_file twelve_bytes = Some twelve_byte_units /\
   Decrypt.decrypt_single_file NumPy2 (Encrypt.series twelve_byte_units) None =
     Decrypt.Run (Decrypt.Raised Decrypt.OverflowError)
       (Some [0; 1; 2; 3; 4; 5; 6; 7; 8]) 3 /\
   Decrypt.decrypt_single_file NumPy1 (Encrypt.series twelve_byte_units) None =
     Decrypt.Run (Decrypt.Returned true) (Some twelve_bytes) 4) /\
  (matching_files [] (generated_files [97] 1000 bin) [97] bin
   = map (fun image_num => image_filename [97] image_num bin) read_order_1000 /\
   exists units out,
     Encrypt.encrypt_file (repeat 0 (Z.to_nat thousand_images_size)) = Some units /\
     len units = 1000 /\
     Decrypt.output_file
       (Decrypt.decrypt_single_file NumPy1 (in_read_order (Encrypt.series units)) None)
     = Some out /\
     In 255 out /\
     out <> repeat 0 (Z.to_nat thousand_images_size)).
Proof.
  split; [vm_compute; repeat split; reflexivity|].
  split; [vm_compute; reflexivity|].
  set (content := repeat 0 (Z.to_nat thousand_images_size)).
  assert (Hbytes : Forall is_uint8 content).
  { apply Forall_forall. intros x Hx. apply list_elem_of_In, repeat_spec in Hx.
    subst x. unfold is_uint8. lia. }
  assert (Hlen : len content = thousand_images_size).
  { unfold content, len. rewrite repeat_length. apply Z2Nat.id.
    vm_compute. discriminate. }
  pose proof thousand_images_exact as Hq. rewrite <- Hlen in Hq.
  destruct (encrypt_file_spec content Hq) as (units & Henc & Hspec).
  pose proof (encrypt_file_uint8 content units Henc) as Hu8.
  destruct (image_1000_read content units (Encrypt.series units) Hbytes Hlen Henc
              (padding_variant_refl units) Hu8)
    as (ul & last1 & pre1 & post1 & Hdu & Hn & Hwhite & Hd1 & Ht1 & Hh1 & Hw1 & Ho1 & Hp1).
  assert (Hlast1 : last1 = Encrypt.img_array ul).
  { unfold Encrypt.series in Hd1. rewrite <- map_drop, Hdu in Hd1.
    cbn [map] in Hd1. congruence. }
  exists units. eexists. split; [exact Henc|]. split.
  { apply Forall2_length in Hspec. rewrite zrange_length in Hspec.
    destruct thousand_images_facts as (HK & _). rewrite <- Hlen in HK. rewrite HK in Hspec.
    unfold len. rewrite <- Hspec. reflexivity. }
  split; [exact Ho1|].
  assert (Hin : In 255 (pre1
                        ++ flat_map channels
                             [cells last1 0 0; cells last1 0 1; cells last1 1 0;
                              cells last1 1 1]
                        ++ post1)).
  { apply in_or_app. right. apply in_or_app. left.
    cbn [flat_map channels app].
    rewrite Hlast1, (Hwhite 1 0 ltac:(lia) ltac:(lia)). cbn [red green blue white].
    do 6 right. left. reflexivity. }
  split; [exact Hin|].
  intros Heq. rewrite Heq in Hin. apply repeat_spec in Hin. discriminate.
Qed.

(** ** Boundary lengths, evaluated *)

Example round_trip_empty np :
  option_map (fun units => Decrypt.decrypt_single_file np (Encrypt.series units) None)
    (Encrypt.encrypt_file []) =
  Some (Decrypt.Run (Decrypt.Returned true) (Some []) 0).
Proof. destruct np; vm_compute; reflexivity. Qed.

Example round_trip_one_byte np :
  option_map (fun units => Decrypt.decrypt_single_file np (Encrypt.series units) None)
    (Encrypt.encrypt_file [255]) =
  Some (Decrypt.Run (Decrypt.Returned true) (Some [255]) 1).
Proof. destruct np; vm_compute; reflexivity. Qed.

Example round_trip_three_bytes np :
  option_map (fun units => Decrypt.decrypt_single_file np (Encrypt.series units) None)
    (Encrypt.encrypt_file [1; 2; 3]) =
  Some (Decrypt.Run (Decrypt.Returned true) (Some [1; 2; 3]) 1).
Proof. destruct np; vm_compute; reflexivity. Qed.

Example empty_file_shape :
  option_map (map (fun u => (len (Encrypt.image_pixels u),
                             height (Encrypt.img_array u),
                             width (Encrypt.img_array u))))
    (Encrypt.encrypt_file []) = Some [(5, 3, 3)].
Proof. vm_compute. reflexivity. Qed.

(** * File names and the series on disk *)

(** ** Decimal digits *)

Lemma decimal_digits_ascii fuel : forall n acc,
  Forall is_ascii_digit acc -> Forall is_ascii_digit (decimal_digits fuel n acc).
Proof.
  induction fuel as [|fuel IH]; intros n acc Hacc; simpl; auto.
  assert (Forall is_ascii_digit ((48 + n mod 10) :: acc)).
  { apply List.Forall_cons; auto. unfold is_ascii_digit.
    pose proof (Z.mod_pos_bound n 10 ltac:(lia)). lia. }
  destruct (n / 10 =? 0); auto.
Qed.

Lemma decimal_digits_length fuel : forall n acc,
  (length acc <= length (decimal_digits fuel n acc))%nat.
Proof.
  induction fuel as [|fuel IH]; intros n acc; simpl; auto.
  destruct (n / 10 =? 0); simpl; [lia|].
  etransitivity; [|apply IH]. simpl; lia.
Qed.

Lemma decimal_ascii n : Forall is_ascii_digit (decimal n).
Proof. apply decimal_digits_ascii. constructor. Qed.

Lemma decimal_long n : 1000 <= n -> (4 <= length (decimal n))%nat.
Proof.
  intros Hn. unfold decimal.
  replace (S (Z.to_nat n)) with (4 + Z.to_nat (n - 3))%nat by lia.
  assert (H1 : 100 <= n / 10) by (apply Z.div_le_lower_bound; lia).
  assert (H2 : 10 <= n / 10 / 10) by (apply Z.div_le_lower_bound; lia).
  assert (H3 : 1 <= n / 10 / 10 / 10) by (apply Z.div_le_lower_bound; lia).
  cbn [Nat.add decimal_digits].
  destruct (n / 10 =? 0) eqn:E1; [lia|].
  destruct (n / 10 / 10 =? 0) eqn:E2; [lia|].
  destruct (n / 10 / 10 / 10 =? 0) eqn:E3; [lia|].
  destruct (n / 10 / 10 / 10 / 10 =? 0); [simpl; lia|].
  etransitivity; [|apply decimal_digits_length]. simpl; lia.
Qed.

Lemma format_03d_long n : 1000 <= n -> format_03d n = decimal n.
Proof.
  intros Hn. unfold format_03d. pose proof (decimal_long n Hn).
  replace (3 - length (decimal n))%nat with 0%nat by lia. reflexivity.
Qed.

Lemma format_03d_small n :
  0 <= n < 1000 ->
  format_03d n = [48 + n / 100; 48 + (n / 10) mod 10; 48 + n mod 10].
Proof.
  intros Hn.
  assert (Hall : forallb (fun n =>
            match format_03d n with
            | [a; b; c] => (a =? 48 + n / 100) && (b =? 48 + (n / 10) mod 10)
                           && (c =? 48 + n mod 10)
            | _ => false
            end) (zrange 0 1000) = true) by (vm_compute; reflexivity).
  rewrite forallb_forall in Hall. specialize (Hall n).
  rewrite zrange_in in Hall. specialize (Hall ltac:(lia)).
  destruct (format_03d n) as [|a [|b [|c [|? ?]]]]; try discriminate.
  rewrite !andb_true_iff, !Z.eqb_eq in Hall. destruct Hall as [[-> ->] ->]. reflexivity.
Qed.

Lemma format_03d_ascii n : 0 <= n -> Forall is_ascii_digit (format_03d n).
Proof.
  intros Hn. unfold format_03d. apply Forall_app; split.
  - apply Forall_forall. intros x Hx. apply list_elem_of_In, repeat_spec in Hx.
    subst; unfold is_ascii_digit; lia.
  - apply decimal_ascii.
Qed.

Lemma format_03d_length n : (3 <= length (format_03d n))%nat.
Proof.
  unfold format_03d. rewrite length_app, repeat_length. lia.
Qed.

(** ** The order of strings *)


Lemma str_lt_asym a : forall b, str_lt a b = true -> str_lt b a = false.
Proof.
  induction a as [|x a IH]; intros [|y b]; simpl; auto; try discriminate.
  rewrite orb_true_iff, andb_true_iff, Z.ltb_lt, Z.eqb_eq.
  intros [H | [H1 H2]].
  - apply orb_false_iff; split; [apply Z.ltb_ge; lia|].
    apply andb_false_iff; left. apply Z.eqb_neq; lia.
  - subst. rewrite Z.ltb_irrefl, (IH _ H2), andb_false_r. reflexivity.
Qed.

Lemma str_lt_connex a : forall b, str_lt a b = false -> str_lt b a = false -> a = b.
Proof.
  induction a as [|x a IH]; intros [|y b]; simpl; auto; try discriminate.
  rewrite !orb_false_iff, !andb_false_iff, !Z.ltb_ge, !Z.eqb_neq.
  intros [H1 H2] [H3 H4].
  assert (x = y) by lia. subst.
  f_equal. apply IH; [destruct H2 | destruct H4]; auto; lia.
Qed.

Lemma str_lt_trans a : forall b c,
  str_lt a b = true -> str_lt b c = true -> str_lt a c = true.
Proof.
  induction a as [|x a IH]; intros [|y b] [|z c]; simpl; auto; try discriminate.
  rewrite !orb_true_iff, !andb_true_iff, !Z.ltb_lt, !Z.eqb_eq.
  intros [H1 | [H1 H1']] [H2 | [H2 H2']]; try (left; lia).
  right; split; [lia|]. eapply IH; eauto.
Qed.


Lemma in_order_iff a b : in_order a b <-> str_lt b a = false.
Proof.
  unfold in_order. destruct (str_lt b a); simpl; split; auto; try discriminate.
  intros [].
Qed.

Lemma in_order_total : Total in_order.
Proof.
  intros a b. rewrite !in_order_iff.
  destruct (str_lt b a) eqn:E; auto. right. now apply str_lt_asym.
Qed.

Lemma in_order_trans : Transitive in_order.
Proof.
  intros a b c. rewrite !in_order_iff. intros H1 H2.
  destruct (str_lt c a) eqn:E; auto.
  destruct (str_lt b a) eqn:E1; [discriminate|].
  destruct (str_lt a b) eqn:E2.
  - rewrite (str_lt_trans _ _ _ E E2) in H2. discriminate.
  - assert (a = b) by now apply str_lt_connex. subst. congruence.
Qed.






(** ** The names of a series in order *)






(** ** The pattern of the file names *)

Lemma is_alnum_not c : is_alnum c = true -> c <> 95 /\ c <> 10 /\ c <> 46.
Proof. unfold is_alnum. lia. Qed.

Lemma alnum_no c g : c = 95 \/ c = 10 \/ c = 46 -> forallb is_alnum g = true -> ~ In c g.
Proof.
  intros Hc Hg Hin. rewrite forallb_forall in Hg.
  apply Hg, is_alnum_not in Hin. lia.
Qed.

Lemma match_png_iff t : match_png t = true <-> t = png \/ t = png ++ [10].
Proof.
  unfold match_png, png. split.
  - destruct t as [|c1 [|c2 [|c3 [|c4 rest]]]]; try discriminate.
    rewrite !andb_true_iff, !Z.eqb_eq. intros [[[[-> ->] ->] ->] H].
    destruct rest as [|c [|? ?]]; try discriminate; auto.
    simpl in H. apply Z.eqb_eq in H. subst. auto.
  - intros [-> | ->]; reflexivity.
Qed.

Lemma match_png_head t : match_png t = true -> exists t', t = 46 :: t'.
Proof. intros [-> | ->]%match_png_iff; eexists; reflexivity. Qed.

Lemma match_extension_sound s : forall g3 g,
  match_extension g3 s = Some g ->
  exists e t, g = g3 ++ e /\ e <> [] /\ forallb is_alnum e = true /\
              s = e ++ t /\ match_png t = true.
Proof.
  induction s as [|c s IH]; intros g3 g; simpl; [discriminate|].
  destruct (is_alnum c) eqn:Hc; [|discriminate].
  destruct (match_extension (g3 ++ [c]) s) as [g'|] eqn:E.
  - intros [= <-]. apply IH in E. destruct E as (e & t & -> & He & Hal & -> & Ht).
    exists (c :: e), t. rewrite <- app_assoc. simpl. rewrite Hc, Hal. auto.
  - destruct (match_png s) eqn:Hp; [|discriminate].
    intros [= <-]. exists [c], s. simpl. rewrite Hc. auto.
Qed.

Lemma match_extension_complete e : forall t g3,
  e <> [] -> forallb is_alnum e = true -> match_png t = true ->
  match_extension g3 (e ++ t) = Some (g3 ++ e).
Proof.
  induction e as [|c e IH]; intros t g3 He Hal Ht; [congruence|].
  simpl in Hal. apply andb_true_iff in Hal. destruct Hal as [Hc Hal].
  simpl. rewrite Hc. destruct e as [|c' e].
  - destruct (match_png_head t Ht) as (t' & ->).
    cbn [app match_extension]. change (is_alnum 46) with false. cbv iota.
    rewrite Ht. reflexivity.
  - rewrite (IH t (g3 ++ [c]) ltac:(discriminate) Hal Ht).
    rewrite <- app_assoc. reflexivity.
Qed.

Lemma match_sequence_sound is_decimal s g2 g3 :
  match_sequence is_decimal s = Some (g2, g3) ->
  exists t, s = [95] ++ g2 ++ [95] ++ g3 ++ t /\
            length g2 = 3%nat /\ forallb is_decimal g2 = true /\
            g3 <> [] /\ forallb is_alnum g3 = true /\ match_png t = true.
Proof.
  unfold match_sequence.
  destruct s as [|u1 [|d1 [|d2 [|d3 [|u2 s]]]]]; try discriminate.
  destruct (_ && _) eqn:E; [|discriminate].
  rewrite !andb_true_iff, !Z.eqb_eq in E. destruct E as [[[[-> H1] H2] H3] ->].
  destruct (match_extension [] s) as [g|] eqn:Hg; [|discriminate].
  intros [= <- <-]. apply match_extension_sound in Hg.
  destruct Hg as (e & t & -> & He & Hal & -> & Ht).
  exists t. simpl. rewrite H1, H2, H3. repeat split; auto.
Qed.

Lemma match_sequence_complete is_decimal g2 g3 t :
  length g2 = 3%nat -> forallb is_decimal g2 = true ->
  g3 <> [] -> forallb is_alnum g3 = true -> match_png t = true ->
  match_sequence is_decimal ([95] ++ g2 ++ [95] ++ g3 ++ t) = Some (g2, g3).
Proof.
  intros Hl Hd Hg Hal Ht.
  destruct g2 as [|d1 [|d2 [|d3 [|? ?]]]]; try discriminate.
  simpl in Hd. rewrite !andb_true_iff in Hd. destruct Hd as (H1 & H2 & H3 & _).
  simpl. rewrite H1, H2, H3. simpl.
  rewrite (match_extension_complete g3 t []); auto.
Qed.

Lemma match_base_sound is_decimal s : forall g1 b g2 g3,
  match_base is_decimal g1 s = Some (b, g2, g3) ->
  exists h t, b = g1 ++ h /\ h <> [] /\ ~ In 10 h /\
    s = h ++ [95] ++ g2 ++ [95] ++ g3 ++ t /\
    length g2 = 3%nat /\ forallb is_decimal g2 = true /\
    g3 <> [] /\ forallb is_alnum g3 = true /\ match_png t = true.
Proof.
  induction s as [|c s IH]; intros g1 b g2 g3; simpl; [discriminate|].
  destruct (Z.eqb_spec c 10) as [|Hc]; [discriminate|].
  destruct (match_sequence is_decimal s) as [[h2 h3]|] eqn:E.
  - intros [= <- <- <-]. apply match_sequence_sound in E.
    destruct E as (t & -> & H). exists [c], t. repeat split; try tauto; try discriminate.
    simpl. intros [?|[]]. congruence.
  - intros H. apply IH in H.
    destruct H as (h & t & -> & Hh & Hn & -> & H).
    exists (c :: h), t. rewrite <- app_assoc. repeat split; try tauto; try discriminate.
    simpl. intros [?|?]; [congruence | tauto].
Qed.

Lemma filename_match_sound is_decimal s g1 g2 g3 :
  filename_match is_decimal s = Some (g1, g2, g3) -> accepted is_decimal s g1 g2 g3.
Proof.
  intros H. apply match_base_sound in H.
  destruct H as (h & t & -> & Hh & Hn & -> & Hl & Hd & Hg & Hal & Ht).
  exists t. simpl. apply match_png_iff in Ht. tauto.
Qed.

Lemma match_base_complete is_decimal h : forall g1 g2 g3 t,
  h <> [] -> ~ In 10 h ->
  length g2 = 3%nat -> forallb is_decimal g2 = true ->
  g3 <> [] -> forallb is_alnum g3 = true -> match_png t = true ->
  exists r, match_base is_decimal g1 (h ++ [95] ++ g2 ++ [95] ++ g3 ++ t) = Some r.
Proof.
  induction h as [|c h IH]; intros g1 g2 g3 t Hh Hn Hl Hd Hg Hal Ht; [congruence|].
  cbn [app match_base].
  destruct (Z.eqb_spec c 10) as [->|Hc]; [exfalso; apply Hn; now left|].
  destruct (match_sequence is_decimal _) as [[h2 h3]|] eqn:E; [eauto|].
  destruct h as [|c' h].
  - exfalso.
    pose proof (match_sequence_complete is_decimal g2 g3 t Hl Hd Hg Hal Ht) as E'.
    cbn [app] in E, E'. congruence.
  - apply IH; auto; try discriminate. intros Hin. apply Hn. now right.
Qed.

Lemma filename_match_complete is_decimal s g1 g2 g3 :
  accepted is_decimal s g1 g2 g3 -> exists r, filename_match is_decimal s = Some r.
Proof.
  intros (t & -> & Hh & Hn & Hl & Hd & Hg & Hal & Ht).
  apply match_base_complete; auto. now apply match_png_iff.
Qed.

(** The last underscore of a name separates the sequence number from the
    extension. *)
Lemma split_at_last (x : Z) a b a' b' :
  ~ In x b -> ~ In x b' -> a ++ x :: b = a' ++ x :: b' -> a = a' /\ b = b'.
Proof.
  intros Hb Hb' H. apply app_inj_pivot in H. tauto.
Qed.

Lemma ends_in_png g t e :
  t = png \/ t = png ++ [10] -> g ++ t = e ++ png -> g = e /\ t = png.
Proof.
  intros [-> | ->] H.
  - apply app_inv_tail in H. auto.
  - exfalso. unfold png in H.
    change (g ++ [46; 112; 110; 103] ++ [10]) with (g ++ [46; 112; 110; 103; 10]) in H.
    replace (g ++ [46; 112; 110; 103; 10]) with ((g ++ [46; 112; 110; 103]) ++ [10]) in H
      by (rewrite <- app_assoc; reflexivity).
    replace (e ++ [46; 112; 110; 103]) with ((e ++ [46; 112; 110]) ++ [103]) in H
      by (rewrite <- app_assoc; reflexivity).
    apply app_inj_tail in H. destruct H as [_ H]. discriminate.
Qed.

Lemma png_no_underscore : ~ In 95 png.
Proof. unfold png. simpl. lia. Qed.

(** How the pattern can accept a name of the form that [encrypt_file]
    gives: only with the extension as the third group. *)
Lemma accepted_name is_decimal base digits ext g1 g2 g3 :
  ~ In 95 ext ->
  accepted is_decimal (base ++ [95] ++ digits ++ [95] ++ ext ++ png) g1 g2 g3 ->
  base ++ [95] ++ digits = g1 ++ [95] ++ g2 /\ g3 = ext.
Proof.
  intros Hext (t & Hs & Hg1 & Hn & Hl & Hd & Hg3 & Hal & Ht).
  replace (base ++ [95] ++ digits ++ [95] ++ ext ++ png)
    with ((base ++ [95] ++ digits) ++ 95 :: (ext ++ png)) in Hs
    by (rewrite <- !app_assoc; reflexivity).
  replace (g1 ++ [95] ++ g2 ++ [95] ++ g3 ++ t)
    with ((g1 ++ [95] ++ g2) ++ 95 :: (g3 ++ t)) in Hs
    by (rewrite <- !app_assoc; reflexivity).
  apply split_at_last in Hs.
  - destruct Hs as [H1 H2]. split; auto.
    symmetry in H2. apply ends_in_png in H2; tauto.
  - rewrite in_app_iff. pose proof png_no_underscore. tauto.
  - rewrite in_app_iff. intros [H|H].
    + revert H. apply alnum_no; auto.
    + destruct Ht as [-> | ->]; revert H; unfold png; simpl; lia.
Qed.

(** ** The pattern of the series *)








Lemma default_extension_alnum suffix :
  forallb is_alnum suffix = true ->
  default_extension suffix <> [] /\ forallb is_alnum (default_extension suffix) = true.
Proof.
  destruct suffix; simpl; intros H; split; auto; discriminate.
Qed.

Lemma ascii_digits_decimal (is_decimal : Z -> bool) digits :
  (forall c, 48 <= c <= 57 -> is_decimal c = true) ->
  Forall is_ascii_digit digits -> forallb is_decimal digits = true.
Proof.
  intros Hd H. apply forallb_forall. intros c Hc.
  rewrite List.Forall_forall in H. apply Hd, H, Hc.
Qed.

Lemma image_filename_match is_decimal base_name file_extension image_num :
  (forall c, 48 <= c <= 57 -> is_decimal c = true) ->
  base_name <> [] -> ~ In 10 base_name ->
  file_extension <> [] -> forallb is_alnum file_extension = true ->
  0 <= image_num < 999 ->
  filename_match is_decimal (image_filename base_name image_num file_extension)
  = Some (base_name, format_03d (image_num + 1), file_extension).
Proof.
  intros Hd Hb Hn He Hal Hi.
  assert (Hlen : length (format_03d (image_num + 1)) = 3%nat)
    by (rewrite format_03d_small by lia; reflexivity).
  assert (Hacc : accepted is_decimal (image_filename base_name image_num file_extension)
                   base_name (format_03d (image_num + 1)) file_extension).
  { exists png. repeat split; auto.
    apply ascii_digits_decimal; auto. apply format_03d_ascii. lia. }
  destruct (filename_match_complete _ _ _ _ _ Hacc) as ([[g1 g2] g3] & Hr).
  rewrite Hr. apply filename_match_sound in Hr.
  apply accepted_name in Hr as Heq; [|now apply alnum_no; auto].
  destruct Heq as [Heq ->].
  destruct Hr as (_ & _ & _ & _ & Hl & _).
  rewrite !app_assoc in Heq. apply app_inj_2 in Heq; [|congruence].
  destruct Heq as [Heq ->]. apply app_inj_tail in Heq. destruct Heq as [-> _].
  reflexivity.
Qed.

(** X12 - The names written are the names read.  For a base name that is
    not empty and holds no newline, an alphanumeric suffix and an image
    number below 999, the pattern of [decrypt_single_file] accepts the file
    name that [encrypt_file] gives the image, whatever underscores and
    digits the base name contains: its groups are the base name, the three
    digits of [image_num + 1] and the extension.  The file is restored
    under the name [base_name.suffix], and under [base_name.bin] when the
    original had no suffix. *)
Theorem X12_name_round_trip is_decimal base_name suffix image_num :
  (forall c, 48 <= c <= 57 -> is_decimal c = true) ->
  base_name <> [] -> ~ In 10 base_name ->
  forallb is_alnum suffix = true ->
  0 <= image_num < 999 ->
  let file_extension := default_extension suffix in
  let n := image_num + 1 in
  filename_match is_decimal (image_filename base_name image_num file_extension)
    = Some (base_name, [48 + n / 100; 48 + (n / 10) mod 10; 48 + n mod 10], file_extension) /\
  restored_filename is_decimal (image_filename base_name image_num file_extension)
    = Some (base_name ++ [46] ++ match suffix with [] => bin | _ :: _ => suffix end).
Proof.
  intros Hd Hb Hn Hal Hi file_extension n.
  destruct (default_extension_alnum suffix Hal) as [He Hal'].
  pose proof (image_filename_match is_decimal base_name file_extension image_num
                Hd Hb Hn He Hal' Hi) as Hm.
  unfold restored_filename, series_name. rewrite Hm. rewrite format_03d_small by lia.
  split; reflexivity.
Qed.

Lemma X12_name_round_trip_witness :
  filename_match ascii_digit (image_filename [97; 95; 48; 48; 49; 95; 98] 41 bin)
    = Some ([97; 95; 48; 48; 49; 95; 98], [48; 52; 50], bin) /\
  restored_filename ascii_digit (image_filename [97; 95; 48; 48; 49; 95; 98] 41 bin)
    = Some ([97; 95; 48; 48; 49; 95; 98] ++ [46] ++ bin).
Proof.
  apply (X12_name_round_trip ascii_digit [97; 95; 48; 48; 49; 95; 98] [] 41).
  - intros c Hc. unfold ascii_digit. lia.
  - discriminate.
  - simpl. lia.
  - reflexivity.
  - lia.
Defined.




(** X14 - The fourth digit.  From image 1000 on the sequence number has
    more than three digits, and [decrypt_single_file] rejects the file name
    that [encrypt_file] gave the image (ValueError), for every base name
    and every extension without an underscore. *)
Theorem X14_fourth_digit is_decimal base_name file_extension image_num :
  999 <= image_num -> ~ In 95 file_extension ->
  (4 <= length (format_03d (image_num + 1)))%nat /\
  series_name is_decimal (image_filename base_name image_num file_extension) = None.
Proof.
  intros Hi Hext.
  assert (Hlen : (4 <= length (format_03d (image_num + 1)))%nat).
  { rewrite format_03d_long by lia. apply decimal_long. lia. }
  split; auto. unfold series_name.
  destruct (filename_match _ _) as [[[g1 g2] g3]|] eqn:Hm; auto. exfalso.
  apply filename_match_sound in Hm.
  apply accepted_name in Hm as Heq; auto. destruct Heq as [Heq _].
  destruct Hm as (_ & _ & _ & _ & Hl & _).
  pose proof (format_03d_ascii (image_num + 1) ltac:(lia)) as Hasc.
  revert Heq Hlen Hasc. generalize (format_03d (image_num + 1)) as digits.
  intros digits Heq Hlen Hasc.
  rewrite <- (take_drop (length digits - 3) digits) in Heq.
  rewrite !app_assoc in Heq. apply app_inj_2 in Heq;
    [|rewrite length_drop; lia].
  destruct Heq as [Heq _].
  destruct (exists_last (l := take (length digits - 3) digits)) as (d & c & Hd).
  { intros E. apply (f_equal length) in E. rewrite length_take in E. simpl in E. lia. }
  rewrite Hd, app_assoc in Heq. apply app_inj_tail in Heq. destruct Heq as [_ ->].
  assert (Hin : In 95 digits).
  { rewrite <- (take_drop (length digits - 3) digits), Hd, !in_app_iff. simpl. auto. }
  rewrite List.Forall_forall in Hasc. apply Hasc in Hin. unfold is_ascii_digit in Hin. lia.
Qed.

Lemma X14_fourth_digit_witness :
  (4 <= length (format_03d (999 + 1)))%nat /\
  series_name ascii_digit (image_filename [97] 999 bin) = None.
Proof.
  apply (X14_fourth_digit ascii_digit [97] bin 999).
  - lia.
  - simpl. lia.
Defined.








(** X17 - Extensions outside [a-zA-Z0-9].  [encrypt_file] puts the
    extension into the file name as it is, and the pattern of
    [decrypt_single_file] takes only letters and digits for it: when the
    extension holds any other character the decoder never gets it back,
    and when it holds no underscore the file name is rejected
    (ValueError), for every base name and image number. *)
Theorem X17_extension_class is_decimal base_name file_extension image_num :
  forallb is_alnum file_extension = false ->
  (forall base ext,
     series_name is_decimal (image_filename base_name image_num file_extension)
       = Some (base, ext) -> ext <> file_extension) /\
  (~ In 95 file_extension ->
   series_name is_decimal (image_filename base_name image_num file_extension) = None).
Proof.
  intros Hal. unfold series_name.
  destruct (filename_match _ _) as [[[g1 g2] g3]|] eqn:Hm; [|split; [discriminate|auto]].
  apply filename_match_sound in Hm. split.
  - intros base ext [= <- <-] ->.
    destruct Hm as (_ & _ & _ & _ & _ & _ & _ & H & _). congruence.
  - intros Hext. exfalso. apply accepted_name in Hm as Heq; auto.
    destruct Heq as [_ ->].
    destruct Hm as (_ & _ & _ & _ & _ & _ & _ & H & _). congruence.
Qed.

Lemma X17_extension_class_witness :
  (forall base ext,
     series_name ascii_digit (image_filename [97] 0 [99; 43; 43]) = Some (base, ext) ->
     ext <> [99; 43; 43]) /\
  (~ In 95 [99; 43; 43] ->
   series_name ascii_digit (image_filename [97] 0 [99; 43; 43]) = None).
Proof.
  apply (X17_extension_class ascii_digit [97] [99; 43; 43] 0). reflexivity.
Defined.





(** ** The groups of the directory mode *)

Lemma dict_append_keys file_groups base_name png_file :
  (In base_name (map fst file_groups) ->
   map fst (dict_append file_groups base_name png_file) = map fst file_groups) /\
  (~ In base_name (map fst file_groups) ->
   map fst (dict_append file_groups base_name png_file) = map fst file_groups ++ [base_name]).
Proof.
  induction file_groups as [|[key files] rest IH]; simpl.
  - tauto.
  - destruct (decide (key = base_name)) as [->|Hk]; simpl.
    + tauto.
    + destruct IH as [IH1 IH2]. split.
      * intros [H | H]; [congruence|]. now rewrite IH1.
      * intros H. rewrite IH2; tauto.
Qed.

Lemma dict_append_in file_groups base_name png_file key files :
  NoDup (map fst file_groups) ->
  In (key, files) (dict_append file_groups base_name png_file) <->
  (key <> base_name /\ In (key, files) file_groups) \/
  (key = base_name /\
   ((exists files0, In (base_name, files0) file_groups /\ files = files0 ++ [png_file]) \/
    (~ In base_name (map fst file_groups) /\ files = [png_file]))).
Proof.
  induction file_groups as [|[k fs] rest IH]; intros Hnd; simpl.
  - split.
    + intros [[= <- <-] | []]. right. split; auto.
    + intros [[_ []] | [-> [(? & [] & _) | [_ ->]]]]. now left.
  - apply NoDup_cons in Hnd. destruct Hnd as [Hk Hnd]. rewrite list_elem_of_In in Hk.
    specialize (IH Hnd).
    destruct (decide (k = base_name)) as [->|Hne]; simpl.
    + split.
      * intros [[= <- <-] | H].
        -- right. split; auto. left. exists fs. auto.
        -- left. split; auto. intros ->. apply Hk.
           apply in_map_iff. exists (base_name, files). auto.
      * intros [[Hne [[= -> ->] | H]] | [-> [(files0 & [[= ->] | H] & ->) | [H _]]]];
          auto; try tauto.
        exfalso. apply Hk. apply in_map_iff. exists (base_name, files0). auto.
    + rewrite IH. split.
      * intros [[= <- <-] | [[H1 H2] | [-> [(files0 & H1 & ->) | [H1 ->]]]]].
        -- left. auto.
        -- left. auto.
        -- right. split; auto. left. exists files0. auto.
        -- right. split; auto. right. split; auto. tauto.
      * intros [[H1 [[= -> ->] | H2]] | [-> [(files0 & [[= ? ?] | H1] & ->) | [H1 ->]]]];
          auto; try congruence.
        -- right. right. split; auto. left. eauto.
        -- right. right. split; auto. right. split; auto.
Qed.

Lemma has_base_iff is_decimal base_name png_file :
  has_base is_decimal base_name png_file = true <->
  series_base is_decimal png_file = Some base_name.
Proof. unfold has_base. apply bool_decide_eq_true. Qed.

Lemma filter_snoc is_decimal key seen p :
  List.filter (has_base is_decimal key) (seen ++ [p])
  = List.filter (has_base is_decimal key) seen
    ++ (if has_base is_decimal key p then [p] else []).
Proof. rewrite List.filter_app. reflexivity. Qed.

(** One iteration of the grouping loop keeps its invariant: the keys differ
    from each other, and the group of a key holds the paths seen so far
    whose file name has this base, in the order of the listing. *)
Lemma group_step is_decimal seen file_groups p :
  NoDup (map fst file_groups) ->
  (forall key files, In (key, files) file_groups <->
     files <> [] /\ files = List.filter (has_base is_decimal key) seen) ->
  let file_groups' :=
    match series_base is_decimal p with
    | Some base_name => dict_append file_groups base_name p
    | None => file_groups
    end in
  NoDup (map fst file_groups') /\
  (forall key files, In (key, files) file_groups' <->
     files <> [] /\ files = List.filter (has_base is_decimal key) (seen ++ [p])).
Proof.
  intros Hnd Hin. cbn zeta.
  destruct (series_base is_decimal p) as [b|] eqn:Hp.
  - assert (Hkey : forall key, has_base is_decimal key p = true <-> key = b).
    { intros key. rewrite has_base_iff, Hp. split; congruence. }
    assert (Hnew : ~ In b (map fst file_groups) ->
                   List.filter (has_base is_decimal b) seen = []).
    { intros Hb. destruct (List.filter (has_base is_decimal b) seen) as [|x l] eqn:E; auto.
      exfalso. apply Hb. apply in_map_iff. exists (b, x :: l). split; auto.
      apply Hin. split; [discriminate | congruence]. }
    split.
    + destruct (dict_append_keys file_groups b p) as [K1 K2].
      destruct (decide (elem_of b (map fst file_groups))) as [H|H];
        rewrite list_elem_of_In in H; [now rewrite K1|]. rewrite (K2 H).
      apply NoDup_app. split; [auto|]. split; [|apply NoDup_singleton].
      intros x Hx Hx'. apply list_elem_of_In in Hx.
      apply list_elem_of_singleton in Hx'. subst. tauto.
    + intros key files. rewrite dict_append_in by auto. rewrite filter_snoc.
      destruct (has_base is_decimal key p) eqn:Hk.
      * apply Hkey in Hk. subst key. split.
        -- intros [[H _] | [_ [(files0 & H & ->) | [H ->]]]]; [congruence | |].
           ++ apply Hin in H. destruct H as [_ <-]. split; auto.
              intros E. apply app_eq_nil in E. destruct E; discriminate.
           ++ rewrite (Hnew H). split; [discriminate | reflexivity].
        -- intros [_ ->]. right. split; auto.
           destruct (List.filter (has_base is_decimal b) seen) as [|x l] eqn:E.
           ++ right. split; auto. intros Hb. apply in_map_iff in Hb.
              destruct Hb as ([k fs] & Hk & Hb). simpl in Hk. subst k.
              apply Hin in Hb. destruct Hb as [Hne Hfs]. congruence.
           ++ left. exists (x :: l). split; auto. apply Hin.
              split; [discriminate | congruence].
      * assert (key <> b).
        { intros ->. assert (has_base is_decimal b p = true) by now apply Hkey.
          congruence. }
        rewrite app_nil_r. rewrite Hin. tauto.
  - split; auto. intros key files. rewrite filter_snoc.
    assert (Hk : has_base is_decimal key p = false).
    { destruct (has_base is_decimal key p) eqn:E; auto.
      apply has_base_iff in E. congruence. }
    rewrite Hk, app_nil_r. apply Hin.
Qed.

Lemma group_loop_spec is_decimal png_files : forall seen file_groups,
  NoDup (map fst file_groups) ->
  (forall key files, In (key, files) file_groups <->
     files <> [] /\ files = List.filter (has_base is_decimal key) seen) ->
  let file_groups' :=
    fold_left
      (fun file_groups png_file =>
         match series_base is_decimal png_file with
         | Some base_name => dict_append file_groups base_name png_file
         | None => file_groups
         end) png_files file_groups in
  NoDup (map fst file_groups') /\
  (forall key files, In (key, files) file_groups' <->
     files <> [] /\ files = List.filter (has_base is_decimal key) (seen ++ png_files)).
Proof.
  induction png_files as [|p png_files IH]; intros seen file_groups Hnd Hin; cbn zeta.
  - simpl. rewrite app_nil_r. auto.
  - cbn [fold_left].
    replace (seen ++ p :: png_files) with ((seen ++ [p]) ++ png_files)
      by (rewrite <- app_assoc; reflexivity).
    destruct (group_step is_decimal seen file_groups p Hnd Hin) as [Hnd' Hin'].
    apply IH; auto.
Qed.

Lemma group_files_spec is_decimal png_files :
  NoDup (map fst (group_files is_decimal png_files)) /\
  (forall key files, In (key, files) (group_files is_decimal png_files) <->
     files <> [] /\ files = List.filter (has_base is_decimal key) png_files).
Proof.
  apply (group_loop_spec is_decimal png_files [] []).
  - constructor.
  - intros key files. simpl. split; [tauto | intros [H ->]; congruence].
Qed.

Lemma filter_head_find {A} (f : A -> bool) l x r :
  List.filter f l = x :: r -> find f l = Some x.
Proof.
  induction l as [|y l IH]; simpl; [discriminate|].
  destruct (f y); [intros [= -> _]; reflexivity | exact IH].
Qed.

Lemma find_filter_head {A} (f : A -> bool) l x :
  find f l = Some x -> exists r, List.filter f l = x :: r.
Proof.
  induction l as [|y l IH]; simpl; [discriminate|].
  destruct (f y); [intros [= ->]; eauto | exact IH].
Qed.

Lemma key_order_total {B} : Total (fun a b : list Z * B => in_order (fst a) (fst b)).
Proof. intros a b. apply in_order_total. Qed.

Lemma key_order_trans {B} :
  Transitive (fun a b : list Z * B => in_order (fst a) (fst b)).
Proof. intros a b c. apply in_order_trans. Qed.

(** The items of [file_groups] in the order of the loop. *)
Lemma sorted_items_spec is_decimal png_files :
  let items := merge_sort (fun a b => in_order (fst a) (fst b))
                 (group_files is_decimal png_files) in
  NoDup (map fst items) /\
  StronglySorted (fun a b => in_order (fst a) (fst b)) items /\
  (forall key files, In (key, files) items <->
     files <> [] /\ files = List.filter (has_base is_decimal key) png_files).
Proof.
  cbn zeta. destruct (group_files_spec is_decimal png_files) as [Hnd Hin].
  pose proof (merge_sort_Permutation (fun a b : list Z * list (list Z) =>
                in_order (fst a) (fst b)) (group_files is_decimal png_files)) as Hp.
  split; [|split].
  - rewrite Hp. exact Hnd.
  - apply (@StronglySorted_merge_sort _ _ _ key_order_trans key_order_total).
  - intros key files. rewrite <- Hin. split; apply Permutation_in; auto.
    now symmetry.
Qed.

Lemma call_of_item is_decimal png_files key files :
  files <> [] -> files = List.filter (has_base is_decimal key) png_files ->
  series_base is_decimal (hd [] files) = Some key /\
  find (has_base is_decimal key) png_files = Some (hd [] files).
Proof.
  intros Hne Hf. destruct files as [|x r]; [congruence|]. simpl.
  symmetry in Hf. pose proof (filter_head_find _ _ _ _ Hf) as Hfind.
  split; auto. apply find_some in Hfind. apply has_base_iff. tauto.
Qed.

(** X19 - One call for each base name.  The directory mode groups the
    paths by the base name alone and calls [decrypt_single_file] once for
    each group, on the first path of the listing with that base name, in
    the order of the base names.  Whatever its extension, a path whose base
    name came earlier in the listing is never passed: of two series with
    the same base name and different extensions, only the one listed first
    is decoded. *)
Theorem X19_one_call_per_base is_decimal png_files :
  (forall call,
     In call (batch_calls is_decimal png_files) <->
     exists base_name,
       series_base is_decimal call = Some base_name /\
       find (has_base is_decimal base_name) png_files = Some call) /\
  (forall call call' base_name,
     In call (batch_calls is_decimal png_files) ->
     In call' (batch_calls is_decimal png_files) ->
     series_base is_decimal call = Some base_name ->
     series_base is_decimal call' = Some base_name ->
     call = call') /\
  StronglySorted
    (fun call call' =>
       exists base_name base_name',
         series_base is_decimal call = Some base_name /\
         series_base is_decimal call' = Some base_name' /\
         str_lt base_name base_name' = true)
    (batch_calls is_decimal png_files).
Proof.
  destruct (sorted_items_spec is_decimal png_files) as (Hnd & Hs & Hin).
  assert (Hcalls : forall call,
     In call (batch_calls is_decimal png_files) <->
     exists base_name,
       series_base is_decimal call = Some base_name /\
       find (has_base is_decimal base_name) png_files = Some call).
  { intros call. unfold batch_calls. rewrite in_map_iff. split.
    - intros ([key files] & <- & Hitem). apply Hin in Hitem. destruct Hitem as [Hne Hf].
      exists key. simpl. now apply call_of_item.
    - intros (b & Hb & Hfind). apply find_filter_head in Hfind. destruct Hfind as (r & Hf).
      exists (b, call :: r). split; auto. apply Hin. split; [discriminate | congruence]. }
  split; [exact Hcalls|]. split.
  - intros call call' b Hc Hc' Hb Hb'.
    apply Hcalls in Hc, Hc'. destruct Hc as (b1 & H1 & F1), Hc' as (b2 & H2 & F2).
    congruence.
  - unfold batch_calls. revert Hnd Hs Hin.
    generalize (merge_sort (fun a b : list Z * list (list Z) => in_order (fst a) (fst b))
                  (group_files is_decimal png_files)) as items.
    intros items Hnd Hs Hin.
    assert (Hall : forall key files, In (key, files) items ->
              series_base is_decimal (hd [] files) = Some key).
    { intros key files H. apply Hin in H. destruct H as [Hne Hf].
      now apply (call_of_item is_decimal png_files). }
    clear Hin. induction Hs as [|[key files] items Hs IH Hx]; simpl; constructor.
    + apply IH.
      * simpl in Hnd. apply NoDup_cons in Hnd. tauto.
      * intros k f H. apply Hall. now right.
    + simpl in Hnd. apply NoDup_cons in Hnd. destruct Hnd as [Hk _].
      rewrite list_elem_of_In in Hk.
      apply List.Forall_forall. intros call Hc. apply in_map_iff in Hc.
      destruct Hc as ([k f] & <- & Hc). rewrite List.Forall_forall in Hx.
      pose proof (Hx _ Hc) as Hord. simpl in Hord. apply in_order_iff in Hord.
      exists key, k. split; [apply Hall; now left|]. split; [apply Hall; now right|].
      destruct (str_lt key k) eqn:E; auto. exfalso. apply Hk.
      apply in_map_iff. exists (k, f). split; auto. simpl.
      symmetry. now apply str_lt_connex.
Qed.

Lemma X19_one_call_per_base_witness :
  In ([100; 47] ++ image_filename [97] 0 [116])
     (batch_calls ascii_digit
        [[100; 47] ++ image_filename [97] 0 [116]; [100; 47] ++ image_filename [97] 0 bin]) /\
  ~ In ([100; 47] ++ image_filename [97] 0 bin)
     (batch_calls ascii_digit
        [[100; 47] ++ image_filename [97] 0 [116]; [100; 47] ++ image_filename [97] 0 bin]).
Proof.
  destruct (X19_one_call_per_base ascii_digit
              [[100; 47] ++ image_filename [97] 0 [116]; [100; 47] ++ image_filename [97] 0 bin])
    as (Hcalls & Hone & _).
  assert (H1 : In ([100; 47] ++ image_filename [97] 0 [116])
     (batch_calls ascii_digit
        [[100; 47] ++ image_filename [97] 0 [116]; [100; 47] ++ image_filename [97] 0 bin])).
  { apply Hcalls. exists [97]. split; reflexivity. }
  split; [exact H1|].
  intros H2. specialize (Hone _ _ [97] H1 H2 eq_refl eq_refl). discriminate.
Defined.
